(** * Cross-perspective topic model: the Gibbs sampler of [CPT_Gibbs.py]

    A shallow embedding of the class [GibbsSampler] and of the numpy
    operations it calls, with the properties of its specification.

    Conventions of the embedding.
    - A numpy [float64] is an [f64]: an exact rational, or one of the IEEE
      special values that a division by zero produces ([inf], [-inf], [nan]).
      Rounding, overflow and the sign of zero are not represented.
    - A numpy [int] cell is a [Z]: a cell counts word tokens of the corpus,
      whose number stays far below [2^63].
    - Arrays are lists (of lists); an index out of range raises [IndexError],
      as numpy does for the non-negative indices the corpus yields.
    - A Python exception is the [Raise] case of [result]; methods of the
      sampler are computations in the monad [M], which threads the sampler
      object, the state of [np.random] and the files written by [run]. *)

From Stdlib Require Import ZArith QArith Lia Lqa Bool Ascii.
From stdpp Require Import base option list gmap strings pretty.

(** ** Exceptions *)

Inductive exn : Type :=
  | IndexError
  | ValueError
  | IOError.

Inductive result (A : Type) : Type :=
  | Ok (a : A)
  | Raise (e : exn).

Arguments Ok {A} a.
Arguments Raise {A} e.


Definition rbind {A B} (r : result A) (k : A -> result B) : result B :=
  match r with Ok a => k a | Raise e => Raise e end.

(** A list comprehension whose body may raise. *)
Fixpoint traverse {A B} (f : A -> result B) (l : list A) : result (list B) :=
  match l with
  | [] => Ok []
  | a :: l' => rbind (f a) (fun b => rbind (traverse f l') (fun r => Ok (b :: r)))
  end.

(** ** numpy: numbers *)

Module Np.

Inductive f64 : Type :=
  | Fin (q : Q)
  | Inf (neg : bool)
  | NaN.

Definition Qzero (q : Q) : bool := (Qnum q =? 0)%Z.
Definition Qneg (q : Q) : bool := (Qnum q <? 0)%Z.

Definition of_int (n : Z) : f64 := Fin (inject_Z n).

Definition fadd (a b : f64) : f64 :=
  match a, b with
  | NaN, _ | _, NaN => NaN
  | Fin x, Fin y => Fin (x + y)
  | Inf s, Fin _ | Fin _, Inf s => Inf s
  | Inf s, Inf t => if eqb s t then Inf s else NaN
  end.

Definition fmul (a b : f64) : f64 :=
  match a, b with
  | NaN, _ | _, NaN => NaN
  | Fin x, Fin y => Fin (x * y)
  | Inf s, Fin y | Fin y, Inf s => if Qzero y then NaN else Inf (xorb s (Qneg y))
  | Inf s, Inf t => Inf (xorb s t)
  end.

(** True division: [x / 0] is [nan] for [x = 0] and an infinity otherwise
    (numpy warns and goes on; it raises nothing). *)
Definition fdiv (a b : f64) : f64 :=
  match a, b with
  | NaN, _ | _, NaN => NaN
  | Fin x, Fin y =>
      if Qzero y then (if Qzero x then NaN else Inf (Qneg x)) else Fin (x / y)
  | Fin _, Inf _ => Fin 0
  | Inf s, Fin y => Inf (xorb s (Qneg y))
  | Inf _, Inf _ => NaN
  end.

(** IEEE [a < b]: false as soon as an operand is [nan]. *)
Definition flt (a b : f64) : bool :=
  match a, b with
  | NaN, _ | _, NaN => false
  | Fin x, Fin y => negb (Qle_bool y x)
  | Fin _, Inf s => negb s
  | Inf s, Fin _ => s
  | Inf s, Inf t => s && negb t
  end.

Definition is_nan (a : f64) : bool :=
  match a with NaN => true | _ => false end.

(** The order numpy sorts and searches floats by: [nan] counts as largest. *)
Definition sort_lt (a b : f64) : bool :=
  flt a b || (is_nan b && negb (is_nan a)).

(** Equality of values, up to the representation of the rational. *)
Definition feq (a b : f64) : Prop :=
  match a, b with
  | Fin x, Fin y => x == y
  | Inf s, Inf t => s = t
  | NaN, NaN => True
  | _, _ => False
  end.

(** ** numpy: arrays *)

Abbreviation vec := (list f64).
Abbreviation mat := (list (list f64)).

(** [np.sum] of an integer array, and of a float array. *)
Definition zsum (l : list Z) : Z := foldr Z.add 0%Z l.
Definition fsum (l : vec) : f64 := foldr fadd (Fin 0) l.

(** The rational sum the float sum of finite values stands for. *)
Definition qsum (l : list Q) : Q := foldr Qplus 0%Q l.

(** [np.cumsum]: the running totals, the first one being [p[0]] itself. *)
Fixpoint cumsum_from (acc : f64) (l : vec) : vec :=
  match l with
  | [] => []
  | a :: l' => fadd acc a :: cumsum_from (fadd acc a) l'
  end.

Definition cumsum (l : vec) : vec :=
  match l with
  | [] => []
  | a :: l' => a :: cumsum_from a l'
  end.

(** [np.searchsorted(a, key)] with the default [side='left']: numpy's binary
    search.  The loop runs while [lo < hi]; each round halves [hi - lo], so
    [length a] rounds are enough. *)
Fixpoint binsearch (fuel : nat) (a : vec) (key : f64) (lo hi : nat) : nat :=
  match fuel with
  | O => lo
  | S fuel' =>
      if (lo <? hi)%nat then
        let mid := (lo + (hi - lo) / 2)%nat in
        match a !! mid with
        | Some v =>
            if sort_lt v key then binsearch fuel' a key (mid + 1) hi
            else binsearch fuel' a key lo mid
        | None => lo
        end
      else lo
  end.

Definition searchsorted (a : vec) (key : f64) : nat :=
  binsearch (length a) a key 0 (length a).

(** [np.zeros(n)] and [np.zeros((r, c))]: a negative dimension is refused. *)
Definition zeros {A} (zero : A) (n : Z) : result (list A) :=
  if (n <? 0)%Z then Raise ValueError else Ok (replicate (Z.to_nat n) zero).

Definition zeros2 {A} (zero : A) (r c : Z) : result (list (list A)) :=
  rbind (zeros zero c) (fun row => zeros row r).

Definition zeros3 {A} (zero : A) (p r c : Z) : result (list (list (list A))) :=
  rbind (zeros2 zero r c) (fun m => zeros m p).

(** [a[i]] read, and [a[i] = f(a[i])] written in place. *)
Definition get {A} (l : list A) (i : nat) : result A :=
  match l !! i with Some a => Ok a | None => Raise IndexError end.

Definition upd {A} (f : A -> A) (i : nat) (l : list A) : result (list A) :=
  match l !! i with
  | Some a => Ok (<[i := f a]> l)
  | None => Raise IndexError
  end.

Definition upd2 {A} (f : A -> A) (i j : nat) (m : list (list A))
  : result (list (list A)) :=
  rbind (get m i) (fun row =>
  rbind (upd f j row) (fun row' => Ok (<[i := row']> m))).

Definition upd3 {A} (f : A -> A) (p i j : nat) (t : list (list (list A)))
  : result (list (list (list A))) :=
  rbind (get t p) (fun m =>
  rbind (upd2 f i j m) (fun m' => Ok (<[p := m']> t))).

(** A column [m[:, j]] of a matrix. *)
Fixpoint column {A} (m : list (list A)) (j : nat) : result (list A) :=
  match m with
  | [] => Ok []
  | row :: m' =>
      rbind (get row j) (fun a =>
      rbind (column m' j) (fun c => Ok (a :: c)))
  end.

(** Elementwise operations.  An array and a scalar combine cell by cell; two
    vectors combine when they have one length, or when one of them has a
    single cell, which numpy stretches (broadcasting); otherwise numpy raises
    [ValueError]. *)
Definition vadd_scalar (v : list Z) (s : f64) : vec :=
  map (fun n => fadd (of_int n) s) v.

Definition vdiv_scalar (v : vec) (s : f64) : vec :=
  map (fun a => fdiv a s) v.

Definition broadcast (f : f64 -> f64 -> f64) (u v : vec) : result vec :=
  if (length u =? length v)%nat then Ok (zip_with f u v)
  else match u, v with
       | [a], _ => Ok (map (f a) v)
       | _, [b] => Ok (map (fun a => f a b) u)
       | _, _ => Raise ValueError
       end.

Definition vdiv : vec -> vec -> result vec := broadcast fdiv.
Definition vmul : vec -> vec -> result vec := broadcast fmul.

(** Whether the members of a list are all the same. *)
Definition same (l : list nat) : bool :=
  match l with
  | [] => true
  | a :: l' => forallb (Nat.eqb a) l'
  end.

(** [np.array([np.zeros((rows[i], cols[i])) for i ...])].  Matrices of one
    shape stack into one array of three dimensions; matrices whose numbers of
    rows differ are kept as they are, in an array of objects; matrices that
    agree on the number of rows and not on the number of columns are refused:
    numpy fixes two dimensions from the rows, then fails to store a matrix
    in a row and raises [ValueError]. *)
Definition stacked_zeros (rows cols : list nat)
  : result (list (list (list nat))) :=
  if same rows && negb (same cols) then Raise ValueError
  else Ok (zip_with (fun n m => replicate n (replicate m 0%nat)) rows cols).

End Np.
Export Np.

(** ** The corpus adapter

    [CPTCorpus] is an external collaborator of the sampler; this is what the
    sampler reads from it.  Vocabulary ids, positions and document indices
    are non-negative. *)

Record Perspective : Type := {
  topicMaxDocLength : nat;      (* p.topicCorpus.maxDocLength *)
  opinionLen : nat;             (* len(p.opinionCorpus) *)
  opinionMaxDocLength : nat     (* p.opinionCorpus.maxDocLength *)
}.

(** [words_in_document(doc, 'topic')] and [words_in_document(doc, 'opinion')]:
    the pairs [(w_id, i)] of a document, in the order they are produced. *)
Record Document : Type := {
  topic_words : list (nat * nat);
  opinion_words : list (nat * nat)
}.

Record Corpus : Type := {
  perspectives : list Perspective;
  topicDictionary : nat;        (* len(corpus.topicDictionary) *)
  opinionDictionary : nat;      (* len(corpus.opinionDictionary) *)
  corpus_len : nat;             (* len(corpus) *)
  (* iterating the corpus: d, persp, d_p, doc *)
  documents : list (nat * nat * nat * Document)
}.

(** ** The random number generator

    [np.random] is a state that every draw advances.  [next_int lo hi] is
    [np.random.randint(lo, hi)] for [lo < hi], and [next_unit] is
    [np.random.rand()]. *)

Class Generator (G : Type) : Type := {
  next_int : Z -> Z -> G -> Z * G;
  next_unit : G -> Q * G;
  next_int_range : forall lo hi g,
    (lo < hi)%Z -> (lo <= fst (next_int lo hi g) < hi)%Z;
  next_unit_range : forall g,
    (0 <= fst (next_unit g))%Q /\ (fst (next_unit g) < 1)%Q
}.

(** ** The sampler object *)

Record Config : Type := {
  corpus : Corpus;
  nTopics : Z;
  alpha : f64;
  beta : f64;
  beta_o : f64;
  nPerspectives : nat;
  nIter : Z;
  out_dir : option string
}.

Record Sizes : Type := {
  VT : nat;
  VO : nat;
  DT : nat;
  DO : list nat;
  maxDocLengthT : nat;
  maxDocLengthO : list nat
}.

Record Counts : Type := {
  z : list (list nat);
  ndk : list (list Z);
  nkw : list (list Z);
  nk : list Z;
  ntd : vec;
  x : list (list (list nat));
  nrs : list (list (list Z));
  ns : list (list Z)
}.

(** What [to_df] builds: the table, and whether its columns were labelled by
    the words of a dictionary and the frame then transposed. *)
Record DataFrame : Type := {
  frame : mat;
  by_word : bool
}.

Record Outputs : Type := {
  topics : DataFrame;
  opinions : list DataFrame;
  document_topic_matrix : DataFrame
}.

Record GibbsSampler : Type := {
  config : Config;
  sizes : Sizes;
  counts : Counts;
  outputs : option Outputs
}.

Definition set_sizes (s : Sizes) (o : GibbsSampler) : GibbsSampler :=
  {| config := config o; sizes := s; counts := counts o; outputs := outputs o |}.

Definition set_counts (c : Counts) (o : GibbsSampler) : GibbsSampler :=
  {| config := config o; sizes := sizes o; counts := c; outputs := outputs o |}.

Definition set_outputs (r : Outputs) (o : GibbsSampler) : GibbsSampler :=
  {| config := config o; sizes := sizes o; counts := counts o;
     outputs := Some r |}.

Definition set_z v (c : Counts) : Counts :=
  {| z := v; ndk := ndk c; nkw := nkw c; nk := nk c; ntd := ntd c;
     x := x c; nrs := nrs c; ns := ns c |}.
Definition set_ndk v (c : Counts) : Counts :=
  {| z := z c; ndk := v; nkw := nkw c; nk := nk c; ntd := ntd c;
     x := x c; nrs := nrs c; ns := ns c |}.
Definition set_nkw v (c : Counts) : Counts :=
  {| z := z c; ndk := ndk c; nkw := v; nk := nk c; ntd := ntd c;
     x := x c; nrs := nrs c; ns := ns c |}.
Definition set_nk v (c : Counts) : Counts :=
  {| z := z c; ndk := ndk c; nkw := nkw c; nk := v; ntd := ntd c;
     x := x c; nrs := nrs c; ns := ns c |}.
Definition set_ntd v (c : Counts) : Counts :=
  {| z := z c; ndk := ndk c; nkw := nkw c; nk := nk c; ntd := v;
     x := x c; nrs := nrs c; ns := ns c |}.
Definition set_x v (c : Counts) : Counts :=
  {| z := z c; ndk := ndk c; nkw := nkw c; nk := nk c; ntd := ntd c;
     x := v; nrs := nrs c; ns := ns c |}.
Definition set_nrs v (c : Counts) : Counts :=
  {| z := z c; ndk := ndk c; nkw := nkw c; nk := nk c; ntd := ntd c;
     x := x c; nrs := v; ns := ns c |}.
Definition set_ns v (c : Counts) : Counts :=
  {| z := z c; ndk := ndk c; nkw := nkw c; nk := nk c; ntd := ntd c;
     x := x c; nrs := nrs c; ns := v |}.

(** The attributes that [_initialize] creates, before it has run.  Python
    has no such attribute then, and a method that reads one fails; what is
    proved of [run] and of the methods that read the tables is about a
    sampler that [_initialize] has prepared. *)
Definition no_sizes : Sizes :=
  {| VT := 0; VO := 0; DT := 0; DO := []; maxDocLengthT := 0;
     maxDocLengthO := [] |}.

Definition no_counts : Counts :=
  {| z := []; ndk := []; nkw := []; nk := []; ntd := [];
     x := []; nrs := []; ns := [] |}.

(** [GibbsSampler.__init__]: the arguments are stored as they come. *)
Definition __init__ (c : Corpus) (nTopics_ : Z) (alpha_ beta_ beta_o_ : f64)
    (nIter_ : Z) (out_dir_ : option string) : GibbsSampler :=
  {| config := {| corpus := c; nTopics := nTopics_; alpha := alpha_;
                  beta := beta_; beta_o := beta_o_;
                  nPerspectives := length (perspectives c);
                  nIter := nIter_; out_dir := out_dir_ |};
     sizes := no_sizes; counts := no_counts; outputs := None |}.

(** ** The monad of the methods *)

(** The snapshot files of [run], by parameter name and iteration: the file
    [<parameter_dir>/<name>_<iteration, four digits>.csv]. *)
Abbreviation Files := (gmap (string * nat) mat).

Record world (G : Type) : Type := World {
  self : GibbsSampler;
  rng : G;
  files : Files
}.

Arguments World {G} _ _ _.
Arguments self {G} _.
Arguments rng {G} _.
Arguments files {G} _.

Definition M (G A : Type) : Type := world G -> result (A * world G).

Definition ret {G A} (a : A) : M G A := fun w => Ok (a, w).

Definition bind {G A B} (m : M G A) (k : A -> M G B) : M G B :=
  fun w => match m w with
           | Ok (a, w') => k a w'
           | Raise e => Raise e
           end.

Declare Scope monad_scope.
Delimit Scope monad_scope with monad.
Notation "x <- c1 ;; c2" := (bind c1 (fun x => c2))
  (at level 100, c1 at next level, right associativity) : monad_scope.
Notation "c1 ;; c2" := (bind c1 (fun _ => c2))
  (at level 100, right associativity) : monad_scope.
Open Scope monad_scope.

Definition lift {G A} (r : result A) : M G A :=
  fun w => match r with Ok a => Ok (a, w) | Raise e => Raise e end.

Definition get_self {G} : M G GibbsSampler := fun w => Ok (self w, w).

Definition put_self {G} (o : GibbsSampler) : M G unit :=
  fun w => Ok (tt, World o (rng w) (files w)).

(** An assignment to cells of one attribute: [f] computes the new array, or
    raises. *)
Definition modify {G A} (rd : Counts -> A) (wr : A -> Counts -> Counts)
    (f : A -> result A) : M G unit :=
  o <- get_self;;
  v <- lift (f (rd (counts o)));;
  put_self (set_counts (wr v (counts o)) o).

Fixpoint for_each {G A} (l : list A) (body : A -> M G unit) : M G unit :=
  match l with
  | [] => ret tt
  | a :: l' => body a;; for_each l' body
  end.

(** [np.random.randint(low, high)] raises [ValueError] on an empty range. *)
Definition randint {G} `{Generator G} (low high : Z) : M G nat :=
  fun w =>
    if (low <? high)%Z then
      let '(v, g) := next_int low high (rng w) in
      Ok (Z.to_nat v, World (self w) g (files w))
    else Raise ValueError.

(** [np.random.rand()] *)
Definition rand {G} `{Generator G} : M G f64 :=
  fun w => let '(u, g) := next_unit (rng w) in
           Ok (Fin u, World (self w) g (files w)).

(** Python's [max] of a list. *)
Definition py_max (l : list nat) : result nat :=
  match l with
  | [] => Raise ValueError
  | a :: l' => Ok (foldl Nat.max a l')
  end.

(** ** The methods of [GibbsSampler] *)

Section Methods.

Context {G : Type} `{Generator G}.

(** The body of the loop over the topic words of document [d]. *)
Definition init_topic_word (d : nat) (wi : nat * nat) : M G unit :=
  let '(w_id, i) := wi in
  o <- get_self;;
  topic <- randint 0 (nTopics (config o));;
  modify z set_z (upd2 (fun _ => topic) d i);;
  modify ndk set_ndk (upd2 Z.succ d topic);;
  modify nkw set_nkw (upd2 Z.succ topic w_id);;
  modify nk set_nk (upd Z.succ topic);;
  modify ntd set_ntd (upd (fun t => fadd t (Fin 1)) d).

(** The body of the loop over the opinion words of document [d_p] of
    perspective [persp]. *)
Definition init_opinion_word (persp d_p : nat) (wi : nat * nat) : M G unit :=
  let '(w_id, i) := wi in
  o <- get_self;;
  opinion <- randint 0 (nTopics (config o));;
  modify x set_x (upd3 (fun _ => opinion) persp d_p i);;
  modify nrs set_nrs (upd3 Z.succ persp opinion w_id);;
  modify ns set_ns (upd2 Z.succ persp opinion).

Definition init_document (it : nat * nat * nat * Document) : M G unit :=
  let '(d, persp, d_p, doc) := it in
  for_each (topic_words doc) (init_topic_word d);;
  for_each (opinion_words doc) (init_opinion_word persp d_p).

(** [GibbsSampler._initialize] *)
Definition _initialize : M G unit :=
  o <- get_self;;
  let cfg := config o in
  let c := corpus cfg in
  let K := nTopics cfg in
  let VT_ := topicDictionary c in
  let VO_ := opinionDictionary c in
  let DT_ := corpus_len c in
  let DO_ := map opinionLen (perspectives c) in
  maxT <- lift (py_max (map topicMaxDocLength (perspectives c)));;
  let maxO := map opinionMaxDocLength (perspectives c) in
  (* topics *)
  let z_ := replicate DT_ (replicate maxT 0%nat) in
  ndk_ <- lift (zeros2 0%Z (Z.of_nat DT_) K);;
  nkw_ <- lift (zeros2 0%Z K (Z.of_nat VT_));;
  nk_ <- lift (zeros 0%Z K);;
  let ntd_ := replicate DT_ (Fin 0) in
  (* opinions *)
  x_ <- lift (stacked_zeros DO_ maxO);;
  nrs_ <- lift (zeros3 0%Z (Z.of_nat (nPerspectives cfg)) K (Z.of_nat VO_));;
  ns_ <- lift (zeros2 0%Z (Z.of_nat (nPerspectives cfg)) K);;
  put_self
    {| config := cfg;
       sizes := {| VT := VT_; VO := VO_; DT := DT_; DO := DO_;
                   maxDocLengthT := maxT; maxDocLengthO := maxO |};
       counts := {| z := z_; ndk := ndk_; nkw := nkw_; nk := nk_;
                    ntd := ntd_; x := x_; nrs := nrs_; ns := ns_ |};
       outputs := outputs o |};;
  (* loop over the words in the corpus *)
  for_each (documents c) init_document.

(** The vector [p = f1*f2] of [p_z], before it is normalized. *)
Definition p_z_weights (d w_id : nat) : M G vec :=
  o <- get_self;;
  let cfg := config o in
  let c := counts o in
  row <- lift (get (ndk c) d);;
  let f1 :=
    vdiv_scalar (vadd_scalar row (alpha cfg))
      (fadd (of_int (zsum row)) (fmul (of_int (nTopics cfg)) (alpha cfg))) in
  col <- lift (column (nkw c) w_id);;
  f2 <- lift (vdiv (vadd_scalar col (beta cfg))
                   (vadd_scalar (nk c)
                      (fmul (beta cfg) (of_int (Z.of_nat (VT (sizes o)))))));;
  lift (vmul f1 f2).

(** [GibbsSampler.p_z] *)
Definition p_z (d w_id : nat) : M G vec :=
  p <- p_z_weights d w_id;;
  ret (vdiv_scalar p (fsum p)).

(** The vector [p = f1*f2] of [p_x], before it is normalized. *)
Definition p_x_weights (persp d w_id : nat) : M G vec :=
  o <- get_self;;
  let cfg := config o in
  let c := counts o in
  m <- lift (get (nrs c) persp);;
  col <- lift (column m w_id);;
  tot <- lift (get (ns c) persp);;
  f1 <- lift (vdiv (vadd_scalar col (beta_o cfg))
                   (vadd_scalar tot
                      (fmul (beta_o cfg) (of_int (Z.of_nat (VO (sizes o)))))));;
  row <- lift (get (ndk c) d);;
  n <- lift (get (ntd c) d);;
  let f2 := vdiv_scalar (map of_int row) n in
  lift (vmul f1 f2).

(** [GibbsSampler.p_x] *)
Definition p_x (persp d w_id : nat) : M G vec :=
  p <- p_x_weights persp d w_id;;
  ret (vdiv_scalar p (fsum p)).

(** [GibbsSampler.sample_from] *)
Definition sample_from (p : vec) : M G nat :=
  let c := cumsum p in
  u <- rand;;
  ret (searchsorted c u).

(** The rows of [f1 / f2] where [f1 = counts + prior] and
    [f2 = np.sum(counts, axis=1, keepdims=True) + width * prior]: each row is
    divided by its own total. *)
Definition smoothed_rows (m : list (list Z)) (prior width_prior : f64) : mat :=
  map (fun row =>
         vdiv_scalar (vadd_scalar row prior)
                     (fadd (of_int (zsum row)) width_prior)) m.

(** [GibbsSampler.theta_topic] *)
Definition theta_topic : M G mat :=
  o <- get_self;;
  let cfg := config o in
  ret (smoothed_rows (ndk (counts o)) (alpha cfg)
         (fmul (of_int (nTopics cfg)) (alpha cfg))).

(** [GibbsSampler.phi_topic] *)
Definition phi_topic : M G mat :=
  o <- get_self;;
  let cfg := config o in
  ret (smoothed_rows (nkw (counts o)) (beta cfg)
         (fmul (of_int (Z.of_nat (VT (sizes o)))) (beta cfg))).

(** [GibbsSampler.phi_opinion] *)
Definition phi_opinion (persp : nat) : M G mat :=
  o <- get_self;;
  let cfg := config o in
  m <- lift (get (nrs (counts o)) persp);;
  ret (smoothed_rows m (beta_o cfg)
         (fmul (of_int (Z.of_nat (VO (sizes o)))) (beta_o cfg))).

End Methods.

(** ** The sampling kernel *)

Section Kernel.

Context {G : Type} `{Generator G}.

(** Modelled from the spec: the module [gibbs_inner], which [run] imports
    and whose source is not available; section 4.3 of the specification
    describes one iteration.  A topic-word token: remove the contribution of
    its current label from [ndk], [nkw], [nk]; compute the conditional; draw
    the new label; write it into [z] and add its contribution. *)
Definition sweep_topic_word (d : nat) (wi : nat * nat) : M G unit :=
  let '(w_id, i) := wi in
  o <- get_self;;
  labels <- lift (get (z (counts o)) d);;
  old <- lift (get labels i);;
  modify ndk set_ndk (upd2 Z.pred d old);;
  modify nkw set_nkw (upd2 Z.pred old w_id);;
  modify nk set_nk (upd Z.pred old);;
  p <- p_z d w_id;;
  new <- sample_from p;;
  modify z set_z (upd2 (fun _ => new) d i);;
  modify ndk set_ndk (upd2 Z.succ d new);;
  modify nkw set_nkw (upd2 Z.succ new w_id);;
  modify nk set_nk (upd Z.succ new).

(** Modelled from the spec: an opinion-word token of the opinion document
    [d_p] of perspective [persp], which is document [d] of the corpus: the
    same cycle against [nrs], [ns] and [x[persp]]. *)
Definition sweep_opinion_word (persp d d_p : nat) (wi : nat * nat)
  : M G unit :=
  let '(w_id, i) := wi in
  o <- get_self;;
  docs <- lift (get (x (counts o)) persp);;
  labels <- lift (get docs d_p);;
  old <- lift (get labels i);;
  modify nrs set_nrs (upd3 Z.pred persp old w_id);;
  modify ns set_ns (upd2 Z.pred persp old);;
  p <- p_x persp d w_id;;
  new <- sample_from p;;
  modify x set_x (upd3 (fun _ => new) persp d_p i);;
  modify nrs set_nrs (upd3 Z.succ persp new w_id);;
  modify ns set_ns (upd2 Z.succ persp new).

Definition sweep_topics (it : nat * nat * nat * Document) : M G unit :=
  let '(d, _, _, doc) := it in
  for_each (topic_words doc) (sweep_topic_word d).

Definition sweep_opinions (p : nat) (it : nat * nat * nat * Document)
  : M G unit :=
  let '(d, persp, d_p, doc) := it in
  if (persp =? p)%nat
  then for_each (opinion_words doc) (sweep_opinion_word p d d_p)
  else ret tt.

(** Modelled from the spec: one iteration of the kernel.  Every topic-word
    token of every document first; then, perspective by perspective, every
    opinion-word token of the documents of that perspective. *)
Definition gibbs_inner : M G unit :=
  o <- get_self;;
  let cfg := config o in
  let docs := documents (corpus cfg) in
  for_each docs sweep_topics;;
  for_each (seq 0 (nPerspectives cfg))
           (fun p => for_each docs (sweep_opinions p)).

End Kernel.

(** ** Running the sampler *)

Section Run.

Context {G : Type} `{Generator G}.

Fixpoint for_acc {A B} (l : list A) (acc : B) (body : A -> B -> M G B)
  : M G B :=
  match l with
  | [] => ret acc
  | a :: l' => acc' <- body a acc;; for_acc l' acc' body
  end.

(** Python's truth value of [out_dir]: [None] and the empty string are
    false. *)
Definition truthy (d : option string) : bool :=
  match d with
  | None | Some EmptyString => false
  | Some _ => true
  end.

(** [np.mean(a, axis=0)] of a stack of tables: the cell-wise sum of the
    tables divided by their number; [empty] is what it gives for a stack
    with no table (a table of [nan] of the shape of the stack). *)
Definition madd (a b : mat) : mat := zip_with (zip_with fadd) a b.

Definition mean_axis0 (empty : mat) (a : list mat) : mat :=
  match a with
  | [] => empty
  | m :: rest =>
      map (fun row => vdiv_scalar row (of_int (Z.of_nat (length a))))
          (foldl madd m rest)
  end.

Definition nan_table (r c : Z) : mat :=
  replicate (Z.to_nat r) (replicate (Z.to_nat c) NaN).

(** [DataFrame.to_csv] and [read_csv(..., index_col=0).as_matrix()] on the
    file of a parameter name and an iteration. *)
Definition to_csv (name : string) (t : nat) (v : mat) : M G unit :=
  fun w => Ok (tt, World (self w) (rng w) (<[(name, t) := v]> (files w))).

Definition read_csv (name : string) (t : nat) : M G mat :=
  fun w => match files w !! (name, t) with
           | Some v => Ok (v, w)
           | None => Raise IOError
           end.

Definition phi_opinion_name (p : nat) : string :=
  ("phi_opinion_" +:+ pretty p)%string.

(** [GibbsSampler.load_parameters], as [run] calls it: [run] has set
    [parameter_dir], and the files it wrote for one parameter hold tables of
    one shape, which [np.append] stacks.  With no iteration [data] is still
    [None], and [np.mean(None, axis=0)] raises: a scalar has no axis 0. *)
Definition load_parameters (name : string) : M G mat :=
  o <- get_self;;
  data <- for_acc (seq 0 (Z.to_nat (nIter (config o)))) None
            (fun i data =>
               ar <- read_csv name i;;
               match data with
               | None => ret (Some [ar])
               | Some a => ret (Some (a ++ [ar]))
               end);;
  match data with
  | None => lift (Raise IndexError)
  | Some a => ret (mean_axis0 [] a)
  end.

(** [GibbsSampler.to_df] *)
Definition to_df (data : mat) (vocabulary : option nat) : DataFrame :=
  match vocabulary with
  | Some (S _) => {| frame := data; by_word := true |}
  | _ => {| frame := data; by_word := false |}
  end.

(** The end of [run]: the mean tables become the attributes [topics],
    [opinions] and [document_topic_matrix]. *)
Definition publish (theta phiT : mat) (phiO : list mat) : M G unit :=
  o <- get_self;;
  ops <- lift (traverse (fun p =>
             rbind (get phiO p) (fun t => Ok (to_df t (Some (VO (sizes o))))))
           (seq 0 (nPerspectives (config o))));;
  put_self (set_outputs
              {| topics := to_df phiT (Some (VT (sizes o)));
                 opinions := ops;
                 document_topic_matrix := to_df theta None |} o).

End Run.

Section RunModes.

Context {G : Type} `{Generator G}.

Fixpoint collect {A B} (f : A -> M G B) (l : list A) : M G (list B) :=
  match l with
  | [] => ret []
  | a :: l' => b <- f a;; r <- collect f l';; ret (b :: r)
  end.

(** The body of the loop of [run] with [out_dir] unset: iteration [t]
    stores its parameter samples at index [t] of the arrays [th], [pt] and
    [po[p]]. *)
Definition keep_opinions (P t : nat) (po : list (list mat))
  : M G (list (list mat)) :=
  for_acc (seq 0 P) po
    (fun p po => v <- phi_opinion p;; lift (upd2 (fun _ => v) p t po)).

Definition keep_samples (P t : nat)
    (acc : list mat * list mat * list (list mat))
  : M G (list mat * list mat * list (list mat)) :=
  let '(th, pt, po) := acc in
  gibbs_inner;;
  v <- theta_topic;;
  th' <- lift (upd (fun _ => v) t th);;
  v <- phi_topic;;
  pt' <- lift (upd (fun _ => v) t pt);;
  po' <- keep_opinions P t po;;
  ret (th', pt', po').

(** [run] with [out_dir] unset: every parameter sample is kept in memory. *)
Definition run_in_memory : M G unit :=
  o <- get_self;;
  let cfg := config o in
  let sz := sizes o in
  let n := nIter cfg in
  let K := nTopics cfg in
  theta0 <- lift (zeros3 (Fin 0) n (Z.of_nat (DT sz)) K);;
  phiT0 <- lift (zeros3 (Fin 0) n K (Z.of_nat (VT sz)));;
  phiO0 <- lift (traverse (fun _ => zeros3 (Fin 0) n K (Z.of_nat (VO sz)))
                          (perspectives (corpus cfg)));;
  acc <- for_acc (seq 0 (Z.to_nat n)) (theta0, phiT0, phiO0)
                 (keep_samples (nPerspectives cfg));;
  let '(th, pt, po) := acc in
  let phiT := mean_axis0 (nan_table K (Z.of_nat (VT sz))) pt in
  let theta := mean_axis0 (nan_table (Z.of_nat (DT sz)) K) th in
  phiO <- lift (traverse
                  (fun p => rbind (get po p) (fun a =>
                     Ok (mean_axis0 (nan_table K (Z.of_nat (VO sz))) a)))
                  (seq 0 (nPerspectives cfg)));;
  publish theta phiT phiO.

(** The body of the loop of [run] with [out_dir] set: iteration [t] writes
    its parameter samples to the files of index [t]. *)
Definition write_opinions (P t : nat) : M G unit :=
  for_each (seq 0 P)
    (fun p => v <- phi_opinion p;; to_csv (phi_opinion_name p) t v).

Definition write_samples (P t : nat) : M G unit :=
  gibbs_inner;;
  v <- theta_topic;;
  to_csv "theta" t v;;
  v <- phi_topic;;
  to_csv "phi_topic" t v;;
  write_opinions P t.

(** [run] with [out_dir] set: every parameter sample goes to a file, and the
    files are read back at the end. *)
Definition run_persisted : M G unit :=
  o <- get_self;;
  let cfg := config o in
  for_each (seq 0 (Z.to_nat (nIter cfg))) (write_samples (nPerspectives cfg));;
  theta <- load_parameters "theta";;
  phiT <- load_parameters "phi_topic";;
  phiO <- collect (fun p => load_parameters (phi_opinion_name p))
                  (seq 0 (nPerspectives cfg));;
  publish theta phiT phiO.

(** [GibbsSampler.run] *)
Definition run : M G unit :=
  o <- get_self;;
  if truthy (out_dir (config o)) then run_persisted else run_in_memory.











End RunModes.

(** ** A concrete generator and a small corpus

    A linear congruential generator: enough to run the sampler on examples. *)

Definition lcg_step (s : Z) : Z := ((1103515245 * s + 12345) mod 2147483648)%Z.

#[export] Program Instance lcg : Generator Z := {|
  next_int lo hi s := ((lo + (lcg_step s / 65536) mod (hi - lo))%Z, lcg_step s);
  next_unit s := (((lcg_step s / 65536) mod 1000)%Z # 1000, lcg_step s)
|}.
Next Obligation.
  intros lo hi s Hlt. simpl.
  pose proof (Z.mod_pos_bound (lcg_step s / 65536) (hi - lo)). lia.
Qed.
Next Obligation.
  intros s. simpl.
  pose proof (Z.mod_pos_bound (lcg_step s / 65536) 1000 eq_refl) as Hb.
  unfold Qle, Qlt. simpl. lia.
Qed.

(** A generator that replays a list of raw draws, for the examples that need
    a chosen draw; once the list is used up every draw is 0. *)
#[export] Program Instance script : Generator (list Z) := {|
  next_int lo hi s :=
    match s with
    | [] => (lo, [])
    | r :: s' => ((lo + r mod (hi - lo))%Z, s')
    end;
  next_unit s :=
    match s with
    | [] => (0%Q, [])
    | r :: s' => ((r mod 1000)%Z # 1000, s')
    end
|}.
Next Obligation.
  intros lo hi [|r s] Hlt; simpl; [lia|].
  pose proof (Z.mod_pos_bound r (hi - lo)). lia.
Qed.
Next Obligation.
  intros [|r s]; simpl; [split; [apply Qle_refl | reflexivity]|].
  pose proof (Z.mod_pos_bound r 1000 eq_refl) as Hb.
  unfold Qle, Qlt. simpl. lia.
Qed.

(** A corpus of two perspectives with one document each, for the examples. *)
Module Example.

Definition doc0 : Document :=
  {| topic_words := [(0, 0); (1, 1); (0, 2)]%nat;
     opinion_words := [(1, 0); (0, 1)]%nat |}.

Definition doc1 : Document :=
  {| topic_words := [(1, 0)]%nat; opinion_words := [(0, 0); (1, 1)]%nat |}.

Definition corpus0 : Corpus :=
  {| perspectives :=
       [ {| topicMaxDocLength := 3; opinionLen := 1;
            opinionMaxDocLength := 2 |};
         {| topicMaxDocLength := 1; opinionLen := 1;
            opinionMaxDocLength := 2 |} ];
     topicDictionary := 2;
     opinionDictionary := 2;
     corpus_len := 2;
     documents := [(0, 0, 0, doc0); (1, 1, 0, doc1)]%nat |}.

Definition tenth : f64 := Fin (1 # 10).

(** The sampler as [__init__] leaves it, the seed, and no file. *)
Definition fresh (nIter_ : Z) (dir : option string) : world Z :=
  World (__init__ corpus0 2 tenth tenth tenth nIter_ dir) 42%Z ∅.

(** The world a computation leaves, or the one it started from when it
    raised. *)
Definition after {G A} (m : M G A) (w : world G) : world G :=
  match m w with
  | Ok (_, w') => w'
  | Raise _ => w
  end.

(** The same sampler with replayed draws. *)
Definition replay (draws : list Z) : world (list Z) :=
  World (__init__ corpus0 2 tenth tenth tenth 2 None) draws ∅.

Definition world1 : world Z := after _initialize (fresh 2 None).
Definition world2 : world Z := after gibbs_inner world1.

(** A corpus of one document in which word 1 occurs once among the topic
    words and once among the opinion words, in first position. *)
Definition corpus1 : Corpus :=
  {| perspectives :=
       [ {| topicMaxDocLength := 3; opinionLen := 1;
            opinionMaxDocLength := 3 |} ];
     topicDictionary := 2;
     opinionDictionary := 2;
     corpus_len := 1;
     documents :=
       [(0, 0, 0,
         {| topic_words := [(1, 0); (0, 1); (0, 2)];
            opinion_words := [(1, 0); (0, 1); (0, 2)] |})]%nat |}.

(** The sampler on [corpus1] with [beta = beta_o = 0] and the labels 0, 1, 0
    on both sides, the contribution of the token of word 1 being removed
    from [ndk], [nkw], [nk] and from [nrs], [ns], as the kernel does before
    it computes the conditional of that token.  No token is counted for word
    1 under any topic. *)
Definition degenerate : world (list Z) :=
  World
    {| config := {| corpus := corpus1; nTopics := 2;
                    alpha := tenth; beta := Fin 0; beta_o := Fin 0;
                    nPerspectives := 1; nIter := 1; out_dir := None |};
       sizes := {| VT := 2; VO := 2; DT := 1; DO := [1%nat];
                   maxDocLengthT := 3; maxDocLengthO := [3%nat] |};
       counts := {| z := [[0; 1; 0]%nat]; ndk := [[1; 1]%Z];
                    nkw := [[1; 0]; [1; 0]]%Z; nk := [1; 1]%Z;
                    ntd := [Fin 3];
                    x := [[[0; 1; 0]%nat]]; nrs := [[[1; 0]; [1; 0]]%Z];
                    ns := [[1; 1]%Z] |};
       outputs := None |}
    [] ∅.

(** How [degenerate] comes about: initialization with the draws 0, 1, 0 for
    the topic words and for the opinion words, then the removal of the first
    token on each side. *)
Definition remove_first_tokens : M (list Z) unit :=
  modify ndk set_ndk (upd2 Z.pred 0 0);;
  modify nkw set_nkw (upd2 Z.pred 0 1);;
  modify nk set_nk (upd Z.pred 0);;
  modify nrs set_nrs (upd3 Z.pred 0 0 1);;
  modify ns set_ns (upd2 Z.pred 0 0).

(** A corpus of one document that has two opinion words and no topic
    word; the sampler on it once [_initialize] has drawn the label 1 for
    both words. *)
Definition opinions_only : Corpus :=
  {| perspectives :=
       [ {| topicMaxDocLength := 0; opinionLen := 1;
            opinionMaxDocLength := 2 |} ];
     topicDictionary := 2;
     opinionDictionary := 2;
     corpus_len := 1;
     documents :=
       [(0, 0, 0,
         {| topic_words := []; opinion_words := [(0, 0); (1, 1)] |})]%nat |}.

Definition before_opinions : world (list Z) :=
  World (__init__ opinions_only 2 tenth tenth tenth 1 None) [1; 1]%Z ∅.

Definition no_topic_word : world (list Z) := after _initialize before_opinions.


End Example.

(** ** The predicates of the specification *)

Section Predicates.

Context {G : Type} `{Generator G}.

(** The count tables agree with each other: the row sums of [ndk] are the
    document sizes [ntd], those of [nkw] are [nk], and those of [nrs[p]] are
    [ns[p]]. *)
Definition consistent (c : Counts) : Prop :=
  Forall2 (fun n t => feq (of_int n) t) (map zsum (ndk c)) (ntd c) /\
  map zsum (nkw c) = nk c /\
  map (map zsum) (nrs c) = ns c.





(** The states that initialization followed by sampling sweeps produces. *)
Inductive reachable (w0 : world G) : world G -> Prop :=
  | reach_init u w :
      _initialize w0 = Ok (u, w) -> reachable w0 w
  | reach_sweep w u w' :
      reachable w0 w -> gibbs_inner w = Ok (u, w') -> reachable w0 w'.

(** [m] neither reads nor writes the files: it does the same with the files
    [f] as with no file, and leaves the files as they are. *)
Definition ignores_files {A} (m : M G A) : Prop :=
  forall o g f,
    match m (World o g f), m (World o g ∅) with
    | Ok (a, w1), Ok (b, w2) =>
        a = b /\ self w1 = self w2 /\ rng w1 = rng w2 /\ files w1 = f /\ files w2 = ∅
    | Raise e1, Raise e2 => e1 = e2
    | _, _ => False
    end.



End Predicates.

(** ** Valid states and the weights of the conditional distributions *)

Section Validity.

#[local] Open Scope Q_scope.

(** Every row has [width] cells, none of them negative. *)
Definition nonneg_rows (width : nat) (m : list (list Z)) : bool :=
  forallb (fun row => (length row =? width)%nat && forallb (Z.leb 0) row) m.

(** The tables have the shapes [_initialize] gives them, and hold counts. *)
Definition shaped (o : GibbsSampler) : bool :=
  let cfg := config o in
  let sz := sizes o in
  let c := counts o in
  let K := Z.to_nat (nTopics cfg) in
  (0 <? nTopics cfg)%Z
  && (length (ndk c) =? DT sz)%nat && nonneg_rows K (ndk c)
  && (length (nkw c) =? K)%nat && nonneg_rows (VT sz) (nkw c)
  && (length (nk c) =? K)%nat && forallb (Z.leb 0) (nk c)
  && (length (ntd c) =? DT sz)%nat
  && (length (nrs c) =? nPerspectives cfg)%nat
  && forallb (fun m => (length m =? K)%nat && nonneg_rows (VO sz) m) (nrs c)
  && (length (ns c) =? nPerspectives cfg)%nat && nonneg_rows K (ns c).

(** A hyperparameter that is a positive real. *)
Definition positive (a : f64) : bool :=
  match a with Fin q => (0 <? Qnum q)%Z | _ => false end.

Definition positive_priors (cfg : Config) : bool :=
  positive (alpha cfg) && positive (beta cfg) && positive (beta_o cfg).

(** The value of a finite float. *)
Definition rational (a : f64) : Q :=
  match a with Fin q => q | _ => 0 end.

(** [m[i][j]], as a rational. *)
Definition cell (m : list (list Z)) (i j : nat) : Q :=
  inject_Z (nth j (nth i m []) 0%Z).

(** The weight of topic [k] for a topic word [w_id] of document [d]:
    [(ndk[d][k] + alpha) / (sum_k' ndk[d][k'] + nTopics*alpha)] times
    [(nkw[k][w_id] + beta) / (nk[k] + beta*VT)]. *)
Definition topic_weight (o : GibbsSampler) (d w_id k : nat) : Q :=
  let cfg := config o in
  let c := counts o in
  let a := rational (alpha cfg) in
  let b := rational (beta cfg) in
  ((cell (ndk c) d k + a)
     / (inject_Z (zsum (nth d (ndk c) [])) + inject_Z (nTopics cfg) * a))
  * ((cell (nkw c) k w_id + b)
       / (inject_Z (nth k (nk c) 0%Z)
          + b * inject_Z (Z.of_nat (VT (sizes o))))).

Definition cell3 (t : list (list (list Z))) (p i j : nat) : Q :=
  cell (nth p t []) i j.

(** The weight of topic [k] for an opinion word [w_id] of document [d]
    under perspective [persp]:
    [(nrs[persp][k][w_id] + beta_o) / (ns[persp][k] + beta_o*VO)] times
    [ndk[d][k] / ntd[d]]. *)
Definition opinion_weight (o : GibbsSampler) (persp d w_id k : nat) : Q :=
  let cfg := config o in
  let c := counts o in
  let b := rational (beta_o cfg) in
  ((cell3 (nrs c) persp k w_id + b)
     / (cell (ns c) persp k + b * inject_Z (Z.of_nat (VO (sizes o)))))
  * (cell (ndk c) d k / rational (nth d (ntd c) NaN)).

(** [qs] is the normalization of the weights [weight 0 .. weight (K-1)]: it
    has [K] entries, entry [k] is a positive constant times [weight k], no
    entry is negative and the entries sum to 1. *)
Definition normalized_by (weight : nat -> Q) (K : nat) (qs : list Q) : Prop :=
  length qs = K /\
  (exists c : Q, 0 < c /\
     forall k q, qs !! k = Some q -> q == c * weight k) /\
  Forall (fun q => 0 <= q) qs /\
  qsum qs == 1.

(** The estimate [(m[i][j] + prior) / (sum_j' m[i][j'] + width*prior)]. *)
Definition smoothed (m : list (list Z)) (prior : Q) (width : Z) (i j : nat) : Q :=
  (cell m i j + prior)
  / (inject_Z (zsum (nth i m [])) + inject_Z width * prior).

(** [t] has [rows] rows of [cols] entries, entry [j] of row [i] is
    [entry i j], and every row sums to 1. *)
Definition table_of (entry : nat -> nat -> Q) (rows cols : nat)
    (t : list (list Q)) : Prop :=
  length t = rows /\
  forall i r, t !! i = Some r ->
    length r = cols /\
    (forall j q, r !! j = Some q -> q == entry i j) /\
    qsum r == 1.

(** The running totals of a list of rationals, as [np.cumsum] forms them. *)
Fixpoint qcumsum_from (acc : Q) (l : list Q) : list Q :=
  match l with
  | [] => []
  | a :: l' => (acc + a) :: qcumsum_from (acc + a) l'
  end.

Definition qcumsum (l : list Q) : list Q :=
  match l with
  | [] => []
  | a :: l' => a :: qcumsum_from a l'
  end.



(** The list does not decrease. *)
Definition sorted (c : list Q) : Prop :=
  forall i j x y, (i <= j)%nat -> c !! i = Some x -> c !! j = Some y -> x <= y.


(** [shaped], as propositions. *)
Record Shaped (o : GibbsSampler) : Prop := {
  sh_K : (0 < nTopics (config o))%Z;
  sh_ndk_len : length (ndk (counts o)) = DT (sizes o);
  sh_ndk : Forall (fun row => length row = Z.to_nat (nTopics (config o)) /\
                              Forall (fun n => (0 <= n)%Z) row) (ndk (counts o));
  sh_nkw_len : length (nkw (counts o)) = Z.to_nat (nTopics (config o));
  sh_nkw : Forall (fun row => length row = VT (sizes o) /\
                              Forall (fun n => (0 <= n)%Z) row) (nkw (counts o));
  sh_nk_len : length (nk (counts o)) = Z.to_nat (nTopics (config o));
  sh_nk : Forall (fun n => (0 <= n)%Z) (nk (counts o));
  sh_ntd_len : length (ntd (counts o)) = DT (sizes o);
  sh_nrs_len : length (nrs (counts o)) = nPerspectives (config o);
  sh_nrs : Forall (fun m => length m = Z.to_nat (nTopics (config o)) /\
             Forall (fun row => length row = VO (sizes o) /\
                                Forall (fun n => (0 <= n)%Z) row) m)
             (nrs (counts o));
  sh_ns_len : length (ns (counts o)) = nPerspectives (config o);
  sh_ns : Forall (fun row => length row = Z.to_nat (nTopics (config o)) /\
                             Forall (fun n => (0 <= n)%Z) row) (ns (counts o))
}.

End Validity.

Section Estimates.

Context {G : Type} `{Generator G}.

(** What the three estimators return in the world [w]: the tables of the
    smoothed counts of [ndk], of [nkw] and of [nrs[p]], every row of which
    sums to 1; the world is left as it was. *)
Definition estimates_are_distributions (w : world G) : Prop :=
  let o := self w in
  let K := nTopics (config o) in
  (exists theta : list (list Q),
     theta_topic w = Ok (map (map Fin) theta, w) /\
     table_of (smoothed (ndk (counts o)) (rational (alpha (config o))) K)
              (DT (sizes o)) (Z.to_nat K) theta) /\
  (exists phi : list (list Q),
     phi_topic w = Ok (map (map Fin) phi, w) /\
     table_of (smoothed (nkw (counts o)) (rational (beta (config o)))
                        (Z.of_nat (VT (sizes o))))
              (Z.to_nat K) (VT (sizes o)) phi) /\
  (forall p, (p < nPerspectives (config o))%nat ->
     exists phi : list (list Q),
       phi_opinion p w = Ok (map (map Fin) phi, w) /\
       table_of (smoothed (nth p (nrs (counts o)) [])
                          (rational (beta_o (config o)))
                          (Z.of_nat (VO (sizes o))))
                (Z.to_nat K) (VO (sizes o)) phi).

End Estimates.

(** ** The two modes of [run], step by step *)

(** What the loop of [run] in memory leaves in its arrays.  Storing [vals]
    at the indices [t], [t+1], ... of an array. *)
Fixpoint store_at {A} (t : nat) (vals : list A) (l : list A) : list A :=
  match vals with
  | [] => l
  | v :: vals' => store_at (S t) vals' (<[t := v]> l)
  end.




Section RunAnalysis.

Context {G : Type} `{Generator G}.





(** [m] changes neither the configuration nor the sizes of the sampler. *)
Definition keeps_config {A} (m : M G A) : Prop :=
  forall w a w', m w = Ok (a, w') ->
    config (self w') = config (self w) /\ sizes (self w') = sizes (self w).







End RunAnalysis.

(** ** Shapes and totals *)

(** The number of topic-word tokens and of opinion-word tokens that
    iterating the corpus yields. *)
Definition topic_tokens (c : Corpus) : nat :=
  sum_list (map (fun it => length (topic_words (snd it))) (documents c)).

Definition opinion_tokens (c : Corpus) : nat :=
  sum_list (map (fun it => length (opinion_words (snd it))) (documents c)).

(** The totals of the tables [nk] and [ns]. *)
Definition topic_total {G} (w : world G) : Z := zsum (nk (counts (self w))).
Definition opinion_total {G} (w : world G) : Z :=
  zsum (map zsum (ns (counts (self w)))).

(** What [run] leaves when it ends in the world [w'], having started in
    [w]: the three published attributes, with one table of opinions per
    perspective; a table is labelled by words and transposed exactly when
    its vocabulary is not empty; the configuration and the sizes are those
    of [w]. *)
Definition published {G} (w w' : world G) : Prop :=
  exists r : Outputs,
    outputs (self w') = Some r /\
    length (opinions r) = nPerspectives (config (self w)) /\
    by_word (topics r) = negb (VT (sizes (self w)) =? 0)%nat /\
    Forall (fun df => by_word df = negb (VO (sizes (self w)) =? 0)%nat)
           (opinions r) /\
    by_word (document_topic_matrix r) = false /\
    config (self w') = config (self w) /\
    sizes (self w') = sizes (self w).

Definition publishes {G A} (m : M G A) : Prop :=
  forall w a w', m w = Ok (a, w') -> published w w'.

(** ** Writing the results *)

(** The exceptions of the output method and of the preparation script:
    those of the sampler, and four more. *)
Inductive py_exn : Type :=
  | Exn (e : exn)
  | AttributeError
  | NameError
  | TypeError
  | KeyError.

Definition is_slash (c : ascii) : bool := Ascii.eqb c "/"%char.

Definition starts_with_slash (s : string) : bool :=
  match s with
  | String c _ => is_slash c
  | EmptyString => false
  end.

Fixpoint ends_with_slash (s : string) : bool :=
  match s with
  | EmptyString => false
  | String c EmptyString => is_slash c
  | String _ s' => ends_with_slash s'
  end.

(** No character of [s] is a slash. *)
Fixpoint no_slash (s : string) : bool :=
  match s with
  | EmptyString => true
  | String c s' => negb (is_slash c) && no_slash s'
  end.

(** [os.path.join(a, b)]: [b] alone when it is absolute; otherwise [a] and
    [b], with a slash between them unless [a] is empty or ends with one. *)
Definition path_join (a b : string) : string :=
  if starts_with_slash b then b
  else match a with
       | EmptyString => b
       | _ => if ends_with_slash a then a +:+ b else a +:+ "/" +:+ b
       end.

(** ['opinions_{}.csv'.format(p_name)] *)
Definition opinions_file (p_name : string) : string :=
  "opinions_" +:+ p_name +:+ ".csv".

(** The files of the results, by path, each with the frame written to it.
    A path is taken as it is written; the directory [out_dir] exists, as
    [__init__] leaves it. *)
Abbreviation Disk := (gmap string DataFrame).

(** The loop over the perspectives of [topics_and_opinions_to_csv]:
    [names] are the names [p.name] of [corpus.perspectives], in order, and
    [ops] is [self.opinions].  An exception ends the loop and leaves the
    files written so far. *)
Fixpoint write_opinion_files (path : string) (names : list string)
    (ops : list DataFrame) (ps : list nat) (disk : Disk)
  : Disk * option py_exn :=
  match ps with
  | [] => (disk, None)
  | p :: ps' =>
      match names !! p with
      | None => (disk, Some (Exn IndexError))
      | Some p_name =>
          match ops !! p with
          | None => (disk, Some (Exn IndexError))
          | Some df =>
              write_opinion_files path names ops ps'
                (<[path_join path (opinions_file p_name) := df]> disk)
          end
      end
  end.

(** [GibbsSampler.topics_and_opinions_to_csv]: the files after the call,
    and the exception it raised, if any.  The attributes [topics],
    [opinions] and [document_topic_matrix] exist once [run] has set them. *)
Definition topics_and_opinions_to_csv (names : list string)
    (o : GibbsSampler) (disk : Disk) : Disk * option py_exn :=
  let path :=
    match out_dir (config o) with
    | Some d => if truthy (Some d) then d else EmptyString
    | None => EmptyString
    end in
  match outputs o with
  | None => (disk, Some AttributeError)
  | Some r =>
      let disk1 := <[path_join path "topics.csv" := topics r]> disk in
      let disk2 :=
        <[path_join path "document-topic.csv" := document_topic_matrix r]>
          disk1 in
      write_opinion_files path names (opinions r)
        (seq 0 (nPerspectives (config o))) disk2
  end.

(** The directory that [topics_and_opinions_to_csv] writes to. *)
Definition results_dir (o : GibbsSampler) : string :=
  match out_dir (config o) with
  | Some d => d
  | None => EmptyString
  end.
(** The part of [path_join a b] that comes from [a], for a relative [b]. *)
Definition dir_prefix (a : string) : string :=
  match a with
  | EmptyString => EmptyString
  | _ => if ends_with_slash a then a else a +:+ "/"
  end.

(** * The preparation script [folia2cpt_input.py]

    The script reads parliamentary proceedings, one FoLiA file at a time,
    and collects per party, and for government and opposition, the nouns
    (topic words) and the verbs, adjectives and adverbs (opinion words) of
    the speeches.  The XML parser is represented by the events it yields,
    and the fuzzy string matcher by the two functions the script calls. *)

Module Folia.

(** A computation of the script: its result, or the exception that ends
    it. *)
Inductive py_result (A : Type) : Type :=
  | Done (a : A)
  | Fails (e : py_exn).

Arguments Done {A} a.
Arguments Fails {A} e.

Definition and_then {A B} (r : py_result A) (k : A -> py_result B)
  : py_result B :=
  match r with Done a => k a | Fails e => Fails e end.

(** ** The class [Perspective] *)

(** A word is the [class] attribute of a lemma element, which [attrib.get]
    gives as [None] when the attribute is missing. *)
Record Perspective : Type := {
  name : string;
  topic_words : list (option string);
  opinion_words : list (option string)
}.

(** [Perspective.__init__] *)
Definition __init__ (name_ : string) : Perspective :=
  {| name := name_; topic_words := []; opinion_words := [] |}.

(** [Perspective.__str__] *)
Definition __str__ (p : Perspective) : string :=
  "Perspective: " +:+ name p +:+ " - " +:+ pretty (length (topic_words p))
  +:+ " topic words; " +:+ pretty (length (opinion_words p))
  +:+ " opinion words".

(** [' '.join(words)]: [TypeError] when an item is [None]. *)
Fixpoint join_words (words : list (option string)) : py_result string :=
  match words with
  | [] => Done EmptyString
  | None :: _ => Fails TypeError
  | [Some w] => Done w
  | Some w :: rest => and_then (join_words rest) (fun s => Done (w +:+ " " +:+ s))
  end.

Definition newline : string := String (ascii_of_nat 10) EmptyString.

(** The directories that exist and the text files, by path. *)
Record FileSystem : Type := {
  dirs : gset string;
  texts : gmap string string
}.

(** [Perspective.write2file]: the file system after the call, and the
    exception it raised, if any.  The file is opened, and so created or
    emptied, before the first line is built. *)
Definition write2file (p : Perspective) (out_dir file_name : string)
    (fs : FileSystem) : FileSystem * option py_exn :=
  let directory := path_join out_dir (name p) in
  let dirs' := {[directory]} ∪ dirs fs in
  let out_file := path_join directory file_name in
  let put (content : string) :=
    {| dirs := dirs'; texts := <[out_file := content]> (texts fs) |} in
  match join_words (topic_words p) with
  | Fails e => (put EmptyString, Some e)
  | Done line1 =>
      match join_words (opinion_words p) with
      | Fails e => (put (line1 +:+ newline), Some e)
      | Done line2 => (put (line1 +:+ newline +:+ line2 +:+ newline), None)
      end
  end.

(** ** The constants of the script *)

Definition pos_topic_words : list string := ["N"].
Definition pos_opinion_words : list string := ["WW"; "ADJ"; "BW"].

Definition known_parties : list string :=
  ["CDA"; "D66"; "GPV"; "GroenLinks"; "OSF"; "PvdA"; "RPF"; "SGP"; "SP";
   "VVD"; "50PLUS"; "AVP"; "ChristenUnie"; "Leefbaar Nederland"; "LPF";
   "PvdD"; "PVV"].

Definition min_words : nat := 100.

(** ** The coalition in office on a date *)

(** The table [coalitions] once [sort_index] has sorted it: the start date
    of each coalition, as a day number, and the four cells of its row, a
    cell being a party name or [nan] ([None]). *)
Abbreviation Coalitions := (list (Z * list (option string))).

(** [l[i]] for a Python index, which counts from the end when negative. *)
Definition py_index {A} (l : list A) (i : Z) : py_result A :=
  let n := Z.of_nat (length l) in
  let j := if (i <? 0)%Z then (n + i)%Z else i in
  if (j <? 0)%Z then Fails (Exn IndexError)
  else match l !! Z.to_nat j with
       | Some a => Done a
       | None => Fails (Exn IndexError)
       end.

(** [[p for p in c if str(p) != 'nan']] *)
Definition named_parties (c : list (option string)) : list string :=
  omap (fun cell =>
          match cell with
          | Some s => if String.eqb s "nan" then None else Some s
          | None => None
          end) c.

(** The statements of the script at a date element, after the date is
    parsed: [i = coalitions.index.searchsorted(d)], then the row
    [coalitions.ix[coalitions.index[i-1]]] as a list, then its parties.
    With the label of several rows [ix] gives a frame, which has no
    [tolist]. *)
Definition coalition_on (coalitions : Coalitions) (d : Z)
  : py_result (list string) :=
  let index := map fst coalitions in
  let i := searchsorted (map of_int index) (of_int d) in
  and_then (py_index index (Z.of_nat i - 1)) (fun label =>
    match filter (fun row => fst row = label) coalitions with
    | [row] => Done (named_parties (snd row))
    | _ => Fails AttributeError
    end).

(** ** The events of a file *)

(** A word element: what [w.find(pos_tag)] and [w.find(lemma_tag)] give
    ([None] when there is no such child), and in each the [class]
    attribute ([None] when it is missing). *)
Record Word : Type := {
  pos : option (option string);
  lemma : option (option string)
}.

(** The elements that [iterparse] yields: a date, with the day number its
    text stands for ([None] when [strptime] refuses the text), or a speech,
    with its party attribute and its word elements. *)
Inductive Event : Type :=
  | DateEnd (day : option Z)
  | SpeechEnd (party : option string) (words : list Word).

(** The variables of the loop over the events.  [coalition_parties] is
    unbound until the first date element. *)
Record State : Type := {
  data : gmap string Perspective;
  government : Perspective;     (* go_data['g'] *)
  opposition : Perspective;     (* go_data['o'] *)
  num_speech : nat;
  num_speech_without_party : nat;
  coalition_parties : option (list string)
}.

(** The variables at the start of a file; [coalition_parties] is what the
    files before left. *)
Definition start (cp : option (list string)) : State :=
  {| data := list_to_map (map (fun party => (party, __init__ party)) known_parties);
     government := __init__ "Government";
     opposition := __init__ "Opposition";
     num_speech := 0;
     num_speech_without_party := 0;
     coalition_parties := cp |}.

(** [party.replace('/', '-')] *)
Fixpoint replace_slash (s : string) : string :=
  match s with
  | EmptyString => EmptyString
  | String c s' => String (if is_slash c then "-"%char else c) (replace_slash s')
  end.

Definition add_topic_word (l : option string) (p : Perspective) : Perspective :=
  {| name := name p; topic_words := topic_words p ++ [l];
     opinion_words := opinion_words p |}.

Definition add_opinion_word (l : option string) (p : Perspective) : Perspective :=
  {| name := name p; topic_words := topic_words p;
     opinion_words := opinion_words p ++ [l] |}.

Definition set_data (v : gmap string Perspective) (st : State) : State :=
  {| data := v; government := government st; opposition := opposition st;
     num_speech := num_speech st;
     num_speech_without_party := num_speech_without_party st;
     coalition_parties := coalition_parties st |}.

Definition on_go (g : bool) (f : Perspective -> Perspective) (st : State)
  : State :=
  {| data := data st;
     government := if g then f (government st) else government st;
     opposition := if g then opposition st else f (opposition st);
     num_speech := num_speech st;
     num_speech_without_party := num_speech_without_party st;
     coalition_parties := coalition_parties st |}.

(** [data[party].<words>.append(l)] then
    [go_data[go_perspective].<words>.append(l)] *)
Definition append_word (party : string) (g : bool)
    (f : Perspective -> Perspective) (st : State) : py_result State :=
  match data st !! party with
  | None => Fails KeyError
  | Some p => Done (on_go g f (set_data (<[party := f p]> (data st)) st))
  end.

Definition is_in (s : option string) (l : list string) : bool :=
  match s with
  | Some x => existsb (String.eqb x) l
  | None => false
  end.

(** The body of the loop over the word elements of a speech. *)
Definition add_word (party : string) (g : bool) (w : Word) (st : State)
  : py_result State :=
  match pos w with
  | None => Fails AttributeError
  | Some pos_ =>
      match lemma w with
      | None => Fails AttributeError
      | Some l =>
          and_then
            (if is_in pos_ pos_topic_words
             then append_word party g (add_topic_word l) st else Done st)
            (fun st1 =>
               if is_in pos_ pos_opinion_words
               then append_word party g (add_opinion_word l) st1 else Done st1)
      end
  end.

Fixpoint add_words (party : string) (g : bool) (ws : list Word) (st : State)
  : py_result State :=
  match ws with
  | [] => Done st
  | w :: ws' => and_then (add_word party g w st) (add_words party g ws')
  end.

Definition count_speech (st : State) : State :=
  {| data := data st; government := government st;
     opposition := opposition st; num_speech := S (num_speech st);
     num_speech_without_party := num_speech_without_party st;
     coalition_parties := coalition_parties st |}.

Definition count_without_party (st : State) : State :=
  {| data := data st; government := government st;
     opposition := opposition st; num_speech := num_speech st;
     num_speech_without_party := S (num_speech_without_party st);
     coalition_parties := coalition_parties st |}.

Definition set_coalition_parties (cp : list string) (st : State) : State :=
  {| data := data st; government := government st;
     opposition := opposition st; num_speech := num_speech st;
     num_speech_without_party := num_speech_without_party st;
     coalition_parties := Some cp |}.

Section Script.

(** [process.extractOne(query, choices)] and [fuzz.ratio(a, b)] of the
    library [fuzzywuzzy]. *)
Variable extractOne : string -> list string -> string * Z.
Variable ratio : string -> string -> Z.

(** The party a speech is filed under, and [data] with its perspective. *)
Definition resolve_party (party : string) (d : gmap string Perspective)
  : string * gmap string Perspective :=
  match d !! party with
  | Some _ => (party, d)
  | None =>
      let '(p, score1) := extractOne party known_parties in
      let score2 := ratio party p in
      if (90 <=? score1)%Z && (90 <=? score2)%Z then
        match d !! p with
        | Some _ => (p, d)
        | None => (p, <[p := __init__ p]> d)
        end
      else (party, <[party := __init__ party]> d)
  end.

(** The body of the loop over the events. *)
Definition step (coalitions : Coalitions) (ev : Event) (st : State)
  : py_result State :=
  match ev with
  | DateEnd None => Fails (Exn ValueError)
  | DateEnd (Some d) =>
      and_then (coalition_on coalitions d) (fun cp =>
        Done (set_coalition_parties cp st))
  | SpeechEnd party words =>
      let st := count_speech st in
      match party with
      | None | Some EmptyString => Done (count_without_party st)
      | Some party =>
          let party := replace_slash party in
          let '(party, d) := resolve_party party (data st) in
          let st := set_data d st in
          match coalition_parties st with
          | None => Fails NameError
          | Some cp =>
              add_words party (existsb (String.eqb party) cp) words st
          end
      end
  end.

(** The loop over the events of one file. *)
Fixpoint process (coalitions : Coalitions) (evs : list Event) (st : State)
  : py_result State :=
  match evs with
  | [] => Done st
  | ev :: evs' => and_then (step coalitions ev st) (process coalitions evs')
  end.

End Script.

(** Whether the words of a perspective go to a file: the test of the
    script before it calls [write2file]. *)
Definition enough_words (p : Perspective) : bool :=
  (min_words <=? length (topic_words p))%nat
  && (min_words <=? length (opinion_words p))%nat.

(** The number of topic words and of opinion words over the parties. *)
Definition party_topic_words (st : State) : nat :=
  map_fold (fun _ p n => (length (topic_words p) + n)%nat) 0%nat (data st).

Definition party_opinion_words (st : State) : nat :=
  map_fold (fun _ p n => (length (opinion_words p) + n)%nat) 0%nat (data st).

End Folia.

(** The start dates of the table increase strictly. *)
Definition increasing (dates : list Z) : Prop :=
  forall (i j : nat) (x y : Z),
    (i < j)%nat -> dates !! i = Some x -> dates !! j = Some y -> (x < y)%Z.

(** The number of speech events, and of those without a party. *)
Definition is_speech (ev : Folia.Event) : bool :=
  match ev with Folia.SpeechEnd _ _ => true | Folia.DateEnd _ => false end.

Definition without_party (ev : Folia.Event) : bool :=
  match ev with
  | Folia.SpeechEnd None _ | Folia.SpeechEnd (Some EmptyString) _ => true
  | _ => false
  end.

Definition count_events (f : Folia.Event -> bool) (evs : list Folia.Event) : nat :=
  length (List.filter f evs).

(** The words that the script keeps: those of the speeches with a party
    whose part of speech is among [tags]. *)
Definition kept (tags : list string) (w : Folia.Word) : bool :=
  match Folia.pos w with
  | Some p => Folia.is_in p tags
  | None => false
  end.

(** The [class] of the lemma of a word: [None] when the attribute is
    missing. *)
Definition lemma_class (w : Folia.Word) : option string :=
  match Folia.lemma w with
  | Some l => l
  | None => None
  end.

(** The lemmas that the script keeps of an event, in the order of the
    words, and of the events of a file. *)
Definition kept_lemmas (tags : list string) (ev : Folia.Event)
  : list (option string) :=
  match ev with
  | Folia.SpeechEnd (Some (String _ _)) ws =>
      map lemma_class (List.filter (kept tags) ws)
  | _ => []
  end.

Definition lemmas_in (tags : list string) (evs : list Folia.Event)
  : list (option string) :=
  flat_map (kept_lemmas tags) evs.

(** The words [sel] filed under government and opposition, and under the
    parties. *)
Definition go_words (sel : Folia.Perspective -> list (option string))
    (st : Folia.State) : list (option string) :=
  sel (Folia.government st) ++ sel (Folia.opposition st).

Definition party_words (sel : Folia.Perspective -> list (option string))
    (st : Folia.State) : list (option string) :=
  flat_map (fun kp => sel (snd kp)) (map_to_list (Folia.data st)).

(** The two kinds of words: what a perspective holds of a kind, and the
    parts of speech of the kind. *)
Definition side_words (topic : bool)
  : Folia.Perspective -> list (option string) :=
  if topic then Folia.topic_words else Folia.opinion_words.

Definition side_tags (topic : bool) : list string :=
  if topic then Folia.pos_topic_words else Folia.pos_opinion_words.

(** The variables of the loop obey the bookkeeping of the script: as many
    topic words, and as many opinion words, are filed under the parties as
    under government and opposition together. *)
Definition balanced (st : Folia.State) : Prop :=
  Folia.party_topic_words st
  = (length (Folia.topic_words (Folia.government st))
     + length (Folia.topic_words (Folia.opposition st)))%nat /\
  Folia.party_opinion_words st
  = (length (Folia.opinion_words (Folia.government st))
     + length (Folia.opinion_words (Folia.opposition st)))%nat.

(** Every perspective of the dictionary is filed under its own name, which
    holds no slash, and every known party has one. *)
Definition named (d : gmap string Folia.Perspective) : Prop :=
  (forall (k : string) (p : Folia.Perspective),
     d !! k = Some p -> Folia.name p = k /\ no_slash k = true) /\
  (forall k : string, k ∈ Folia.known_parties -> is_Some (d !! k)).

Definition well_named (st : Folia.State) : Prop := named (Folia.data st).

(** A small run of the script, for the examples: a matcher that proposes
    the first choice with score 0, one coalition, and a file with a date
    and two speeches. *)
Module FoliaExample.

Definition extractOne (query : string) (choices : list string) : string * Z :=
  (hd query choices, 0%Z).

Definition ratio (a b : string) : Z := 0%Z.

Definition coalitions : Folia.Coalitions :=
  [(10%Z, [Some "CDA"; Some "VVD"; None; None]);
   (20%Z, [Some "PvdA"; Some "nan"; None; None])].

Definition word (pos_ lemma_ : string) : Folia.Word :=
  {| Folia.pos := Some (Some pos_); Folia.lemma := Some (Some lemma_) |}.

Definition events : list Folia.Event :=
  [Folia.DateEnd (Some 20%Z);
   Folia.SpeechEnd (Some "CDA")
     [word "N" "huis"; word "WW" "lopen"; word "LID" "de"];
   Folia.SpeechEnd (Some "Groep/Lid") [word "N" "wet"];
   Folia.SpeechEnd None [word "N" "zaal"]].

(** The variables when the loop has ended, or as they were at the start
    when it raised. *)
Definition finish (evs : list Folia.Event) (cp : option (list string))
  : Folia.State :=
  match Folia.process extractOne ratio coalitions evs (Folia.start cp) with
  | Folia.Done st => st
  | Folia.Fails _ => Folia.start cp
  end.

End FoliaExample.

(** Every label of the assignment arrays [z] and [x] is a topic: a number
    below [K]. *)
Definition labels_below (K : nat) (c : Counts) : Prop :=
  Forall (Forall (fun k => (k < K)%nat)) (z c) /\
  Forall (Forall (Forall (fun k => (k < K)%nat))) (x c).

(** ** What [run] keeps *)

(** Every successful execution of [m] relates the world it starts in to the
    world it ends in by [R]. *)
Definition preserves {G A} (R : world G -> world G -> Prop) (m : M G A)
  : Prop :=
  forall w a w', m w = Ok (a, w') -> R w w'.

(** The names of the parameters whose samples [run] writes. *)
Definition written (name : string) : Prop :=
  name = "theta"%string \/ name = "phi_topic"%string \/
  exists p : nat, name = phi_opinion_name p.

(** The files of [w'] are those of [w]. *)
Definition same_files {G} (w w' : world G) : Prop := files w' = files w.

(** The files of [w'] that are no parameter samples are as in [w]. *)
Definition other_files {G} (w w' : world G) : Prop :=
  forall (name : string) (t : nat),
    ~ written name -> files w' !! (name, t) = files w !! (name, t).

(** If the count tables of [w] are consistent, so are those of [w']. *)
Definition stays_consistent {G} `{Generator G} (w w' : world G) : Prop :=
  consistent (counts (self w)) -> consistent (counts (self w')).

(** ** The tokens of the corpus and their labels *)

(** A topic-word token: word [tword] at position [tpos] of document
    [tdoc]; its label is the cell [z[tdoc, tpos]]. *)
Record TopicToken : Type := {
  tdoc : nat;
  tword : nat;
  tpos : nat
}.

(** An opinion-word token: word [oword] at position [opos] of the opinion
    document [odoc] of perspective [opersp]; its label is the cell
    [x[opersp][odoc, opos]]. *)
Record OpinionToken : Type := {
  opersp : nat;
  odoc : nat;
  oword : nat;
  opos : nat
}.

(** The tokens that iterating the corpus yields, in the order of the
    iteration. *)
Definition topic_tokens_at (d : nat) (ws : list (nat * nat))
  : list TopicToken :=
  map (fun wi : nat * nat => {| tdoc := d; tword := fst wi; tpos := snd wi |})
      ws.

Definition opinion_tokens_at (persp d_p : nat) (ws : list (nat * nat))
  : list OpinionToken :=
  map (fun wi : nat * nat =>
         {| opersp := persp; odoc := d_p; oword := fst wi; opos := snd wi |})
      ws.

Definition topic_tokens_of (it : nat * nat * nat * Document)
  : list TopicToken :=
  let '(d, _, _, doc) := it in topic_tokens_at d (topic_words doc).

Definition opinion_tokens_of (it : nat * nat * nat * Document)
  : list OpinionToken :=
  let '(_, persp, d_p, doc) := it in
  opinion_tokens_at persp d_p (opinion_words doc).

Definition topic_token_list (c : Corpus) : list TopicToken :=
  flat_map topic_tokens_of (documents c).

Definition opinion_token_list (c : Corpus) : list OpinionToken :=
  flat_map opinion_tokens_of (documents c).

(** The cell of the assignment array that holds the label of a token. *)
Definition topic_cell (t : TopicToken) : nat * nat := (tdoc t, tpos t).

Definition opinion_cell (t : OpinionToken) : nat * nat * nat :=
  (opersp t, odoc t, opos t).

(** Iterating the corpus yields every position of every document once: no
    two tokens share a cell of [z], or of [x]. *)
Definition distinct_positions (c : Corpus) : Prop :=
  NoDup (map topic_cell (topic_token_list c)) /\
  NoDup (map opinion_cell (opinion_token_list c)).

(** The label of a token in the assignment arrays. *)
Definition topic_label (zs : list (list nat)) (t : TopicToken) : nat :=
  nth (tpos t) (nth (tdoc t) zs []) 0%nat.

Definition opinion_label (xs : list (list (list nat))) (t : OpinionToken)
  : nat :=
  nth (opos t) (nth (odoc t) (nth (opersp t) xs []) []) 0%nat.

(** The number of the members of [l] that satisfy [f]. *)
Definition count_of {A} (f : A -> bool) (l : list A) : Z :=
  Z.of_nat (length (List.filter f l)).

(** The cells of the count tables; a cell that a table does not have counts
    for 0. *)
Definition entry1 (l : list Z) (k : nat) : Z := nth k l 0%Z.
Definition entry2 (m : list (list Z)) (i j : nat) : Z :=
  nth j (nth i m []) 0%Z.
Definition entry3 (t : list (list (list Z))) (p i j : nat) : Z :=
  nth j (nth i (nth p t []) []) 0%Z.

(** The count tables are the aggregates of the assignment arrays over the
    tokens [T] and [O]: [ndk[d][k]] is the number of topic-word tokens of
    document [d] labelled [k], [nkw[k][v]] the number of topic-word tokens
    of word [v] labelled [k], [nk[k]] the number of topic-word tokens
    labelled [k], [ntd[d]] the number of topic-word tokens of document [d],
    [nrs[p][k][v]] the number of opinion-word tokens of perspective [p] and
    word [v] labelled [k], and [ns[p][k]] the number of opinion-word tokens
    of perspective [p] labelled [k]. *)
Definition aggregates_of (T : list TopicToken) (O : list OpinionToken)
    (s : Counts) : Prop :=
  (forall d k,
     entry2 (ndk s) d k
     = count_of (fun t => (tdoc t =? d)%nat
                          && (topic_label (z s) t =? k)%nat) T) /\
  (forall k v,
     entry2 (nkw s) k v
     = count_of (fun t => (topic_label (z s) t =? k)%nat
                          && (tword t =? v)%nat) T) /\
  (forall k,
     entry1 (nk s) k = count_of (fun t => (topic_label (z s) t =? k)%nat) T) /\
  (forall d,
     feq (nth d (ntd s) (Fin 0))
         (of_int (count_of (fun t => (tdoc t =? d)%nat) T))) /\
  (forall p k v,
     entry3 (nrs s) p k v
     = count_of (fun t => (opersp t =? p)%nat
                          && (opinion_label (x s) t =? k)%nat
                          && (oword t =? v)%nat) O) /\
  (forall p k,
     entry2 (ns s) p k
     = count_of (fun t => (opersp t =? p)%nat
                          && (opinion_label (x s) t =? k)%nat) O).

Definition aggregates (c : Corpus) (s : Counts) : Prop :=
  aggregates_of (topic_token_list c) (opinion_token_list c) s.

(** * Properties *)

(** ** Reasoning about computations *)

Section MonadLemmas.

Context {G : Type} `{Generator G}.

Lemma bind_Ok {A B} (m : M G A) (k : A -> M G B) w r :
  bind m k w = Ok r ->
  exists a w', m w = Ok (a, w') /\ k a w' = Ok r.
Proof.
  unfold bind. destruct (m w) as [[a w']|e]; [eauto | discriminate].
Qed.


Lemma bind_step {A B} (m : M G A) (k : A -> M G B) w a w' :
  m w = Ok (a, w') -> bind m k w = k a w'.
Proof. unfold bind. intros ->. reflexivity. Qed.

Lemma lift_Ok {A} (r : result A) (w : world G) a w' :
  lift r w = Ok (a, w') -> r = Ok a /\ w' = w.
Proof. unfold lift. destruct r; intros [=]; subst; auto. Qed.

Lemma ret_Ok {A} (a b : A) (w w' : world G) :
  ret a w = Ok (b, w') -> b = a /\ w' = w.
Proof. intros [=]; auto. Qed.

Lemma get_self_Ok (w : world G) o w' :
  get_self w = Ok (o, w') -> o = self w /\ w' = w.
Proof. intros [=]; auto. Qed.

Lemma modify_Ok {A} (rd : Counts -> A) wr f (w : world G) u w' :
  modify rd wr f w = Ok (u, w') ->
  exists v, f (rd (counts (self w))) = Ok v /\
            w' = World (set_counts (wr v (counts (self w))) (self w))
                       (rng w) (files w).
Proof.
  unfold modify. intros Hb.
  apply bind_Ok in Hb as (o & w1 & Ho & Hb). apply get_self_Ok in Ho as [-> ->].
  apply bind_Ok in Hb as (v & w2 & Hv & Hb). apply lift_Ok in Hv as [Hv ->].
  injection Hb as _ <-. eauto.
Qed.

Lemma randint_Ok lo hi (w : world G) k w' :
  randint lo hi w = Ok (k, w') ->
  (lo < hi)%Z /\ (lo <= fst (next_int lo hi (rng w)) < hi)%Z /\
  k = Z.to_nat (fst (next_int lo hi (rng w))) /\
  self w' = self w /\ files w' = files w.
Proof.
  unfold randint. destruct (Z.ltb_spec lo hi) as [Hlt|]; [|discriminate].
  pose proof (next_int_range lo hi (rng w) Hlt) as Hr.
  destruct (next_int lo hi (rng w)) as [v g]. intros [= <- <-]. auto.
Qed.

Lemma rand_Ok (w : world G) u w' :
  rand w = Ok (u, w') ->
  exists q, u = Fin q /\ (0 <= q)%Q /\ (q < 1)%Q /\
            self w' = self w /\ files w' = files w.
Proof.
  unfold rand. pose proof (next_unit_range (rng w)) as [H0 H1].
  destruct (next_unit (rng w)) as [q g]. intros [= <- <-]. eauto 6.
Qed.

(** A loop keeps what each round keeps. *)
Lemma for_each_invariant {A} (P : world G -> Prop) (body : A -> M G unit) l :
  (forall a w u w', In a l -> P w -> body a w = Ok (u, w') -> P w') ->
  forall w u w', P w -> for_each l body w = Ok (u, w') -> P w'.
Proof.
  induction l as [|a l IH]; intros Hbody w u w' HP Hrun; simpl in Hrun.
  - apply ret_Ok in Hrun as [_ ->]. exact HP.
  - apply bind_Ok in Hrun as (u1 & w1 & H1 & Hrun).
    eapply IH; [| |exact Hrun].
    + intros; eapply Hbody; eauto. now right.
    + eapply Hbody; eauto. now left.
Qed.

End MonadLemmas.

(** Takes a successful run apart, statement by statement. *)
Ltac run_inv H :=
  repeat match type of H with
  | bind get_self _ _ = Ok _ =>
      let o := fresh "o" in let w := fresh "w" in let Ho := fresh "Ho" in
      apply bind_Ok in H as (o & w & Ho & H);
      apply get_self_Ok in Ho as [-> ->]
  | bind (lift _) _ _ = Ok _ =>
      let a := fresh "a" in let w := fresh "w" in let Ha := fresh "Hlift" in
      apply bind_Ok in H as (a & w & Ha & H);
      apply lift_Ok in Ha as [Ha ->]
  | bind (modify _ _ _) _ _ = Ok _ =>
      let u := fresh "u" in let w := fresh "w" in let Hm := fresh "Hmod" in
      let v := fresh "v" in
      apply bind_Ok in H as (u & w & Hm & H);
      apply modify_Ok in Hm as (v & Hm & ->)
  | bind _ _ _ = Ok _ =>
      let a := fresh "a" in let w := fresh "w" in let Ha := fresh "Hstep" in
      apply bind_Ok in H as (a & w & Ha & H)
  | modify _ _ _ _ = Ok _ =>
      let v := fresh "v" in let Hm := fresh "Hmod" in
      apply modify_Ok in H as (v & Hm & H)
  | ret _ _ = Ok _ => apply ret_Ok in H as [? H]
  end.

(** ** Arrays: what an update in place does to the sums *)

Section ArrayLemmas.

Lemma get_Ok {A} (l : list A) i a : get l i = Ok a <-> l !! i = Some a.
Proof. unfold get. destruct (l !! i); split; congruence. Qed.

Lemma upd_Ok {A} (f : A -> A) i l l' :
  upd f i l = Ok l' -> l' = alter f i l /\ (i < length l)%nat.
Proof.
  unfold upd. destruct (l !! i) as [a|] eqn:Hi; [|discriminate].
  intros [= <-]. split; [|eapply lookup_lt_Some; eauto].
  rewrite list_insert_alter. apply list_eq. intros j.
  rewrite !list_lookup_alter. destruct (decide (i = j)) as [<-|]; [|done].
  now rewrite Hi.
Qed.

Lemma upd2_Ok {A} (f : A -> A) i j (m m' : list (list A)) :
  upd2 f i j m = Ok m' ->
  m' = alter (alter f j) i m /\
  exists row, m !! i = Some row /\ (j < length row)%nat.
Proof.
  unfold upd2, rbind. destruct (get m i) as [row|] eqn:Hrow; [|discriminate].
  apply get_Ok in Hrow.
  destruct (upd f j row) as [row'|] eqn:Hupd; [|discriminate].
  apply upd_Ok in Hupd as [-> Hj]. intros [= <-]. split; [|eauto].
  rewrite list_insert_alter. apply list_eq. intros k.
  rewrite !list_lookup_alter. destruct (decide (i = k)) as [<-|]; [|done].
  now rewrite Hrow.
Qed.

Lemma upd3_Ok {A} (f : A -> A) p i j (t t' : list (list (list A))) :
  upd3 f p i j t = Ok t' ->
  t' = alter (alter (alter f j) i) p t /\
  exists m row, t !! p = Some m /\ m !! i = Some row /\ (j < length row)%nat.
Proof.
  unfold upd3, rbind. destruct (get t p) as [m|] eqn:Hm; [|discriminate].
  apply get_Ok in Hm.
  destruct (upd2 f i j m) as [m'|] eqn:Hupd; [|discriminate].
  apply upd2_Ok in Hupd as [-> (row & Hrow & Hj)]. intros [= <-].
  split; [|eauto].
  rewrite list_insert_alter. apply list_eq. intros k.
  rewrite !list_lookup_alter. destruct (decide (p = k)) as [<-|]; [|done].
  now rewrite Hm.
Qed.

Lemma zsum_cons a l : zsum (a :: l) = (a + zsum l)%Z.
Proof. reflexivity. Qed.

Lemma zsum_alter (f : Z -> Z) (delta : Z) i l :
  (forall a, f a = (a + delta)%Z) -> (i < length l)%nat ->
  zsum (alter f i l) = (zsum l + delta)%Z.
Proof.
  intros Hf. revert i. induction l as [|a l IH]; intros [|i] Hi;
    cbn [length] in Hi; try lia.
  - change (alter f 0%nat (a :: l)) with (f a :: l).
    rewrite !zsum_cons, Hf. lia.
  - change (alter f (S i) (a :: l)) with (a :: alter f i l).
    rewrite !zsum_cons, IH by lia. lia.
Qed.

(** Changing one cell of a matrix by [delta] changes the sum of its row by
    [delta], and no other row sum. *)
Lemma rowsums_alter (f : Z -> Z) (delta : Z) i j (m : list (list Z)) row :
  (forall a, f a = (a + delta)%Z) ->
  m !! i = Some row -> (j < length row)%nat ->
  map zsum (alter (alter f j) i m) =
  alter (fun s => (s + delta)%Z) i (map zsum m).
Proof.
  intros Hf. revert i. induction m as [|r m IH]; intros [|i] Hi Hj;
    simpl in *; try discriminate.
  - injection Hi as ->. f_equal. now apply zsum_alter.
  - f_equal. now apply IH.
Qed.

Lemma tablesums_alter (f : Z -> Z) (delta : Z) p i j
    (t : list (list (list Z))) m row :
  (forall a, f a = (a + delta)%Z) ->
  t !! p = Some m -> m !! i = Some row -> (j < length row)%nat ->
  map (map zsum) (alter (alter (alter f j) i) p t) =
  alter (alter (fun s => (s + delta)%Z) i) p (map (map zsum) t).
Proof.
  intros Hf. revert p. induction t as [|a t IH]; intros [|p] Hp Hi Hj;
    simpl in *; try discriminate.
  - injection Hp as ->. f_equal. eapply rowsums_alter; eauto.
  - f_equal. now apply IH.
Qed.

Lemma alter_ext_eq {A} (f g : A -> A) i (l : list A) :
  (forall a, f a = g a) -> alter f i l = alter g i l.
Proof.
  intros Hfg. apply list_eq. intros k. rewrite !list_lookup_alter.
  destruct (decide (i = k)); [|done]. destruct (l !! i); simpl; [|done].
  now rewrite Hfg.
Qed.

Lemma succ_plus a : Z.succ a = (a + 1)%Z.
Proof. lia. Qed.

Lemma pred_plus a : Z.pred a = (a + -1)%Z.
Proof. lia. Qed.

End ArrayLemmas.

Ltac proj_simpl :=
  cbn [self rng files counts config sizes outputs set_counts set_sizes
       set_outputs set_z set_ndk set_nkw set_nk set_ntd set_x set_nrs set_ns
       z ndk nkw nk ntd x nrs ns] in *.

(** ** The count tables stay consistent *)

Section Consistency.
Context {G : Type} `{Generator G}.

Lemma p_z_weights_frame d w_id (w : world G) v w' :
  p_z_weights d w_id w = Ok (v, w') -> w' = w.
Proof.
  unfold p_z_weights. intros Hrun. run_inv Hrun.
  apply lift_Ok in Hrun as [_ ->]. reflexivity.
Qed.

Lemma p_z_frame d w_id (w : world G) v w' :
  p_z d w_id w = Ok (v, w') -> w' = w.
Proof.
  unfold p_z. intros Hrun. run_inv Hrun. subst.
  eapply p_z_weights_frame; eauto.
Qed.

Lemma p_x_weights_frame persp d w_id (w : world G) v w' :
  p_x_weights persp d w_id w = Ok (v, w') -> w' = w.
Proof.
  unfold p_x_weights. intros Hrun. run_inv Hrun.
  apply lift_Ok in Hrun as [_ ->]. reflexivity.
Qed.

Lemma p_x_frame persp d w_id (w : world G) v w' :
  p_x persp d w_id w = Ok (v, w') -> w' = w.
Proof.
  unfold p_x. intros Hrun. run_inv Hrun. subst.
  eapply p_x_weights_frame; eauto.
Qed.

Lemma sample_from_frame p (w : world G) k w' :
  sample_from p w = Ok (k, w') -> self w' = self w /\ files w' = files w.
Proof.
  unfold sample_from. intros Hrun. run_inv Hrun.
  apply rand_Ok in Hstep as (q & -> & _ & _ & Hs & Hf). now subst.
Qed.

Lemma feq_succ n t : feq (of_int n) t -> feq (of_int (n + 1)) (fadd t (Fin 1)).
Proof.
  destruct t as [q| |]; simpl; try tauto. intros Hq.
  rewrite inject_Z_plus, Hq. reflexivity.
Qed.

Lemma init_topic_word_consistent d wi (w : world G) u w' :
  consistent (counts (self w)) ->
  init_topic_word d wi w = Ok (u, w') ->
  consistent (counts (self w')).
Proof.
  intros (Hd & Hk & Hs) Hrun. destruct wi as [w_id i].
  unfold init_topic_word in Hrun. run_inv Hrun.
  apply randint_Ok in Hstep as (_ & _ & _ & Hself & _).
  subst w'. cbn in *. rewrite Hself in *.
  apply upd2_Ok in Hmod0 as [-> (row & Hrow & Hj)].
  apply upd2_Ok in Hmod1 as [-> (row1 & Hrow1 & Hj1)].
  apply upd_Ok in Hmod2 as [-> _].
  apply upd_Ok in Hmod3 as [-> _].
  repeat split; cbn.
  - erewrite rowsums_alter by eauto using succ_plus.
    apply Forall2_alter; [exact Hd|]. intros n t _ _. apply feq_succ.
  - erewrite rowsums_alter by eauto using succ_plus.
    rewrite Hk. apply alter_ext_eq. intros; lia.
  - exact Hs.
Qed.

Lemma init_opinion_word_consistent persp d_p wi (w : world G) u w' :
  consistent (counts (self w)) ->
  init_opinion_word persp d_p wi w = Ok (u, w') ->
  consistent (counts (self w')).
Proof.
  intros (Hd & Hk & Hs) Hrun. destruct wi as [w_id i].
  unfold init_opinion_word in Hrun. run_inv Hrun.
  apply randint_Ok in Hstep as (_ & _ & _ & Hself & _).
  subst w'. cbn in *. rewrite Hself in *.
  apply upd3_Ok in Hmod0 as [-> (m & row & Hm & Hrow & Hj)].
  apply upd2_Ok in Hmod1 as [-> _].
  repeat split; cbn; [exact Hd | exact Hk |].
  erewrite tablesums_alter by eauto using succ_plus.
  rewrite Hs. apply alter_ext_eq. intros r. apply alter_ext_eq. intros; lia.
Qed.

Lemma init_document_consistent it (w : world G) u w' :
  consistent (counts (self w)) ->
  init_document it w = Ok (u, w') ->
  consistent (counts (self w')).
Proof.
  destruct it as [[[d persp] d_p] doc]. intros Hc Hrun.
  unfold init_document in Hrun. run_inv Hrun.
  eapply (for_each_invariant (fun w => consistent (counts (self w))));
    [| |exact Hrun].
  - intros; eapply init_opinion_word_consistent; eauto.
  - eapply (for_each_invariant (fun w => consistent (counts (self w))));
      [| exact Hc | exact Hstep].
    intros; eapply init_topic_word_consistent; eauto.
Qed.

Lemma zeros_Ok {A} (a : A) n l : zeros a n = Ok l -> l = replicate (Z.to_nat n) a /\ (0 <= n)%Z.
Proof. unfold zeros. destruct (Z.ltb_spec n 0); [discriminate|]. intros [= <-]. auto. Qed.

Lemma zeros2_Ok {A} (a : A) r c m :
  zeros2 a r c = Ok m -> m = replicate (Z.to_nat r) (replicate (Z.to_nat c) a) /\ (0 <= r)%Z /\ (0 <= c)%Z.
Proof.
  unfold zeros2, rbind. destruct (zeros a c) as [row|] eqn:Hrow; [|discriminate].
  apply zeros_Ok in Hrow as [-> ?]. intros Hm. apply zeros_Ok in Hm as [-> ?]. auto.
Qed.

Lemma zeros3_Ok {A} (a : A) p r c t :
  zeros3 a p r c = Ok t ->
  t = replicate (Z.to_nat p) (replicate (Z.to_nat r) (replicate (Z.to_nat c) a)) /\ (0 <= p)%Z /\ (0 <= r)%Z /\ (0 <= c)%Z.
Proof.
  unfold zeros3, rbind. destruct (zeros2 a r c) as [m|] eqn:Hm; [|discriminate].
  apply zeros2_Ok in Hm as (-> & ? & ?). intros Ht. apply zeros_Ok in Ht as [-> ?]. auto.
Qed.

Lemma map_replicate {A B} (f : A -> B) n a : map f (replicate n a) = replicate n (f a).
Proof. induction n; simpl; congruence. Qed.

Lemma zsum_replicate n : zsum (replicate n 0%Z) = 0%Z.
Proof. induction n; simpl; auto. Qed.

Lemma _initialize_consistent (w : world G) u w' :
  _initialize w = Ok (u, w') -> consistent (counts (self w')).
Proof.
  unfold _initialize. intros Hrun. run_inv Hrun.
  eapply (for_each_invariant (fun w => consistent (counts (self w))));
    [| |exact Hrun].
  - intros; eapply init_document_consistent; eauto.
  - injection Hstep as _ <-. cbn.
    apply zeros2_Ok in Hlift0 as (-> & _ & _).
    apply zeros2_Ok in Hlift1 as (-> & _ & _).
    apply zeros_Ok in Hlift2 as (-> & _).
    apply zeros3_Ok in Hlift4 as (-> & _ & _ & _).
    apply zeros2_Ok in Hlift5 as (-> & _ & _).
    repeat split; cbn; rewrite ?map_replicate, ?zsum_replicate, ?Nat2Z.id; auto.
    apply Forall2_replicate. reflexivity.
Qed.

Lemma alter_undo (i : nat) (l : list Z) :
  alter (fun s => (s + 1)%Z) i (alter (fun s => (s + -1)%Z) i l) = l.
Proof. rewrite list_alter_alter_eq. apply list_alter_id. intros; simpl; lia. Qed.

Lemma sweep_topic_word_consistent d wi (w : world G) u w' :
  consistent (counts (self w)) ->
  sweep_topic_word d wi w = Ok (u, w') ->
  consistent (counts (self w')).
Proof.
  intros (Hd & Hk & Hs) Hrun. destruct wi as [w_id i].
  unfold sweep_topic_word in Hrun. run_inv Hrun. proj_simpl.
  apply p_z_frame in Hstep as ->.
  apply sample_from_frame in Hstep0 as [Hself _].
  subst w'. proj_simpl. rewrite Hself in *. proj_simpl.
  apply upd2_Ok in Hmod as [-> (r1 & Hr1 & Hj1)].
  apply upd2_Ok in Hmod0 as [-> (r2 & Hr2 & Hj2)].
  apply upd_Ok in Hmod1 as [-> _].
  apply upd2_Ok in Hmod3 as [-> (r3 & Hr3 & Hj3)].
  apply upd2_Ok in Hmod4 as [-> (r4 & Hr4 & Hj4)].
  apply upd_Ok in Hmod5 as [-> _].
  repeat split; proj_simpl; [| |exact Hs].
  - erewrite rowsums_alter by eauto using succ_plus.
    erewrite rowsums_alter by eauto using pred_plus.
    now rewrite alter_undo.
  - erewrite rowsums_alter by eauto using succ_plus.
    erewrite rowsums_alter by eauto using pred_plus.
    rewrite Hk.
    rewrite (alter_ext_eq (fun s => (s + 1)%Z) Z.succ) by (intros; lia).
    rewrite (alter_ext_eq (fun s => (s + -1)%Z) Z.pred) by (intros; lia).
    reflexivity.
Qed.

Lemma sweep_opinion_word_consistent persp d d_p wi (w : world G) u w' :
  consistent (counts (self w)) ->
  sweep_opinion_word persp d d_p wi w = Ok (u, w') ->
  consistent (counts (self w')).
Proof.
  intros (Hd & Hk & Hs) Hrun. destruct wi as [w_id i].
  unfold sweep_opinion_word in Hrun. run_inv Hrun. proj_simpl.
  apply p_x_frame in Hstep as ->.
  apply sample_from_frame in Hstep0 as [Hself _].
  subst w'. proj_simpl. rewrite Hself in *. proj_simpl.
  apply upd3_Ok in Hmod as [-> (m1 & r1 & Hm1 & Hr1 & Hj1)].
  apply upd2_Ok in Hmod0 as [-> _].
  apply upd3_Ok in Hmod2 as [-> (m2 & r2 & Hm2 & Hr2 & Hj2)].
  apply upd2_Ok in Hmod3 as [-> _].
  repeat split; proj_simpl; [exact Hd | exact Hk |].
  erewrite tablesums_alter by eauto using succ_plus.
  erewrite tablesums_alter by eauto using pred_plus.
  rewrite Hs.
  rewrite (alter_ext_eq (alter (fun s => (s + 1)%Z) _) (alter Z.succ _))
    by (intros; apply alter_ext_eq; intros; lia).
  rewrite (alter_ext_eq (alter (fun s => (s + -1)%Z) _) (alter Z.pred _))
    by (intros; apply alter_ext_eq; intros; lia).
  reflexivity.
Qed.

Lemma gibbs_inner_consistent (w : world G) u w' :
  consistent (counts (self w)) ->
  gibbs_inner w = Ok (u, w') ->
  consistent (counts (self w')).
Proof.
  intros Hc Hrun. unfold gibbs_inner in Hrun. run_inv Hrun.
  set (P := fun w : world G => consistent (counts (self w))).
  eapply (for_each_invariant P); [| |exact Hrun].
  - intros p w1 u1 w2 _ HP Hp.
    eapply (for_each_invariant P); [|exact HP|exact Hp].
    intros [[[d persp] d_p] doc] w3 u3 w4 _ HP3 Hrun3.
    unfold sweep_opinions in Hrun3. destruct (persp =? p)%nat.
    + eapply (for_each_invariant P); [|exact HP3|exact Hrun3].
      intros; eapply sweep_opinion_word_consistent; eauto.
    + apply ret_Ok in Hrun3 as [_ ->]. exact HP3.
  - eapply (for_each_invariant P); [|exact Hc|exact Hstep].
    intros [[[d persp] d_p] doc] w3 u3 w4 _ HP3 Hrun3.
    unfold sweep_topics in Hrun3.
    eapply (for_each_invariant P); [|exact HP3|exact Hrun3].
    intros; eapply sweep_topic_word_consistent; eauto.
Qed.
End Consistency.

(** ** Finite vectors *)

Section FiniteVectors.

#[local] Open Scope Q_scope.

Lemma map_fmap {A B} (f : A -> B) l : map f l = f <$> l.
Proof. reflexivity. Qed.

Lemma Qzero_false q : ~ q == 0 -> Qzero q = false.
Proof.
  unfold Qzero, Qeq. simpl. intros Hq. apply Z.eqb_neq. lia.
Qed.

Lemma Qzero_true q : q == 0 -> Qzero q = true.
Proof. unfold Qzero, Qeq. simpl. intros Hq. apply Z.eqb_eq. lia. Qed.

Lemma fsum_Fin l : fsum (map Fin l) = Fin (qsum l).
Proof.
  induction l as [|a l IH]; [reflexivity|].
  change (fsum (map Fin (a :: l))) with (fadd (Fin a) (fsum (map Fin l))).
  now rewrite IH.
Qed.

Lemma vadd_scalar_Fin row a :
  vadd_scalar row (Fin a) = map Fin (map (fun n => inject_Z n + a) row).
Proof. unfold vadd_scalar. rewrite map_map. reflexivity. Qed.

Lemma vdiv_scalar_Fin l s :
  ~ s == 0 -> vdiv_scalar (map Fin l) (Fin s) = map Fin (map (fun x => x / s) l).
Proof.
  intros Hs. unfold vdiv_scalar. rewrite !map_map. apply map_ext. intros x.
  simpl. now rewrite Qzero_false.
Qed.

Lemma zip_with_Fin_div u v :
  Forall (fun y => ~ y == 0) v ->
  zip_with fdiv (map Fin u) (map Fin v) = map Fin (zip_with Qdiv u v).
Proof.
  intros Hv. revert u. induction Hv as [|y v Hy Hv IH]; intros [|x u]; simpl; auto.
  rewrite IH. now rewrite Qzero_false.
Qed.

Lemma zip_with_Fin_mul u v :
  zip_with fmul (map Fin u) (map Fin v) = map Fin (zip_with Qmult u v).
Proof. revert v. induction u as [|x u IH]; intros [|y v]; simpl; auto. now rewrite IH. Qed.

Lemma vdiv_Fin u v :
  length u = length v -> Forall (fun y => ~ y == 0) v ->
  vdiv (map Fin u) (map Fin v) = Ok (map Fin (zip_with Qdiv u v)).
Proof.
  intros Hl Hv. unfold vdiv, broadcast. rewrite !length_map, Hl, Nat.eqb_refl.
  now rewrite zip_with_Fin_div.
Qed.

Lemma vmul_Fin u v :
  length u = length v ->
  vmul (map Fin u) (map Fin v) = Ok (map Fin (zip_with Qmult u v)).
Proof.
  intros Hl. unfold vmul, broadcast. rewrite !length_map, Hl, Nat.eqb_refl.
  now rewrite zip_with_Fin_mul.
Qed.

Lemma qsum_nonneg l : Forall (fun q => 0 <= q) l -> 0 <= qsum l.
Proof. induction 1; simpl; lra. Qed.

Lemma qsum_pos l : l <> [] -> Forall (fun q => 0 < q) l -> 0 < qsum l.
Proof.
  intros Hne Hl. destruct Hl as [|a l Ha Hl]; [congruence|]. simpl.
  assert (0 <= qsum l) by (apply qsum_nonneg; eapply Forall_impl; eauto; simpl; intros; lra).
  lra.
Qed.

Lemma qsum_scale l s : qsum (map (fun x => x / s) l) == qsum l / s.
Proof.
  induction l as [|a l IH]; simpl.
  - unfold Qdiv. lra.
  - rewrite IH. unfold Qdiv. lra.
Qed.

Lemma qsum_normalized l : ~ qsum l == 0 -> qsum (map (fun x => x / qsum l) l) == 1.
Proof. intros Hs. rewrite qsum_scale. now field. Qed.

Lemma positive_spec a : positive a = true -> exists q, a = Fin q /\ 0 < q.
Proof.
  destruct a as [q| |]; simpl; try discriminate. intros Hq.
  exists q. split; [reflexivity|]. apply Z.ltb_lt in Hq.
  unfold Qlt. simpl. lia.
Qed.

Lemma nonneg_rows_spec width m :
  nonneg_rows width m = true ->
  Forall (fun row => length row = width /\ Forall (fun n => (0 <= n)%Z) row) m.
Proof.
  unfold nonneg_rows. intros Hm. apply List.Forall_forall. intros row Hin.
  rewrite forallb_forall in Hm. specialize (Hm row Hin).
  apply andb_true_iff in Hm as [Hl Hr]. apply Nat.eqb_eq in Hl. split; [exact Hl|].
  apply List.Forall_forall. intros n Hn. rewrite forallb_forall in Hr.
  apply Z.leb_le. now apply Hr.
Qed.

Lemma zsum_nonneg row : Forall (fun n => (0 <= n)%Z) row -> (0 <= zsum row)%Z.
Proof. induction 1; [reflexivity|]. rewrite zsum_cons. lia. Qed.

Lemma column_Ok (m : list (list Z)) j width :
  Forall (fun row => length row = width) m -> (j < width)%nat ->
  column m j = Ok (map (fun row => nth j row 0%Z) m).
Proof.
  intros Hm Hj. induction Hm as [|row m Hrow Hm IH]; [reflexivity|].
  cbn [column map]. unfold rbind.
  destruct (lookup_lt_is_Some_2 row j) as [a Ha]; [lia|].
  rewrite (proj2 (get_Ok row j a) Ha), IH.
  now rewrite (nth_lookup_Some _ _ _ _ Ha).
Qed.

Lemma forallb_Forall {A} (f : A -> bool) (P : A -> Prop) l :
  (forall a, f a = true -> P a) -> forallb f l = true -> Forall P l.
Proof.
  intros Hf Hl. apply List.Forall_forall. intros a Ha.
  rewrite forallb_forall in Hl. auto.
Qed.

Lemma shaped_spec o : shaped o = true -> Shaped o.
Proof.
  unfold shaped. intros Hs.
  repeat match type of Hs with
         | (_ && _ = true) => apply andb_true_iff in Hs as [Hs ?]
         end.
  repeat match goal with
         | Heq : (_ =? _)%nat = true |- _ => apply Nat.eqb_eq in Heq
         | Hr : nonneg_rows _ _ = true |- _ => apply nonneg_rows_spec in Hr
         end.
  apply Z.ltb_lt in Hs.
  constructor; try assumption.
  - eapply forallb_Forall; [|eassumption]. intros n. apply Z.leb_le.
  - eapply forallb_Forall; [|eassumption]. intros m Hm.
    apply andb_true_iff in Hm as [Hl Hm]. apply Nat.eqb_eq in Hl.
    split; [exact Hl | now apply nonneg_rows_spec].
Qed.

Lemma normalize_Fin ps :
  0 < qsum ps ->
  vdiv_scalar (map Fin ps) (fsum (map Fin ps))
  = map Fin (map (fun x => x / qsum ps) ps).
Proof. intros Hs. rewrite fsum_Fin. apply vdiv_scalar_Fin. lra. Qed.

Lemma Qdiv_pos a b : 0 < a -> 0 < b -> 0 < a / b.
Proof. intros. apply Qlt_shift_div_l; lra. Qed.

Lemma Qdiv_nonneg a b : 0 <= a -> 0 < b -> 0 <= a / b.
Proof. intros. apply Qle_shift_div_l; lra. Qed.

Lemma inject_Z_nonneg n : (0 <= n)%Z -> 0 <= inject_Z n.
Proof. intros. unfold Qle. simpl. lia. Qed.

Lemma inject_Z_pos n : (0 < n)%Z -> 0 < inject_Z n.
Proof. intros. unfold Qlt. simpl. lia. Qed.

Lemma zsum_pos_exists row :
  (0 < zsum row)%Z -> exists k n, row !! k = Some n /\ (0 < n)%Z.
Proof.
  induction row as [|a row IH]; [intros Hs; cbn in Hs; lia|]. rewrite zsum_cons. intros Hs.
  destruct (Z.ltb_spec 0 a) as [Ha|Ha].
  - exists 0%nat, a. auto.
  - destruct IH as (k & n & Hk & Hn); [lia|]. exists (S k), n. auto.
Qed.

Lemma zsum_zero_all row :
  Forall (fun n => (0 <= n)%Z) row -> zsum row = 0%Z -> Forall (fun n => n = 0%Z) row.
Proof.
  induction 1 as [|a row Ha Hrow IH]; [constructor|]. rewrite zsum_cons. intros Hs.
  pose proof (zsum_nonneg _ Hrow). constructor; [lia|]. apply IH. lia.
Qed.

Lemma qsum_pos_lookup l k q :
  Forall (fun x => 0 <= x) l -> l !! k = Some q -> 0 < q -> 0 < qsum l.
Proof.
  intros Hl. revert k. induction Hl as [|a l Ha Hl IH]; intros [|k] Hk Hq;
    try discriminate; cbn in Hk.
  - injection Hk as ->. pose proof (qsum_nonneg _ Hl).
    change (qsum (q :: l)) with (q + qsum l). lra.
  - specialize (IH _ Hk Hq). change (qsum (a :: l)) with (a + qsum l). lra.
Qed.

Lemma map_of_int row : map of_int row = map Fin (map inject_Z row).
Proof. now rewrite map_map. Qed.

End FiniteVectors.

(** ** The conditional distributions *)

#[local] Open Scope Q_scope.

Section TopicConditional.
Context {G : Type} `{Generator G}.

(** C2: in a valid state with positive hyperparameters, for a document [d]
    and a topic-vocabulary id [w_id] in range, [p_z d w_id] returns a vector
    of [nTopics] finite entries; entry [k] is a positive constant times
    [topic_weight k], the entries are non-negative and they sum to 1. *)
Theorem p_z_distribution (w : world G) (d w_id : nat) :
  shaped (self w) = true ->
  positive_priors (config (self w)) = true ->
  (d < DT (sizes (self w)))%nat ->
  (w_id < VT (sizes (self w)))%nat ->
  exists qs : list Q,
    p_z d w_id w = Ok (map Fin qs, w) /\
    normalized_by (topic_weight (self w) d w_id)
                  (Z.to_nat (nTopics (config (self w)))) qs.
Proof.
  intros Hsh Hpos Hd Hw. apply shaped_spec in Hsh. destruct Hsh.
  unfold positive_priors in Hpos.
  apply andb_true_iff in Hpos as [Hpos Hbo].
  apply andb_true_iff in Hpos as [Ha Hb].
  apply positive_spec in Ha as (a & Ha & Hapos).
  apply positive_spec in Hb as (b & Hb & Hbpos).
  set (o := self w) in *. set (K := nTopics (config o)) in *.
  destruct (lookup_lt_is_Some_2 (ndk (counts o)) d) as [row Hrow]; [lia|].
  pose proof (proj1 (Forall_lookup _ _) sh_ndk0 d row Hrow) as [Hrl Hrn].
  set (col := map (fun r => nth w_id r 0%Z) (nkw (counts o))).
  assert (Hcol : column (nkw (counts o)) w_id = Ok col).
  { eapply column_Ok; [|exact Hw]. eapply Forall_impl; [exact sh_nkw0|]. now intros r [? _]. }
  set (S := inject_Z (zsum row) + inject_Z K * a).
  assert (HS : 0 < S).
  { unfold S. pose proof (inject_Z_nonneg _ (zsum_nonneg _ Hrn)).
    pose proof (inject_Z_pos _ sh_K0). nra. }
  set (f1 := map (fun x => x / S) (map (fun n => inject_Z n + a) row)).
  set (den := map (fun n => inject_Z n + b * inject_Z (Z.of_nat (VT (sizes o)))) (nk (counts o))).
  set (f2 := zip_with Qdiv (map (fun n => inject_Z n + b) col) den).
  set (ps := zip_with Qmult f1 f2).
  assert (Hprod : 0 < b * inject_Z (Z.of_nat (VT (sizes o)))).
  { apply Qmult_lt_0_compat; [exact Hbpos | apply inject_Z_pos; lia]. }
  assert (Hden : Forall (fun y => ~ y == 0) den).
  { unfold den. rewrite map_fmap. apply Forall_fmap.
    eapply Forall_impl; [exact sh_nk0|]. intros n Hn. simpl.
    pose proof (inject_Z_nonneg _ Hn). lra. }
  assert (Hlen_col : length col = Z.to_nat K).
  { unfold col. now rewrite length_map. }
  assert (Hlen_den : length den = Z.to_nat K).
  { unfold den. now rewrite length_map. }
  assert (Hlen_f1 : length f1 = Z.to_nat K).
  { unfold f1. now rewrite !length_map. }
  assert (Hlen_f2 : length f2 = Z.to_nat K).
  { unfold f2. rewrite length_zip_with_l_eq; rewrite !length_map; lia. }
  assert (Hlen : length ps = Z.to_nat K).
  { unfold ps. rewrite length_zip_with_l_eq; lia. }
  assert (Hentry : forall k q, ps !! k = Some q ->
                     q == topic_weight o d w_id k /\ 0 < q).
  { intros k q Hq. unfold ps in Hq.
    apply lookup_zip_with_Some in Hq as (x & y & -> & Hx & Hy).
    unfold f1 in Hx. rewrite !map_fmap in Hx.
    apply list_lookup_fmap_Some in Hx as (x' & -> & Hx).
    apply list_lookup_fmap_Some in Hx as (n & -> & Hn).
    unfold f2 in Hy.
    apply lookup_zip_with_Some in Hy as (u & v & -> & Hu & Hv).
    rewrite map_fmap in Hu. apply list_lookup_fmap_Some in Hu as (m & -> & Hm).
    unfold den in Hv. rewrite map_fmap in Hv.
    apply list_lookup_fmap_Some in Hv as (t & -> & Ht).
    unfold col in Hm. rewrite map_fmap in Hm.
    apply list_lookup_fmap_Some in Hm as (r & -> & Hr).
    pose proof (proj1 (Forall_lookup _ _) sh_nkw0 k r Hr) as [Hrlen Hrnn].
    pose proof (proj1 (Forall_lookup _ _) Hrn k n Hn) as Hn0.
    pose proof (proj1 (Forall_lookup _ _) sh_nk0 k t Ht) as Ht0.
    assert (Hc0 : (0 <= nth w_id r 0)%Z).
    { apply Forall_nth; [exact Hrnn | lia]. }
    apply inject_Z_nonneg in Hn0, Ht0, Hc0.
    split.
    - unfold topic_weight, cell. fold o. rewrite Ha, Hb. cbn [rational].
      rewrite (nth_lookup_Some _ _ _ _ Hrow), (nth_lookup_Some _ _ _ _ Hn),
        (nth_lookup_Some _ _ _ _ Hr), (nth_lookup_Some _ _ _ _ Ht).
      reflexivity.
    - apply Qmult_lt_0_compat; apply Qdiv_pos; lra. }
  assert (Hall : Forall (fun q => 0 < q) ps).
  { apply Forall_lookup. intros k q Hq. now apply Hentry in Hq. }
  assert (Htot : 0 < qsum ps).
  { apply qsum_pos; [|exact Hall]. intros Hnil. rewrite Hnil in Hlen. simpl in Hlen. lia. }
  exists (map (fun x => x / qsum ps) ps).
  split; [|split; [|split; [exists (/ qsum ps); split|split]]].
  - unfold p_z, p_z_weights, bind, get_self, lift, ret. fold o.
    rewrite (proj2 (get_Ok _ _ _) Hrow), Hcol, Ha, Hb.
    rewrite !vadd_scalar_Fin.
    change (fadd (of_int (zsum row)) (fmul (of_int (nTopics (config o))) (Fin a)))
      with (Fin S).
    rewrite vdiv_scalar_Fin by lra. fold f1.
    change (vadd_scalar (nk (counts o))
              (fmul (Fin b) (of_int (Z.of_nat (VT (sizes o))))))
      with (vadd_scalar (nk (counts o)) (Fin (b * inject_Z (Z.of_nat (VT (sizes o)))))).
    rewrite vadd_scalar_Fin. fold den.
    rewrite vdiv_Fin by (rewrite ?length_map; auto; lia). fold f2.
    rewrite vmul_Fin by lia. fold ps.
    now rewrite normalize_Fin.
  - now rewrite length_map.
  - now apply Qinv_lt_0_compat.
  - intros k q Hq. rewrite map_fmap in Hq.
    apply list_lookup_fmap_Some in Hq as (x & -> & Hx).
    apply Hentry in Hx as [Hx _]. rewrite Hx. unfold Qdiv. ring.
  - rewrite map_fmap. apply Forall_fmap. eapply Forall_impl; [exact Hall|].
    intros q Hq. unfold compose. cbn beta in Hq. apply Qdiv_nonneg; lra.
  - apply qsum_normalized. lra.
Qed.
End TopicConditional.


Section OpinionConditional.
Context {G : Type} `{Generator G}.

(** C3 (amended): in a valid state with positive hyperparameters, for a
    perspective [persp], a document [d] and an opinion-vocabulary id [w_id]
    in range: when [ntd[d]] is positive, [p_x persp d w_id] returns the
    normalized vector whose entry [k] is a positive constant times
    [opinion_weight k], the second factor of which is [ndk[d][k] / ntd[d]],
    the proportions of the topic words of the document; when [ntd[d]] is 0
    the method answers all the same, raising nothing, and the result is not
    a distribution: every entry is [nan]. *)
Theorem p_x_distribution (w : world G) (persp d w_id : nat) (t : Q) :
  shaped (self w) = true ->
  consistent (counts (self w)) ->
  positive_priors (config (self w)) = true ->
  (persp < nPerspectives (config (self w)))%nat ->
  (w_id < VO (sizes (self w)))%nat ->
  ntd (counts (self w)) !! d = Some (Fin t) ->
  (0 < t ->
   exists qs : list Q,
     p_x persp d w_id w = Ok (map Fin qs, w) /\
     normalized_by (opinion_weight (self w) persp d w_id)
                   (Z.to_nat (nTopics (config (self w)))) qs) /\
  (t == 0 ->
   p_x persp d w_id w
   = Ok (replicate (Z.to_nat (nTopics (config (self w)))) NaN, w)).
Proof.
  intros Hsh (Hcd & _ & _) Hpos Hp Hw Ht. apply shaped_spec in Hsh. destruct Hsh.
  unfold positive_priors in Hpos.
  apply andb_true_iff in Hpos as [_ Hb].
  apply positive_spec in Hb as (b & Hb & Hbpos).
  set (o := self w) in *. set (K := nTopics (config o)) in *.
  assert (Hd : (d < DT (sizes o))%nat).
  { rewrite <- sh_ntd_len0. eapply lookup_lt_Some; eauto. }
  destruct (lookup_lt_is_Some_2 (ndk (counts o)) d) as [row Hrow]; [lia|].
  pose proof (proj1 (Forall_lookup _ _) sh_ndk0 d row Hrow) as [Hrl Hrn].
  assert (Hsum : inject_Z (zsum row) == t).
  { rewrite map_fmap in Hcd.
    pose proof (proj1 (Forall2_lookup _ _ _) Hcd d) as Hdd.
    rewrite list_lookup_fmap, Hrow, Ht in Hdd. cbn in Hdd.
    inversion Hdd as [? ? Hfeq|]; subst. exact Hfeq. }
  destruct (lookup_lt_is_Some_2 (nrs (counts o)) persp) as [m Hm]; [lia|].
  pose proof (proj1 (Forall_lookup _ _) sh_nrs0 persp m Hm) as [Hml Hmr].
  destruct (lookup_lt_is_Some_2 (ns (counts o)) persp) as [tot Htot]; [lia|].
  pose proof (proj1 (Forall_lookup _ _) sh_ns0 persp tot Htot) as [Htl Htn].
  set (col := map (fun r => nth w_id r 0%Z) m).
  assert (Hcol : column m w_id = Ok col).
  { eapply column_Ok; [|exact Hw]. eapply Forall_impl; [exact Hmr|]. now intros r [? _]. }
  assert (Hprod : 0 < b * inject_Z (Z.of_nat (VO (sizes o)))).
  { apply Qmult_lt_0_compat; [exact Hbpos | apply inject_Z_pos; lia]. }
  set (den := map (fun n => inject_Z n + b * inject_Z (Z.of_nat (VO (sizes o)))) tot).
  set (f1 := zip_with Qdiv (map (fun n => inject_Z n + b) col) den).
  assert (Hden : Forall (fun y => ~ y == 0) den).
  { unfold den. rewrite map_fmap. apply Forall_fmap.
    eapply Forall_impl; [exact Htn|]. intros n Hn. unfold compose.
    pose proof (inject_Z_nonneg _ Hn). lra. }
  assert (Hlen_col : length col = Z.to_nat K) by (unfold col; now rewrite length_map).
  assert (Hlen_den : length den = Z.to_nat K) by (unfold den; now rewrite length_map).
  assert (Hlen_f1 : length f1 = Z.to_nat K).
  { unfold f1. rewrite length_zip_with_l_eq; rewrite !length_map; lia. }
  assert (Hf1 : forall k x, f1 !! k = Some x ->
            0 < x /\ x == (cell3 (nrs (counts o)) persp k w_id + b)
                 / (cell (ns (counts o)) persp k + b * inject_Z (Z.of_nat (VO (sizes o))))).
  { intros k x Hx. unfold f1 in Hx.
    apply lookup_zip_with_Some in Hx as (u & v & -> & Hu & Hv).
    rewrite map_fmap in Hu. apply list_lookup_fmap_Some in Hu as (n & -> & Hn).
    unfold den in Hv. rewrite map_fmap in Hv.
    apply list_lookup_fmap_Some in Hv as (s & -> & Hs).
    unfold col in Hn. rewrite map_fmap in Hn.
    apply list_lookup_fmap_Some in Hn as (r & -> & Hr).
    pose proof (proj1 (Forall_lookup _ _) Hmr k r Hr) as [Hrlen Hrnn].
    pose proof (proj1 (Forall_lookup _ _) Htn k s Hs) as Hs0.
    assert (Hc0 : (0 <= nth w_id r 0)%Z) by (apply Forall_nth; [exact Hrnn | lia]).
    apply inject_Z_nonneg in Hs0, Hc0.
    split; [apply Qdiv_pos; lra|].
    unfold cell3, cell.
    rewrite (nth_lookup_Some _ _ _ _ Hm), (nth_lookup_Some _ _ _ _ Hr),
      (nth_lookup_Some _ _ _ _ Htot), (nth_lookup_Some _ _ _ _ Hs).
    reflexivity. }
  assert (Hstart : p_x persp d w_id w =
            rbind (vmul (map Fin f1) (vdiv_scalar (map Fin (map inject_Z row)) (Fin t)))
                  (fun p => Ok (vdiv_scalar p (fsum p), w))).
  { unfold p_x, p_x_weights, bind, get_self, lift, ret. fold o.
    rewrite (proj2 (get_Ok _ _ _) Hm), Hcol, (proj2 (get_Ok _ _ _) Htot), Hb.
    rewrite !vadd_scalar_Fin.
    change (vadd_scalar tot (fmul (Fin b) (of_int (Z.of_nat (VO (sizes o))))))
      with (vadd_scalar tot (Fin (b * inject_Z (Z.of_nat (VO (sizes o)))))).
    rewrite vadd_scalar_Fin. fold den.
    rewrite vdiv_Fin by (rewrite ?length_map; auto; lia). fold f1.
    rewrite (proj2 (get_Ok _ _ _) Hrow), (proj2 (get_Ok _ _ _) Ht).
    rewrite map_of_int. unfold rbind. destruct (vmul _ _); reflexivity. }
  split.
  - intros Htpos.
    set (f2 := map (fun x => x / t) (map inject_Z row)).
    set (ps := zip_with Qmult f1 f2).
    assert (Hlen : length ps = Z.to_nat K).
    { unfold ps, f2. rewrite length_zip_with_l_eq; rewrite ?length_map; lia. }
    assert (Hentry : forall k q, ps !! k = Some q ->
               0 <= q /\ q == opinion_weight o persp d w_id k).
    { intros k q Hq. unfold ps in Hq.
      apply lookup_zip_with_Some in Hq as (x & y & -> & Hx & Hy).
      apply Hf1 in Hx as [Hxpos Hx].
      unfold f2 in Hy. rewrite !map_fmap in Hy.
      apply list_lookup_fmap_Some in Hy as (y' & -> & Hy).
      apply list_lookup_fmap_Some in Hy as (n & -> & Hn).
      pose proof (proj1 (Forall_lookup _ _) Hrn k n Hn) as Hn0.
      apply inject_Z_nonneg in Hn0.
      split.
      - apply Qmult_le_0_compat; [lra | apply Qdiv_nonneg; lra].
      - unfold opinion_weight. fold o. rewrite Hb. cbn [rational].
        rewrite <- Hx. unfold cell.
        rewrite (nth_lookup_Some _ _ _ _ Hrow), (nth_lookup_Some _ _ _ _ Hn),
          (nth_lookup_Some _ _ _ _ Ht). cbn [rational]. reflexivity. }
    assert (Hall : Forall (fun q => 0 <= q) ps).
    { apply Forall_lookup. intros k q Hq. now apply Hentry in Hq. }
    assert (Htotal : 0 < qsum ps).
    { assert (Hz : (0 < zsum row)%Z).
      { rewrite <- Hsum in Htpos. unfold Qlt in Htpos. simpl in Htpos. lia. }
      apply zsum_pos_exists in Hz as (k & n & Hn & Hnpos).
      destruct (lookup_lt_is_Some_2 f1 k) as [x Hx].
      { rewrite Hlen_f1, <- Hrl. eapply lookup_lt_Some; eauto. }
      apply (qsum_pos_lookup ps k (x * (inject_Z n / t)) Hall).
      - unfold ps. apply lookup_zip_with_Some. exists x, (inject_Z n / t).
        split; [reflexivity|]. split; [exact Hx|].
        unfold f2. rewrite !map_fmap, !list_lookup_fmap, Hn. reflexivity.
      - apply Hf1 in Hx as [Hxpos _]. apply inject_Z_pos in Hnpos.
        apply Qmult_lt_0_compat; [lra | apply Qdiv_pos; lra]. }
    exists (map (fun x => x / qsum ps) ps).
    split; [|split; [|split; [exists (/ qsum ps); split|split]]].
    + rewrite Hstart. rewrite vdiv_scalar_Fin by lra. fold f2.
      rewrite vmul_Fin by (unfold f2; rewrite ?length_map; lia). fold ps.
      unfold rbind. now rewrite normalize_Fin.
    + now rewrite length_map.
    + now apply Qinv_lt_0_compat.
    + intros k q Hq. rewrite map_fmap in Hq.
      apply list_lookup_fmap_Some in Hq as (x & -> & Hx).
      apply Hentry in Hx as [_ Hx]. rewrite Hx. unfold Qdiv. ring.
    + rewrite map_fmap. apply Forall_fmap. eapply Forall_impl; [exact Hall|].
      intros q Hq. unfold compose. cbn beta in Hq. apply Qdiv_nonneg; lra.
    + apply qsum_normalized. lra.
  - intros Ht0. rewrite Hstart.
    assert (Hrow0 : row = replicate (Z.to_nat K) 0%Z).
    { rewrite <- Hrl. symmetry. apply replicate_as_Forall. split; [reflexivity|].
      eapply Forall_impl; [apply zsum_zero_all; [exact Hrn|] | intros n Hn; now symmetry].
      rewrite Ht0 in Hsum. unfold Qeq in Hsum. simpl in Hsum. lia. }
    assert (Hf2 : vdiv_scalar (map Fin (map inject_Z row)) (Fin t)
                  = replicate (Z.to_nat K) NaN).
    { rewrite Hrow0. unfold vdiv_scalar. rewrite !map_replicate.
      f_equal. cbn. now rewrite Qzero_true. }
    rewrite Hf2. unfold vmul, broadcast.
    rewrite length_map, length_replicate, Hlen_f1, Nat.eqb_refl.
    assert (Hnan : zip_with fmul (map Fin f1) (replicate (Z.to_nat K) NaN)
                   = replicate (Z.to_nat K) NaN).
    { rewrite <- Hlen_f1. generalize f1 as l. clear.
      induction l as [|a l IH]; cbn; [reflexivity|]. now rewrite IH. }
    rewrite Hnan. unfold rbind. f_equal. f_equal.
    assert (HKpos : (0 < Z.to_nat K)%nat) by lia.
    destruct (Z.to_nat K) as [|n]; [lia|].
    unfold vdiv_scalar. rewrite map_replicate. reflexivity.
Qed.
End OpinionConditional.

Lemma p_z_distribution_witness :
  exists qs : list Q,
    p_z 0 0 Example.world1 = Ok (map Fin qs, Example.world1) /\
    normalized_by (topic_weight (self Example.world1) 0 0) 2 qs.
Proof.
  apply (p_z_distribution Example.world1 0 0).
  - vm_compute. reflexivity.
  - vm_compute. reflexivity.
  - vm_compute. lia.
  - vm_compute. lia.
Defined.

Lemma p_x_distribution_witness :
  (exists qs : list Q,
     p_x 0 0 0 Example.world1 = Ok (map Fin qs, Example.world1) /\
     normalized_by (opinion_weight (self Example.world1) 0 0 0) 2 qs) /\
  p_x 0 0 0 Example.no_topic_word
  = Ok (replicate 2 NaN, Example.no_topic_word).
Proof.
  split.
  - refine (proj1 (p_x_distribution Example.world1 0 0 0 3 _ _ _ _ _ _) _).
    + vm_compute. reflexivity.
    + vm_compute. repeat constructor.
    + vm_compute. reflexivity.
    + vm_compute. lia.
    + vm_compute. lia.
    + vm_compute. reflexivity.
    + reflexivity.
  - refine (proj2 (p_x_distribution Example.no_topic_word 0 0 0 0 _ _ _ _ _ _)
              _).
    + vm_compute. reflexivity.
    + vm_compute. repeat constructor.
    + vm_compute. reflexivity.
    + vm_compute. lia.
    + vm_compute. lia.
    + vm_compute. reflexivity.
    + reflexivity.
Defined.

(** The claim as stated, with "undefined (not invoked)": on a document
    without topic words, which [_initialize] accepts, [ntd[d]] is 0 and
    [p_x] answers all the same, with a vector of [nan], raising nothing;
    and one iteration of the kernel, which calls [p_x] for each opinion
    word of the document, succeeds and leaves the label 0 where
    [_initialize] had drawn 1. *)
Lemma p_x_not_invoked_counterexample :
  let w := Example.no_topic_word in
  _initialize Example.before_opinions = Ok (tt, w) /\
  ntd (counts (self w)) = [Fin 0] /\
  x (counts (self w)) = [[[1; 1]%nat]] /\
  p_x 0 0 0 w = Ok ([NaN; NaN], w) /\
  exists w', gibbs_inner w = Ok (tt, w') /\
             x (counts (self w')) = [[[0; 0]%nat]].
Proof.
  cbv zeta. repeat split; try (vm_compute; reflexivity).
  eexists. split; vm_compute; reflexivity.
Qed.

(** ** The parameter estimates *)

Lemma qsum_add_const row a :
  qsum (map (fun n => inject_Z n + a) row)
  == inject_Z (zsum row) + inject_Z (Z.of_nat (length row)) * a.
Proof.
  induction row as [|n row IH].
  - cbn. ring.
  - change (qsum (map (fun n => inject_Z n + a) (n :: row)))
      with (inject_Z n + a + qsum (map (fun n => inject_Z n + a) row)).
    rewrite IH, zsum_cons. cbn [length]. rewrite Nat2Z.inj_succ.
    unfold Z.succ. rewrite !inject_Z_plus. ring.
Qed.

Lemma smoothed_rows_table (m : list (list Z)) (a : Q) (width : Z) :
  0 < a -> (0 < width)%Z ->
  Forall (fun row => length row = Z.to_nat width /\
                     Forall (fun n => (0 <= n)%Z) row) m ->
  exists t : list (list Q),
    smoothed_rows m (Fin a) (fmul (of_int width) (Fin a)) = map (map Fin) t /\
    table_of (smoothed m a width) (length m) (Z.to_nat width) t.
Proof.
  intros Ha Hw Hm.
  set (den := fun row : list Z => inject_Z (zsum row) + inject_Z width * a).
  assert (Hden : forall row, Forall (fun n => (0 <= n)%Z) row -> 0 < den row).
  { intros row Hrow. unfold den.
    pose proof (inject_Z_nonneg _ (zsum_nonneg _ Hrow)).
    pose proof (inject_Z_pos _ Hw). nra. }
  exists (map (fun row => map (fun x => x / den row)
                              (map (fun n => inject_Z n + a) row)) m).
  split.
  - unfold smoothed_rows. rewrite map_map.
    apply Forall_fmap_ext_1. eapply Forall_impl; [exact Hm|].
    intros row [_ Hrow]. cbn beta. rewrite vadd_scalar_Fin.
    change (fadd (of_int (zsum row)) (fmul (of_int width) (Fin a)))
      with (Fin (den row)).
    apply vdiv_scalar_Fin. specialize (Hden row Hrow). lra.
  - split; [now rewrite length_map|].
    intros i r Hr. rewrite map_fmap in Hr.
    apply list_lookup_fmap_Some in Hr as (row & -> & Hrow).
    pose proof (proj1 (Forall_lookup _ _) Hm i row Hrow) as [Hlen Hnn].
    specialize (Hden row Hnn).
    split; [now rewrite !length_map|]. split.
    + intros j q Hq. rewrite !map_fmap in Hq.
      apply list_lookup_fmap_Some in Hq as (x & -> & Hx).
      apply list_lookup_fmap_Some in Hx as (n & -> & Hn).
      unfold smoothed, cell.
      rewrite (nth_lookup_Some _ _ _ _ Hrow), (nth_lookup_Some _ _ _ _ Hn).
      reflexivity.
    + rewrite qsum_scale, qsum_add_const, Hlen, Z2Nat.id by lia.
      fold (den row). field. lra.
Qed.

Section Estimators.
Context {G : Type} `{Generator G}.

(** C4: in a valid state (shapes as allocated, counts not negative, at least
    one topic, vocabularies not empty, positive hyperparameters)
    [theta_topic] returns [theta[d][k] = (ndk[d][k] + alpha) /
    (sum_k' ndk[d][k'] + nTopics*alpha)], [phi_topic] returns
    [phiTopic[k][w] = (nkw[k][w] + beta) / (sum_w' nkw[k][w'] + VT*beta)],
    [phi_opinion p] returns [phiOpinion[p][k][w] = (nrs[p][k][w] + beta_o) /
    (sum_w' nrs[p][k][w'] + VO*beta_o)], and every row of the three tables
    sums to 1. *)
Theorem estimators_are_distributions (w : world G) :
  shaped (self w) = true ->
  positive_priors (config (self w)) = true ->
  (0 < VT (sizes (self w)))%nat ->
  (0 < VO (sizes (self w)))%nat ->
  estimates_are_distributions w.
Proof.
  intros Hsh Hpos HVT HVO. unfold estimates_are_distributions.
  apply shaped_spec in Hsh.
  set (o := self w) in *. set (K := nTopics (config o)) in *.
  destruct Hsh as [sh_K0 sh_ndk_len0 sh_ndk0 sh_nkw_len0 sh_nkw0 _ _ _
                   sh_nrs_len0 sh_nrs0 _ _].
  unfold positive_priors in Hpos.
  apply andb_true_iff in Hpos as [Hpos Hbo].
  apply andb_true_iff in Hpos as [Ha Hb].
  apply positive_spec in Ha as (a & Ha & Hapos).
  apply positive_spec in Hb as (b & Hb & Hbpos).
  apply positive_spec in Hbo as (bo & Hbo & Hbopos).
  rewrite Ha, Hb, Hbo. cbn [rational].
  split; [|split].
  - destruct (smoothed_rows_table (ndk (counts o)) a K Hapos sh_K0 sh_ndk0)
      as (t & Heq & Ht).
    exists t. rewrite sh_ndk_len0 in Ht. split; [|exact Ht].
    unfold theta_topic, bind, get_self, ret. fold o. fold K. now rewrite Ha, Heq.
  - destruct (smoothed_rows_table (nkw (counts o)) b (Z.of_nat (VT (sizes o))) Hbpos)
      as (t & Heq & Ht); [lia| |].
    { eapply Forall_impl; [exact sh_nkw0|]. intros row [Hl Hn]. now rewrite Nat2Z.id. }
    exists t. rewrite sh_nkw_len0, Nat2Z.id in Ht. split; [|exact Ht].
    unfold phi_topic, bind, get_self, ret. fold o. now rewrite Hb, Heq.
  - intros p Hp.
    destruct (lookup_lt_is_Some_2 (nrs (counts o)) p) as [m Hm]; [lia|].
    pose proof (proj1 (Forall_lookup _ _) sh_nrs0 p m Hm) as [Hml Hmr].
    destruct (smoothed_rows_table m bo (Z.of_nat (VO (sizes o))) Hbopos)
      as (t & Heq & Ht); [lia| |].
    { eapply Forall_impl; [exact Hmr|]. intros row [Hl Hn]. now rewrite Nat2Z.id. }
    exists t. rewrite Hml, Nat2Z.id in Ht.
    rewrite (nth_lookup_Some _ _ _ _ Hm). split; [|exact Ht].
    unfold phi_opinion, bind, get_self, lift, ret. fold o.
    now rewrite (proj2 (get_Ok _ _ _) Hm), Hbo, Heq.
Qed.
End Estimators.

Lemma estimators_are_distributions_witness :
  estimates_are_distributions Example.world1.
Proof.
  apply (estimators_are_distributions Example.world1).
  - vm_compute. reflexivity.
  - vm_compute. reflexivity.
  - vm_compute. lia.
  - vm_compute. lia.
Defined.

(** ** Sampling a label *)

Lemma cumsum_from_Fin acc l :
  cumsum_from (Fin acc) (map Fin l) = map Fin (qcumsum_from acc l).
Proof.
  revert acc. induction l as [|a l IH]; intros acc; [reflexivity|].
  cbn [map cumsum_from qcumsum_from fadd]. now rewrite IH.
Qed.

Lemma cumsum_Fin l : cumsum (map Fin l) = map Fin (qcumsum l).
Proof. destruct l as [|a l]; [reflexivity|]. cbn [map cumsum qcumsum]. now rewrite cumsum_from_Fin. Qed.

Lemma length_qcumsum_from acc l : length (qcumsum_from acc l) = length l.
Proof. revert acc. induction l; intros; cbn; auto. Qed.

Lemma length_qcumsum l : length (qcumsum l) = length l.
Proof. destruct l; cbn; auto using length_qcumsum_from. Qed.

Lemma qcumsum_from_ge acc l j x :
  Forall (fun q => 0 <= q) l -> qcumsum_from acc l !! j = Some x -> acc <= x.
Proof.
  intros Hl. revert acc j. induction Hl as [|a l Ha Hl IH]; intros acc [|j] Hj;
    cbn in Hj; try discriminate.
  - injection Hj as <-. lra.
  - apply IH in Hj. lra.
Qed.

Lemma qcumsum_from_sorted acc l :
  Forall (fun q => 0 <= q) l -> sorted (qcumsum_from acc l).
Proof.
  intros Hl. revert acc. induction Hl as [|a l Ha Hl IH]; intros acc i j x y Hij Hi Hj.
  - discriminate.
  - destruct i as [|i], j as [|j]; cbn in Hi, Hj; try lia.
    + injection Hi as <-. injection Hj as <-. lra.
    + injection Hi as <-. eapply qcumsum_from_ge; eauto.
    + eapply IH; [| exact Hi | exact Hj]. lia.
Qed.

Lemma qcumsum_sorted l : Forall (fun q => 0 <= q) l -> sorted (qcumsum l).
Proof.
  intros Hl. destruct Hl as [|a l Ha Hl]; [intros i j x y _ Hi; discriminate|].
  intros i j x y Hij Hi Hj.
  destruct i as [|i], j as [|j]; cbn in Hi, Hj; try lia.
  - injection Hi as <-. injection Hj as <-. lra.
  - injection Hi as <-. eapply qcumsum_from_ge; eauto.
  - eapply (qcumsum_from_sorted a l Hl i j); eauto. lia.
Qed.

Lemma qcumsum_from_last acc l a :
  exists x, qcumsum_from acc (a :: l) !! length l = Some x /\ x == acc + qsum (a :: l).
Proof.
  revert acc a. induction l as [|b l IH]; intros acc a.
  - exists (acc + a). split; [reflexivity|]. cbn. ring.
  - destruct (IH (acc + a) b) as (x & Hx & Hxs).
    exists x. split; [exact Hx|]. rewrite Hxs.
    change (qsum (a :: b :: l)) with (a + qsum (b :: l)). ring.
Qed.

Lemma qcumsum_last l :
  l <> [] -> exists x, qcumsum l !! (length l - 1)%nat = Some x /\ x == qsum l.
Proof.
  destruct l as [|a l]; [congruence|]. intros _. cbn [length].
  replace (S (length l) - 1)%nat with (length l) by lia.
  destruct l as [|b l].
  - exists a. split; [reflexivity|]. cbn. ring.
  - destruct (qcumsum_from_last a l b) as (x & Hx & Hxs). exists x.
    split; [exact Hx|]. rewrite Hxs. change (qsum (a :: b :: l)) with (a + qsum (b :: l)). ring.
Qed.

Lemma sort_lt_Fin x u : sort_lt (Fin x) (Fin u) = true <-> x < u.
Proof.
  unfold sort_lt. cbn. rewrite orb_false_r, negb_true_iff.
  split.
  - intros Hb. apply Qnot_le_lt. intros Hle. apply Qle_bool_iff in Hle. congruence.
  - intros Hlt. destruct (Qle_bool u x) eqn:Hb; [|reflexivity].
    apply Qle_bool_iff in Hb. lra.
Qed.

Lemma binsearch_spec (c : list Q) (u : Q) :
  sorted c ->
  forall fuel lo hi,
    (hi - lo <= fuel)%nat -> (lo <= hi <= length c)%nat ->
    (forall j x, (j < lo)%nat -> c !! j = Some x -> x < u) ->
    (forall j x, (hi <= j)%nat -> c !! j = Some x -> u <= x) ->
    let r := binsearch fuel (map Fin c) (Fin u) lo hi in
    (lo <= r <= hi)%nat /\
    (forall j x, (j < r)%nat -> c !! j = Some x -> x < u) /\
    (forall j x, (r <= j)%nat -> c !! j = Some x -> u <= x).
Proof.
  intros Hsorted. induction fuel as [|fuel IH]; intros lo hi Hfuel Hrange Hlo Hhi.
  - cbn. assert (hi = lo) by lia. subst hi. split; [lia|]. split; assumption.
  - cbn [binsearch]. destruct (Nat.ltb_spec lo hi) as [Hlt|Hge].
    + set (mid := (lo + (hi - lo) / 2)%nat).
      assert (Hmid : (lo <= mid < hi /\ mid - lo <= fuel)%nat).
      { unfold mid. pose proof (Nat.Div0.mul_div_le (hi - lo) 2). lia. }
      destruct Hmid as [Hmid Hhalf].
      destruct (lookup_lt_is_Some_2 c mid) as [v Hv]; [lia|].
      rewrite map_fmap, list_lookup_fmap, Hv. cbn [fmap option_fmap option_map].
      destruct (sort_lt (Fin v) (Fin u)) eqn:Hcmp.
      * apply sort_lt_Fin in Hcmp.
        destruct (IH (mid + 1)%nat hi) as (Hr & Hbelow & Habove); try lia.
        { intros j x Hj Hx. assert (x <= v) by (eapply (Hsorted j mid); eauto; lia). lra. }
        { exact Hhi. }
        rewrite map_fmap in Hr, Hbelow, Habove.
        split; [lia|]. split; assumption.
      * assert (Hvu : u <= v).
        { apply Qnot_lt_le. intros Hlt'. apply sort_lt_Fin in Hlt'. congruence. }
        destruct (IH lo mid) as (Hr & Hbelow & Habove); try lia.
        { exact Hlo. }
        { intros j x Hj Hx. assert (v <= x) by (eapply (Hsorted mid j); eauto; lia). lra. }
        rewrite map_fmap in Hr, Hbelow, Habove.
        split; [lia|]. split; assumption.
    + assert (hi = lo) by lia. subst hi. split; [lia|]. split; assumption.
Qed.

Lemma searchsorted_spec (c : list Q) (u : Q) :
  sorted c ->
  let r := searchsorted (map Fin c) (Fin u) in
  (r <= length c)%nat /\
  (forall j x, (j < r)%nat -> c !! j = Some x -> x < u) /\
  (forall j x, (r <= j)%nat -> c !! j = Some x -> u <= x).
Proof.
  intros Hsorted. unfold searchsorted. rewrite length_map.
  assert (Hlow : forall j x, (j < 0)%nat -> c !! j = Some x -> x < u)
    by (intros; lia).
  assert (Hhigh : forall j x, (length c <= j)%nat -> c !! j = Some x -> u <= x).
  { intros j x Hj Hx. apply lookup_lt_Some in Hx. lia. }
  destruct (binsearch_spec c u Hsorted (length c) 0%nat (length c)
              ltac:(lia) ltac:(lia) Hlow Hhigh) as (Hr & Hb & Ha).
  split; [lia|]. split; assumption.
Qed.

Section Sampling.

Context {G : Type} `{Generator G}.



End Sampling.



(** ** Degenerate weights *)



Section Degenerate.
Context {G : Type} `{Generator G}.

End Degenerate.


Example degenerate_reached :
  (_initialize;; Example.remove_first_tokens)
    (World (__init__ Example.corpus1 2 Example.tenth (Fin 0) (Fin 0) 1 None)
           [0; 1; 0; 0; 1; 0]%Z ∅)
  = Ok (tt, Example.degenerate).
Proof. vm_compute. reflexivity. Qed.


(** ** The read-only methods *)

Section ReadOnly.
Context {G : Type} `{Generator G}.

Lemma theta_topic_frame (w : world G) v w' : theta_topic w = Ok (v, w') -> w' = w.
Proof. unfold theta_topic. intros Hrun. run_inv Hrun. now subst. Qed.

Lemma phi_topic_frame (w : world G) v w' : phi_topic w = Ok (v, w') -> w' = w.
Proof. unfold phi_topic. intros Hrun. run_inv Hrun. now subst. Qed.

Lemma phi_opinion_frame p (w : world G) v w' : phi_opinion p w = Ok (v, w') -> w' = w.
Proof. unfold phi_opinion. intros Hrun. run_inv Hrun. now subst. Qed.

End ReadOnly.


(** ** Determinism *)

Section Determinism.
Context {G : Type} `{Generator G}.

Lemma ignores_ret {A} (a : A) : ignores_files (ret a : M G A).
Proof. intros o g f. cbn. auto. Qed.

Lemma ignores_lift {A} (r : result A) : ignores_files (lift r : M G A).
Proof. intros o g f. destruct r; cbn; auto. Qed.

Lemma ignores_get_self : ignores_files (get_self : M G _).
Proof. intros o g f. cbn. auto. Qed.

Lemma ignores_put_self o' : ignores_files (put_self o' : M G _).
Proof. intros o g f. cbn. auto. Qed.

Lemma ignores_bind {A B} (m : M G A) (k : A -> M G B) :
  ignores_files m -> (forall a, ignores_files (k a)) -> ignores_files (bind m k).
Proof.
  intros Hm Hk o g f. specialize (Hm o g f). unfold bind.
  destruct (m (World o g f)) as [[a [o1 g1 f1]]|e1],
           (m (World o g ∅)) as [[b [o2 g2 f2]]|e2]; try contradiction.
  - cbn in Hm. destruct Hm as (-> & -> & -> & -> & ->). apply Hk.
  - exact Hm.
Qed.

Lemma ignores_modify {A} (rd : Counts -> A) wr f :
  ignores_files (modify rd wr f : M G _).
Proof.
  unfold modify. apply ignores_bind; [apply ignores_get_self|]. intros o.
  apply ignores_bind; [apply ignores_lift|]. intros v. apply ignores_put_self.
Qed.

Lemma ignores_randint lo hi : ignores_files (randint lo hi : M G _).
Proof.
  intros o g f. unfold randint. cbn. destruct (lo <? hi)%Z; [|reflexivity].
  destruct (next_int lo hi g). cbn. auto.
Qed.

Lemma ignores_rand : ignores_files (rand : M G _).
Proof. intros o g f. unfold rand. cbn. destruct (next_unit g). cbn. auto. Qed.

Lemma ignores_for_each {A} (l : list A) (body : A -> M G unit) :
  (forall a, ignores_files (body a)) -> ignores_files (for_each l body).
Proof.
  intros Hbody. induction l as [|a l IH]; cbn [for_each].
  - apply ignores_ret.
  - apply ignores_bind; [apply Hbody | intros _; exact IH].
Qed.

Ltac ignores :=
  repeat first
    [ apply ignores_ret | apply ignores_lift | apply ignores_get_self
    | apply ignores_put_self | apply ignores_modify | apply ignores_randint
    | apply ignores_rand
    | apply ignores_for_each; intros
    | apply ignores_bind; [|intros]
    | match goal with |- ignores_files (let '(_, _) := ?p in _) => destruct p end
    | match goal with |- ignores_files (if ?b then _ else _) => destruct b end ].


Lemma ignores_gibbs_inner : ignores_files gibbs_inner.
Proof.
  unfold gibbs_inner. ignores.
  - unfold sweep_topics. ignores. unfold sweep_topic_word. ignores.
  - unfold sweep_opinions. ignores. unfold sweep_opinion_word. ignores.
Qed.

End Determinism.

(** ** What initialization refuses *)

Section Initialization.
Context {G : Type} `{Generator G}.






Lemma zeros_nonneg {A} (a : A) n :
  (0 <= n)%Z -> zeros a n = Ok (replicate (Z.to_nat n) a).
Proof. intros Hn. unfold zeros. destruct (Z.ltb_spec n 0); [lia | reflexivity]. Qed.

Lemma zeros_negative {A} (a : A) n : (n < 0)%Z -> zeros a n = Raise ValueError.
Proof. intros Hn. unfold zeros. destruct (Z.ltb_spec n 0); [reflexivity | lia]. Qed.

Lemma py_max_Ok l : l <> [] -> exists m, py_max l = Ok m.
Proof. destruct l; [congruence | eauto]. Qed.


Lemma stacked_zeros_Ok rows cols t :
  stacked_zeros rows cols = Ok t ->
  t = zip_with (fun n m => replicate n (replicate m 0%nat)) rows cols /\
  same rows && negb (same cols) = false.
Proof.
  unfold stacked_zeros. destruct (same rows && negb (same cols));
    [discriminate|]. now intros [= <-].
Qed.


End Initialization.



(** ** The two modes of [run] *)

Section Store.
Context {A : Type}.
Implicit Types (l vals : list A) (po : list (list A)).

Lemma length_store_at t vals l : length (store_at t vals l) = length l.
Proof.
  revert t l. induction vals as [|v vals IH]; intros t l; cbn; [reflexivity|].
  now rewrite IH, length_insert.
Qed.








End Store.

Lemma traverse_Ok_map {A B} (f : A -> result B) (g : A -> B) l :
  (forall a, In a l -> f a = Ok (g a)) -> traverse f l = Ok (map g l).
Proof.
  induction l as [|a l IH]; intros Hf; [reflexivity|].
  cbn [traverse map]. rewrite Hf by now left. cbn [rbind].
  rewrite IH by (intros; apply Hf; now right). reflexivity.
Qed.






Ltac ignores :=
  repeat first
    [ apply ignores_ret | apply ignores_lift | apply ignores_get_self
    | apply ignores_put_self | apply ignores_modify | apply ignores_randint
    | apply ignores_rand
    | apply ignores_for_each; intros
    | apply ignores_bind; [|intros]
    | match goal with |- ignores_files (let '(_, _) := ?p in _) => destruct p end
    | match goal with |- ignores_files (if ?b then _ else _) => destruct b end ].

Section Chain.
Context {G : Type} `{Generator G}.














(** *** Files *)


Lemma ignores_files_keeps {A} (m : M G A) :
  ignores_files m -> forall w a w', m w = Ok (a, w') -> files w' = files w.
Proof.
  intros Hm [o g f] a w' Hrun. specialize (Hm o g f). rewrite Hrun in Hm.
  destruct (m (World o g ∅)) as [[b w2]|]; [|contradiction]. cbn. tauto.
Qed.





(** *** The configuration and the sizes stay *)

Lemma keeps_ret {A} (a : A) : keeps_config (ret a : M G A).
Proof. intros w b w' Hrun. apply ret_Ok in Hrun as [_ ->]. auto. Qed.

Lemma keeps_lift {A} (r : result A) : keeps_config (lift r : M G A).
Proof. intros w b w' Hrun. apply lift_Ok in Hrun as [_ ->]. auto. Qed.

Lemma keeps_get_self : keeps_config (get_self : M G _).
Proof. intros w b w' Hrun. apply get_self_Ok in Hrun as [_ ->]. auto. Qed.

Lemma keeps_modify {A} (rd : Counts -> A) wr f :
  keeps_config (modify rd wr f : M G _).
Proof. intros w b w' Hrun. apply modify_Ok in Hrun as (v & _ & ->). auto. Qed.

Lemma keeps_rand : keeps_config (rand : M G _).
Proof.
  intros w b w' Hrun. apply rand_Ok in Hrun as (q & _ & _ & _ & -> & _). auto.
Qed.

Lemma keeps_bind {A B} (m : M G A) (k : A -> M G B) :
  keeps_config m -> (forall a, keeps_config (k a)) -> keeps_config (bind m k).
Proof.
  intros Hm Hk w b w' Hrun. apply bind_Ok in Hrun as (a & w1 & H1 & H2).
  apply Hm in H1 as [Hc Hs]. apply Hk in H2 as [Hc' Hs'].
  split; congruence.
Qed.

Lemma keeps_for_each {A} (l : list A) (body : A -> M G unit) :
  (forall a, keeps_config (body a)) -> keeps_config (for_each l body).
Proof.
  intros Hbody. induction l as [|a l IH]; cbn [for_each].
  - apply keeps_ret.
  - apply keeps_bind; [apply Hbody | intros _; exact IH].
Qed.

Ltac keeps :=
  repeat first
    [ apply keeps_ret | apply keeps_lift | apply keeps_get_self
    | apply keeps_modify | apply keeps_rand
    | apply keeps_for_each; intros
    | apply keeps_bind; [|intros]
    | match goal with |- keeps_config (let '(_, _) := ?p in _) => destruct p end
    | match goal with |- keeps_config (if ?b then _ else _) => destruct b end ].

Lemma keeps_gibbs_inner : keeps_config (gibbs_inner (G:=G)).
Proof.
  unfold gibbs_inner. keeps.
  - unfold sweep_topics. keeps. unfold sweep_topic_word. keeps.
  - unfold sweep_opinions. keeps. unfold sweep_opinion_word. keeps.
Qed.


(** *** The files that the persisted mode writes *)




(** *** Reading the files back *)

Lemma theta_not_phi_topic : "theta"%string <> "phi_topic"%string.
Proof. discriminate. Qed.
















(** *** The two modes against the chain *)

Lemma zeros3_nonneg {A} (a : A) p r c :
  (0 <= p)%Z -> (0 <= r)%Z -> (0 <= c)%Z ->
  zeros3 a p r c
  = Ok (replicate (Z.to_nat p) (replicate (Z.to_nat r) (replicate (Z.to_nat c) a))).
Proof.
  intros Hp Hr Hc. unfold zeros3, zeros2, rbind.
  now rewrite !zeros_nonneg by assumption.
Qed.





(** *** Nothing but [run] reads [out_dir] *)


















(** *** [run] in its two modes *)



Lemma _initialize_config (w : world G) u w' :
  _initialize w = Ok (u, w') ->
  config (self w') = config (self w) /\ (0 <= nTopics (config (self w)))%Z.
Proof.
  unfold _initialize. intros Hrun. run_inv Hrun.
  apply zeros_Ok in Hlift2 as [_ HK]. split; [|exact HK].
  injection Hstep as _ <-.
  assert (Hkeeps : keeps_config (for_each (documents (corpus (config (self w))))
                                          (init_document (G:=G)))).
  { keeps. unfold init_document. keeps.
    - unfold init_topic_word. keeps.
      intros w1 k w2 Hr. apply randint_Ok in Hr as (_ & _ & _ & -> & _). auto.
    - unfold init_opinion_word. keeps.
      intros w1 k w2 Hr. apply randint_Ok in Hr as (_ & _ & _ & -> & _). auto. }
  apply Hkeeps in Hrun as [Hc _]. exact Hc.
Qed.





End Chain.



(** ** Reading the parameter files, and [run] without iterations *)

Section LoadParameters.
Context {G : Type} `{Generator G}.

Lemma load_parameters_no_iteration (name : string) (w : world G) :
  (nIter (config (self w)) <= 0)%Z ->
  load_parameters name w = Raise IndexError.
Proof.
  intros Hn. unfold load_parameters, bind, get_self.
  replace (Z.to_nat (nIter (config (self w)))) with 0%nat by lia.
  reflexivity.
Qed.

(** [load_parameters] after a run of no iteration: with [nIter <= 0] the
    loop over the files is not entered, whatever the files, and the mean
    over axis 0 of [None] raises [IndexError]. *)
Theorem load_parameters_errors (name : string) (w : world G) :
  (nIter (config (self w)) <= 0)%Z ->
  load_parameters name w = Raise IndexError.
Proof.
  intros Hn. unfold load_parameters.
  rewrite (bind_step _ _ _ _ _ (eq_refl : get_self w = Ok (self w, w))).
  cbn beta. replace (Z.to_nat (nIter (config (self w)))) with 0%nat by lia.
  reflexivity.
Qed.

End LoadParameters.

Lemma load_parameters_errors_witness :
  load_parameters "theta" (Example.fresh 0 (Some "out"%string))
  = Raise IndexError.
Proof.
  refine (load_parameters_errors "theta"
            (Example.fresh 0 (Some "out"%string)) _).
  vm_compute. discriminate.
Defined.

Section RunEdges.
Context {G : Type} `{Generator G}.

Lemma traverse_replicate_get {A B} (g : A -> B) (a : A) (n : nat) :
  traverse (fun p => rbind (get (replicate n a) p) (fun t => Ok (g t))) (seq 0 n)
  = Ok (replicate n (g a)).
Proof.
  rewrite (traverse_Ok_map _ (fun _ => g a)).
  - f_equal. generalize 0%nat. induction n as [|n IH]; intros s; [reflexivity|].
    cbn. f_equal. apply IH.
  - intros p Hp. apply in_seq in Hp as [_ Hp]. cbn in Hp.
    unfold get. rewrite lookup_replicate_2 by lia. reflexivity.
Qed.

Lemma traverse_const {A B} (b : B) (l : list A) :
  traverse (fun _ => Ok b) l = Ok (replicate (length l) b).
Proof. induction l as [|a l IH]; [reflexivity|]. cbn. now rewrite IH. Qed.

(** [run] with no iteration.  With [out_dir] set it raises [IndexError],
    on every sampler: nothing was written, and [load_parameters] has nothing
    to average.  On a sampler that [_initialize] has prepared and with
    [out_dir] unset: with [nIter < 0] it raises [ValueError], from the array
    of a negative size; with [nIter = 0] it succeeds, touches neither the
    counts nor the generator nor the files, and publishes tables that hold
    [nan] in every cell. *)
Theorem run_without_iterations (w0 : world G) (u0 : unit) (w : world G) :
  _initialize w0 = Ok (u0, w) ->
  let cfg := config (self w) in
  let sz := sizes (self w) in
  let K := nTopics cfg in
  (forall w1 : world G,
     truthy (out_dir (config (self w1))) = true ->
     (nIter (config (self w1)) <= 0)%Z ->
     run w1 = Raise IndexError) /\
  (truthy (out_dir cfg) = false -> (nIter cfg < 0)%Z ->
   run w = Raise ValueError) /\
  (truthy (out_dir cfg) = false -> nIter cfg = 0%Z ->
   nPerspectives cfg = length (perspectives (corpus cfg)) ->
   run w =
   Ok (tt,
       World
         (set_outputs
            {| topics :=
                 to_df (nan_table K (Z.of_nat (VT sz))) (Some (VT sz));
               opinions :=
                 replicate (nPerspectives cfg)
                   (to_df (nan_table K (Z.of_nat (VO sz))) (Some (VO sz)));
               document_topic_matrix :=
                 to_df (nan_table (Z.of_nat (DT sz)) K) None |}
            (self w))
         (rng w) (files w))).
Proof.
  intros Hinit cfg sz K.
  assert (HK : (0 <= K)%Z).
  { destruct (_initialize_config w0 u0 w Hinit) as [Hcfg HK0].
    unfold K, cfg. now rewrite Hcfg. }
  split; [|split].
  - intros w1 Hdir Hn. unfold run, bind, get_self. rewrite Hdir.
    unfold run_persisted, bind, get_self.
    replace (Z.to_nat (nIter (config (self w1)))) with 0%nat by lia.
    cbn [seq for_each ret].
    now rewrite load_parameters_no_iteration.
  - intros Hdir Hn. unfold run, bind, get_self. fold cfg. rewrite Hdir.
    unfold run_in_memory, bind, get_self. fold cfg. fold sz. fold K.
    unfold zeros3 at 1. unfold zeros2, rbind.
    destruct (zeros (Fin 0) K) as [row|e] eqn:Hrow.
    + destruct (zeros row (Z.of_nat (DT sz))) as [m|e] eqn:Hm.
      * now rewrite zeros_negative by exact Hn.
      * unfold zeros in Hm. destruct (Z.ltb_spec (Z.of_nat (DT sz)) 0); [lia|discriminate].
    + unfold zeros in Hrow. destruct (K <? 0)%Z; [|discriminate].
      now injection Hrow as <-.
  - intros Hdir Hn HP. unfold run, bind, get_self. fold cfg. rewrite Hdir.
    unfold run_in_memory, bind, get_self. fold cfg. fold sz. fold K.
    rewrite Hn. rewrite !zeros3_nonneg by lia.
    rewrite traverse_const, <- HP.
    change (Z.to_nat 0) with 0%nat.
    cbn [lift replicate seq for_acc ret mean_axis0].
    rewrite (traverse_replicate_get
               (fun a => mean_axis0 (nan_table K (Z.of_nat (VO sz))) a) []).
    cbn [mean_axis0].
    unfold publish, bind, get_self. cbn [lift self]. fold cfg. fold sz.
    rewrite (traverse_replicate_get (fun t => to_df t (Some (VO sz)))).
    destruct w; reflexivity.
Qed.

End RunEdges.

Lemma run_without_iterations_witness :
  let w := Example.after _initialize (Example.fresh 0 None) in
  run (Example.fresh 0 (Some "out"%string)) = Raise IndexError /\
  exists o, run w = Ok (tt, World o (rng w) (files w)) /\
            option_map document_topic_matrix (outputs o)
            = Some (to_df [[NaN; NaN]; [NaN; NaN]] None).
Proof.
  cbv zeta.
  pose proof (run_without_iterations (Example.fresh 0 None) tt
                (Example.after _initialize (Example.fresh 0 None))) as Hrun.
  destruct Hrun as (Hdir & _ & Hmem); [vm_compute; reflexivity|].
  split.
  - apply Hdir; [reflexivity | vm_compute; discriminate].
  - eexists. split.
    + apply Hmem; reflexivity.
    + vm_compute. reflexivity.
Defined.

(** ** What initialization establishes *)

Section InitShape.
Context {G : Type} `{Generator G}.

Lemma Forall_rows_alter (width : nat) (f : Z -> Z) i j (m : list (list Z)) :
  (forall n, (0 <= n)%Z -> (0 <= f n)%Z) ->
  Forall (fun row => length row = width /\ Forall (fun n => (0 <= n)%Z) row) m ->
  Forall (fun row => length row = width /\ Forall (fun n => (0 <= n)%Z) row)
         (alter (alter f j) i m).
Proof.
  intros Hf Hm. apply Forall_alter; [exact Hm|].
  intros row _ [Hlen Hrow]. split; [now rewrite length_alter|].
  apply Forall_alter; [exact Hrow|]. intros n _. apply Hf.
Qed.

Lemma succ_nonneg n : (0 <= n)%Z -> (0 <= Z.succ n)%Z.
Proof. lia. Qed.

Lemma init_topic_word_Shaped d wi (w : world G) u w' :
  Shaped (self w) -> init_topic_word d wi w = Ok (u, w') -> Shaped (self w').
Proof.
  intros Hsh Hrun. destruct wi as [w_id i].
  unfold init_topic_word in Hrun. run_inv Hrun.
  apply randint_Ok in Hstep as (_ & _ & _ & Hself & _).
  subst w'. cbn in *. rewrite Hself in *.
  apply upd2_Ok in Hmod0 as [-> _].
  apply upd2_Ok in Hmod1 as [-> _].
  apply upd_Ok in Hmod2 as [-> _].
  apply upd_Ok in Hmod3 as [-> _].
  destruct Hsh as [sh_K0 sh_ndk_len0 sh_ndk0 sh_nkw_len0 sh_nkw0 sh_nk_len0
                   sh_nk0 sh_ntd_len0 sh_nrs_len0 sh_nrs0 sh_ns_len0 sh_ns0].
  constructor; cbn; rewrite ?length_alter; try assumption.
  - apply Forall_rows_alter; [apply succ_nonneg | assumption].
  - apply Forall_rows_alter; [apply succ_nonneg | assumption].
  - apply Forall_alter; [assumption|]. intros n _. apply succ_nonneg.
Qed.

Lemma init_opinion_word_Shaped persp d_p wi (w : world G) u w' :
  Shaped (self w) -> init_opinion_word persp d_p wi w = Ok (u, w') ->
  Shaped (self w').
Proof.
  intros Hsh Hrun. destruct wi as [w_id i].
  unfold init_opinion_word in Hrun. run_inv Hrun.
  apply randint_Ok in Hstep as (_ & _ & _ & Hself & _).
  subst w'. cbn in *. rewrite Hself in *.
  apply upd3_Ok in Hmod0 as [-> _].
  apply upd2_Ok in Hmod1 as [-> _].
  destruct Hsh as [sh_K0 sh_ndk_len0 sh_ndk0 sh_nkw_len0 sh_nkw0 sh_nk_len0
                   sh_nk0 sh_ntd_len0 sh_nrs_len0 sh_nrs0 sh_ns_len0 sh_ns0].
  constructor; cbn; rewrite ?length_alter; try assumption.
  - apply Forall_alter; [assumption|]. intros m _ [Hlen Hm].
    split; [now rewrite length_alter|].
    apply Forall_rows_alter; [apply succ_nonneg | assumption].
  - apply Forall_rows_alter; [apply succ_nonneg | assumption].
Qed.

Lemma init_document_Shaped it (w : world G) u w' :
  Shaped (self w) -> init_document it w = Ok (u, w') -> Shaped (self w').
Proof.
  destruct it as [[[d persp] d_p] doc]. intros Hc Hrun.
  unfold init_document in Hrun. run_inv Hrun.
  eapply (for_each_invariant (fun w => Shaped (self w))); [| |exact Hrun].
  - intros; eapply init_opinion_word_Shaped; eauto.
  - eapply (for_each_invariant (fun w => Shaped (self w)));
      [| exact Hc | exact Hstep].
    intros; eapply init_topic_word_Shaped; eauto.
Qed.

Lemma Forall_forallb {A} (f : A -> bool) (P : A -> Prop) l :
  (forall a, P a -> f a = true) -> Forall P l -> forallb f l = true.
Proof.
  intros Hf Hl. apply forallb_forall. intros a Ha.
  apply Hf. rewrite List.Forall_forall in Hl. auto.
Qed.

Lemma nonneg_rows_intro width m :
  Forall (fun row => length row = width /\ Forall (fun n => (0 <= n)%Z) row) m ->
  nonneg_rows width m = true.
Proof.
  unfold nonneg_rows. apply Forall_forallb. intros row [Hlen Hrow].
  apply andb_true_iff. split; [now apply Nat.eqb_eq|].
  revert Hrow. apply Forall_forallb. intros n. apply Z.leb_le.
Qed.

Lemma Shaped_shaped o : Shaped o -> shaped o = true.
Proof.
  intros [sh_K0 sh_ndk_len0 sh_ndk0 sh_nkw_len0 sh_nkw0 sh_nk_len0
          sh_nk0 sh_ntd_len0 sh_nrs_len0 sh_nrs0 sh_ns_len0 sh_ns0].
  unfold shaped.
  repeat (apply andb_true_iff; split);
    try (apply Nat.eqb_eq; assumption);
    try (apply nonneg_rows_intro; assumption).
  - now apply Z.ltb_lt.
  - revert sh_nk0. apply Forall_forallb. intros n. apply Z.leb_le.
  - revert sh_nrs0. apply Forall_forallb. intros m [Hlen Hm].
    apply andb_true_iff. split; [now apply Nat.eqb_eq|].
    now apply nonneg_rows_intro.
Qed.

Lemma Forall_replicate_rows width n :
  Forall (fun row => length row = width /\ Forall (fun n => (0 <= n)%Z) row)
         (replicate n (replicate width 0%Z)).
Proof.
  apply Forall_replicate. split; [apply length_replicate|].
  apply Forall_replicate. lia.
Qed.

(** A loop whose every round adds 1 to a measure adds the number of its
    rounds. *)
Lemma for_each_count {A} (mu : world G -> Z) (body : A -> M G unit) l :
  (forall a w u w', body a w = Ok (u, w') -> mu w' = (mu w + 1)%Z) ->
  forall w u w', for_each l body w = Ok (u, w') ->
    mu w' = (mu w + Z.of_nat (length l))%Z.
Proof.
  intros Hbody. induction l as [|a l IH]; intros w u w' Hrun; simpl in Hrun.
  - apply ret_Ok in Hrun as [_ ->]. cbn. lia.
  - apply bind_Ok in Hrun as (u1 & w1 & H1 & Hrun).
    apply Hbody in H1. apply IH in Hrun. cbn [length]. lia.
Qed.

Lemma for_each_frame {A} (mu : world G -> Z) (body : A -> M G unit) l :
  (forall a w u w', body a w = Ok (u, w') -> mu w' = mu w) ->
  forall w u w', for_each l body w = Ok (u, w') -> mu w' = mu w.
Proof.
  intros Hbody w u w' Hrun.
  eapply (for_each_invariant (fun w1 => mu w1 = mu w)); [| |exact Hrun];
    [|reflexivity].
  intros a w1 u1 w2 _ Hmu Hb. apply Hbody in Hb. congruence.
Qed.

Lemma zsum_rows_alter (f : Z -> Z) (delta : Z) i j (m : list (list Z)) :
  (forall a, f a = (a + delta)%Z) ->
  (exists row, m !! i = Some row /\ (j < length row)%nat) ->
  zsum (map zsum (alter (alter f j) i m)) = (zsum (map zsum m) + delta)%Z.
Proof.
  intros Hf (row & Hrow & Hj).
  rewrite (rowsums_alter f delta i j m row Hf Hrow Hj).
  apply zsum_alter; [auto|]. rewrite length_map. eapply lookup_lt_Some; eauto.
Qed.

Lemma init_topic_word_totals d wi (w : world G) u w' :
  init_topic_word d wi w = Ok (u, w') ->
  topic_total w' = (topic_total w + 1)%Z /\ opinion_total w' = opinion_total w.
Proof.
  intros Hrun. destruct wi as [w_id i].
  unfold init_topic_word in Hrun. run_inv Hrun.
  apply randint_Ok in Hstep as (_ & _ & _ & Hself & _).
  subst w'. unfold topic_total, opinion_total. cbn in *. rewrite Hself in *.
  apply upd_Ok in Hmod2 as [-> Hk].
  split; [|reflexivity]. apply zsum_alter; [apply succ_plus | exact Hk].
Qed.

Lemma init_opinion_word_totals persp d_p wi (w : world G) u w' :
  init_opinion_word persp d_p wi w = Ok (u, w') ->
  topic_total w' = topic_total w /\ opinion_total w' = (opinion_total w + 1)%Z.
Proof.
  intros Hrun. destruct wi as [w_id i].
  unfold init_opinion_word in Hrun. run_inv Hrun.
  apply randint_Ok in Hstep as (_ & _ & _ & Hself & _).
  subst w'. unfold topic_total, opinion_total. cbn in *. rewrite Hself in *.
  apply upd2_Ok in Hmod1 as [-> Hrow].
  split; [reflexivity|]. apply zsum_rows_alter; [apply succ_plus | exact Hrow].
Qed.

Lemma init_document_totals it (w : world G) u w' :
  init_document it w = Ok (u, w') ->
  topic_total w' = (topic_total w + Z.of_nat (length (topic_words (snd it))))%Z /\
  opinion_total w'
  = (opinion_total w + Z.of_nat (length (opinion_words (snd it))))%Z.
Proof.
  destruct it as [[[d persp] d_p] doc]. intros Hrun. cbn [snd].
  unfold init_document in Hrun. run_inv Hrun.
  pose proof (for_each_count topic_total _ _
                (fun a w u w' Hb => proj1 (init_topic_word_totals d a w u w' Hb))
                _ _ _ Hstep) as Ht1.
  pose proof (for_each_frame opinion_total _ _
                (fun a w u w' Hb => proj2 (init_topic_word_totals d a w u w' Hb))
                _ _ _ Hstep) as Ho1.
  pose proof (for_each_frame topic_total _ _
                (fun a w u w' Hb =>
                   proj1 (init_opinion_word_totals persp d_p a w u w' Hb))
                _ _ _ Hrun) as Ht2.
  pose proof (for_each_count opinion_total _ _
                (fun a w u w' Hb =>
                   proj2 (init_opinion_word_totals persp d_p a w u w' Hb))
                _ _ _ Hrun) as Ho2.
  split; congruence.
Qed.

Lemma init_loop_totals docs (w : world G) u w' :
  for_each docs init_document w = Ok (u, w') ->
  topic_total w'
  = (topic_total w
     + Z.of_nat (sum_list (map (fun it => length (topic_words (snd it))) docs)))%Z /\
  opinion_total w'
  = (opinion_total w
     + Z.of_nat (sum_list (map (fun it => length (opinion_words (snd it))) docs)))%Z.
Proof.
  revert w. induction docs as [|it docs IH]; intros w Hrun; simpl in Hrun.
  - apply ret_Ok in Hrun as [_ ->]. cbn. lia.
  - apply bind_Ok in Hrun as (u1 & w1 & H1 & Hrun).
    apply init_document_totals in H1 as [Ht Ho].
    apply IH in Hrun as [Ht' Ho']. simpl. lia.
Qed.

Lemma _initialize_sizes (w : world G) u w' :
  _initialize w = Ok (u, w') ->
  let c := corpus (config (self w)) in
  VT (sizes (self w')) = topicDictionary c /\
  VO (sizes (self w')) = opinionDictionary c /\
  DT (sizes (self w')) = corpus_len c /\
  outputs (self w') = outputs (self w).
Proof.
  intros Hrun c. unfold _initialize in Hrun. run_inv Hrun.
  injection Hstep as _ <-.
  set (P := fun w1 : world G =>
              VT (sizes (self w1)) = topicDictionary c /\
              VO (sizes (self w1)) = opinionDictionary c /\
              DT (sizes (self w1)) = corpus_len c /\
              outputs (self w1) = outputs (self w)).
  eapply (for_each_invariant P); [| |exact Hrun]; [|unfold P; cbn; tauto].
  intros [[[d persp] d_p] doc] w1 u1 w2 _ HP Hdoc.
  unfold init_document in Hdoc. run_inv Hdoc.
  eapply (for_each_invariant P); [| |exact Hdoc].
  - intros [w_id i] w3 u3 w4 _ HP3 Hword.
    unfold init_opinion_word in Hword. run_inv Hword.
    apply randint_Ok in Hstep0 as (_ & _ & _ & Hself & _).
    subst w4. unfold P in *. cbn in *. now rewrite Hself.
  - eapply (for_each_invariant P); [|exact HP|exact Hstep].
    intros [w_id i] w3 u3 w4 _ HP3 Hword.
    unfold init_topic_word in Hword. run_inv Hword.
    apply randint_Ok in Hstep0 as (_ & _ & _ & Hself & _).
    subst w4. unfold P in *. cbn in *. now rewrite Hself.
Qed.

(** Initialization with a positive number of topics leaves a valid state:
    the tables [ndk], [nkw], [nk], [ntd], [nrs], [ns] have the shapes that
    the corpus and [nTopics] give them and hold no negative count.  It
    keeps the configuration and what [run] had published before, and
    records the sizes of the corpus. *)
Theorem initialize_shaped (w : world G) (u : unit) (w' : world G) :
  _initialize w = Ok (u, w') ->
  (0 < nTopics (config (self w)))%Z ->
  let c := corpus (config (self w)) in
  shaped (self w') = true /\
  config (self w') = config (self w) /\
  outputs (self w') = outputs (self w) /\
  VT (sizes (self w')) = topicDictionary c /\
  VO (sizes (self w')) = opinionDictionary c /\
  DT (sizes (self w')) = corpus_len c.
Proof.
  intros Hinit HK c.
  pose proof (_initialize_sizes w u w' Hinit) as (HVT & HVO & HDT & Hout).
  pose proof (_initialize_config w u w' Hinit) as [Hcfg _].
  split; [|tauto].
  apply Shaped_shaped. revert Hinit. unfold _initialize. intros Hrun.
  run_inv Hrun. injection Hstep as _ <-.
  eapply (for_each_invariant (fun w => Shaped (self w))); [| |exact Hrun].
  - intros; eapply init_document_Shaped; eauto.
  - apply zeros2_Ok in Hlift0 as (-> & _ & _).
    apply zeros2_Ok in Hlift1 as (-> & _ & _).
    apply zeros_Ok in Hlift2 as (-> & _).
    apply zeros3_Ok in Hlift4 as (-> & _ & _ & _).
    apply zeros2_Ok in Hlift5 as (-> & _ & _).
    constructor; cbn; rewrite ?length_replicate, ?Nat2Z.id; try reflexivity.
    + exact HK.
    + apply Forall_replicate_rows.
    + apply Forall_replicate_rows.
    + apply Forall_replicate. lia.
    + apply Forall_replicate. split; [apply length_replicate|].
      apply Forall_replicate_rows.
    + apply Forall_replicate_rows.
Qed.

(** Initialization counts every token once: afterwards the entries of [nk]
    add up to the number of topic-word tokens that iterating the corpus
    yields, and the entries of [ns] to the number of opinion-word tokens. *)
Theorem initialize_counts_tokens (w : world G) (u : unit) (w' : world G) :
  _initialize w = Ok (u, w') ->
  let c := corpus (config (self w)) in
  zsum (nk (counts (self w'))) = Z.of_nat (topic_tokens c) /\
  zsum (map zsum (ns (counts (self w')))) = Z.of_nat (opinion_tokens c).
Proof.
  intros Hrun c. unfold _initialize in Hrun. run_inv Hrun.
  injection Hstep as _ <-.
  apply init_loop_totals in Hrun as [Ht Ho].
  unfold topic_total, opinion_total in Ht, Ho. cbn in Ht, Ho.
  apply zeros_Ok in Hlift2 as (-> & _).
  apply zeros2_Ok in Hlift5 as (-> & _ & _).
  rewrite zsum_replicate in Ht.
  rewrite map_replicate, zsum_replicate, zsum_replicate in Ho.
  fold c in Ht, Ho. unfold topic_tokens, opinion_tokens. split; lia.
Qed.

End InitShape.

Lemma initialize_shaped_witness :
  shaped (self Example.world1) = true /\
  config (self Example.world1) = config (self (Example.fresh 2 None)) /\
  outputs (self Example.world1) = outputs (self (Example.fresh 2 None)) /\
  VT (sizes (self Example.world1)) = 2%nat /\
  VO (sizes (self Example.world1)) = 2%nat /\
  DT (sizes (self Example.world1)) = 2%nat.
Proof.
  refine (initialize_shaped (Example.fresh 2 None) tt Example.world1 _ _).
  - vm_compute. reflexivity.
  - reflexivity.
Defined.

Lemma initialize_counts_tokens_witness :
  zsum (nk (counts (self Example.world1))) = 4%Z /\
  zsum (map zsum (ns (counts (self Example.world1)))) = 4%Z.
Proof.
  refine (initialize_counts_tokens (Example.fresh 2 None) tt Example.world1 _).
  vm_compute. reflexivity.
Defined.

Section SamplingNaN.
Context {G : Type} `{Generator G}.

Lemma binsearch_none_below (a : vec) (key : f64) :
  Forall (fun v => sort_lt v key = false) a ->
  forall fuel lo hi, binsearch fuel a key lo hi = lo.
Proof.
  intros Ha. induction fuel as [|fuel IH]; intros lo hi; [reflexivity|].
  cbn [binsearch]. destruct (lo <? hi)%nat; [|reflexivity].
  destruct (a !! (lo + (hi - lo) / 2)%nat) as [v|] eqn:Hv; [|reflexivity].
  rewrite (proj1 (Forall_lookup _ _) Ha _ _ Hv). apply IH.
Qed.

Lemma cumsum_from_nan (l : vec) : Forall (eq NaN) (cumsum_from NaN l).
Proof. induction l as [|a l IH]; constructor; [reflexivity | exact IH]. Qed.

(** A vector whose first entry is [nan] makes [sample_from] return label 0,
    whatever the draw: every running total is [nan], which the search
    takes for the largest value.  No error is raised, and the sampler is
    left as it was. *)
Theorem sample_from_nan (p : vec) (w : world G) :
  p !! 0%nat = Some NaN ->
  sample_from p w
  = Ok (0%nat, World (self w) (snd (next_unit (rng w))) (files w)).
Proof.
  intros Hp. destruct p as [|a p]; [discriminate|]. injection Hp as ->.
  unfold sample_from, bind, rand, ret.
  destruct (next_unit (rng w)) as [q g]. cbn [snd]. do 2 f_equal.
  unfold searchsorted. apply binsearch_none_below.
  cbn [cumsum]. constructor; [reflexivity|].
  eapply Forall_impl; [apply cumsum_from_nan|]. intros v <-. reflexivity.
Qed.

End SamplingNaN.

Lemma sample_from_nan_witness :
  sample_from [NaN; NaN] (Example.replay [700%Z])
  = Ok (0%nat, World (self (Example.replay [700%Z])) [] ∅).
Proof. exact (sample_from_nan [NaN; NaN] (Example.replay [700%Z]) eq_refl). Defined.

(** ** What [run] publishes *)

Section Publishing.
Context {G : Type} `{Generator G}.

Ltac keeps_cfg :=
  repeat first
    [ apply keeps_ret | apply keeps_lift | apply keeps_get_self
    | apply keeps_modify | apply keeps_rand
    | apply keeps_for_each; intros
    | apply keeps_bind; [|intros]
    | match goal with |- keeps_config (let '(_, _) := ?p in _) => destruct p end
    | match goal with |- keeps_config (if ?b then _ else _) => destruct b end ].

Lemma keeps_for_acc {A B} (l : list A) (acc : B) (body : A -> B -> M G B) :
  (forall a b, keeps_config (body a b)) -> keeps_config (for_acc l acc body).
Proof.
  intros Hbody. revert acc. induction l as [|a l IH]; intros acc; cbn [for_acc].
  - apply keeps_ret.
  - apply keeps_bind; [apply Hbody | intros acc'; apply IH].
Qed.

Lemma keeps_collect {A B} (f : A -> M G B) (l : list A) :
  (forall a, keeps_config (f a)) -> keeps_config (collect f l).
Proof.
  intros Hf. induction l as [|a l IH]; cbn [collect]; [apply keeps_ret|].
  apply keeps_bind; [apply Hf | intros b].
  apply keeps_bind; [exact IH | intros r; apply keeps_ret].
Qed.

Lemma keeps_to_csv (name : string) (t : nat) (v : mat) :
  keeps_config (to_csv (G:=G) name t v).
Proof. intros w a w' [= _ <-]. auto. Qed.

Lemma keeps_read_csv (name : string) (t : nat) :
  keeps_config (read_csv (G:=G) name t).
Proof.
  intros w a w'. unfold read_csv. destruct (files w !! (name, t)); [|discriminate].
  intros [= _ <-]. auto.
Qed.

Lemma keeps_theta_topic : keeps_config (theta_topic (G:=G)).
Proof. unfold theta_topic. keeps_cfg. Qed.

Lemma keeps_phi_topic : keeps_config (phi_topic (G:=G)).
Proof. unfold phi_topic. keeps_cfg. Qed.

Lemma keeps_phi_opinion (p : nat) : keeps_config (phi_opinion (G:=G) p).
Proof. unfold phi_opinion. keeps_cfg. Qed.

Lemma keeps_load_parameters (name : string) :
  keeps_config (load_parameters (G:=G) name).
Proof.
  unfold load_parameters. apply keeps_bind; [apply keeps_get_self | intros o].
  apply keeps_bind.
  - apply keeps_for_acc. intros i data.
    apply keeps_bind; [apply keeps_read_csv | intros ar].
    destruct data; apply keeps_ret.
  - intros [a|]; [apply keeps_ret | apply keeps_lift].
Qed.

Lemma keeps_keep_samples (P t : nat)
    (acc : list mat * list mat * list (list mat)) :
  keeps_config (keep_samples (G:=G) P t acc).
Proof.
  destruct acc as [[th pt] po]. unfold keep_samples.
  apply keeps_bind; [apply keeps_gibbs_inner | intros _].
  apply keeps_bind; [apply keeps_theta_topic | intros v].
  apply keeps_bind; [apply keeps_lift | intros th'].
  apply keeps_bind; [apply keeps_phi_topic | intros v'].
  apply keeps_bind; [apply keeps_lift | intros pt'].
  apply keeps_bind; [|intros po'; apply keeps_ret].
  unfold keep_opinions. apply keeps_for_acc. intros p po1.
  apply keeps_bind; [apply keeps_phi_opinion | intros v1; apply keeps_lift].
Qed.

Lemma keeps_write_samples (P t : nat) : keeps_config (write_samples (G:=G) P t).
Proof.
  unfold write_samples.
  apply keeps_bind; [apply keeps_gibbs_inner | intros _].
  apply keeps_bind; [apply keeps_theta_topic | intros v].
  apply keeps_bind; [apply keeps_to_csv | intros _].
  apply keeps_bind; [apply keeps_phi_topic | intros v'].
  apply keeps_bind; [apply keeps_to_csv | intros _].
  unfold write_opinions. apply keeps_for_each. intros p.
  apply keeps_bind; [apply keeps_phi_opinion | intros v1; apply keeps_to_csv].
Qed.

Lemma publishes_bind {A B} (m : M G A) (k : A -> M G B) :
  keeps_config m -> (forall a, publishes (k a)) -> publishes (bind m k).
Proof.
  intros Hm Hk w b w' Hrun. apply bind_Ok in Hrun as (a & w1 & H1 & H2).
  apply Hm in H1 as [Hc Hs]. apply Hk in H2 as (r & Hr).
  exists r. rewrite <- Hc, <- Hs. exact Hr.
Qed.

Lemma traverse_Forall2 {A B} (f : A -> result B) (l : list A) (r : list B) :
  traverse f l = Ok r -> Forall2 (fun a b => f a = Ok b) l r.
Proof.
  revert r. induction l as [|a l IH]; intros r; cbn [traverse].
  - intros [= <-]. constructor.
  - unfold rbind. destruct (f a) as [b|] eqn:Hb; [|discriminate].
    destruct (traverse f l) as [r'|]; [|discriminate].
    intros [= <-]. constructor; [exact Hb | now apply IH].
Qed.

Lemma to_df_by_word (t : mat) (v : nat) :
  by_word (to_df t (Some v)) = negb (v =? 0)%nat.
Proof. destruct v; reflexivity. Qed.

Lemma publishes_publish (a b : mat) (c : list mat) :
  publishes (publish (G:=G) a b c).
Proof.
  intros w u w' Hrun. unfold publish in Hrun. run_inv Hrun.
  injection Hrun as _ <-.
  eexists. split; [reflexivity|].
  cbn [topics opinions document_topic_matrix self config sizes set_outputs].
  pose proof (traverse_Forall2 _ _ _ Hlift) as Hall.
  split; [|split; [|split; [|split; [reflexivity|auto]]]].
  - apply Forall2_length in Hall. now rewrite length_seq in Hall.
  - apply to_df_by_word.
  - clear Hlift. induction Hall as [|p df ps dfs Hp _ IH]; constructor; [|exact IH].
    unfold rbind in Hp. destruct (get c p); [|discriminate].
    injection Hp as <-. apply to_df_by_word.
Qed.

Lemma publishes_run_in_memory : publishes (run_in_memory (G:=G)).
Proof.
  unfold run_in_memory.
  apply publishes_bind; [apply keeps_get_self | intros o].
  apply publishes_bind; [apply keeps_lift | intros theta0].
  apply publishes_bind; [apply keeps_lift | intros phiT0].
  apply publishes_bind; [apply keeps_lift | intros phiO0].
  apply publishes_bind.
  { apply keeps_for_acc. intros t acc. apply keeps_keep_samples. }
  intros [[th pt] po].
  apply publishes_bind; [apply keeps_lift | intros phiO].
  apply publishes_publish.
Qed.

Lemma publishes_run_persisted : publishes (run_persisted (G:=G)).
Proof.
  unfold run_persisted.
  apply publishes_bind; [apply keeps_get_self | intros o].
  apply publishes_bind.
  { apply keeps_for_each. intros t. apply keeps_write_samples. }
  intros _.
  apply publishes_bind; [apply keeps_load_parameters | intros theta].
  apply publishes_bind; [apply keeps_load_parameters | intros phiT].
  apply publishes_bind.
  { apply keeps_collect. intros p. apply keeps_load_parameters. }
  intros phiO. apply publishes_publish.
Qed.

Lemma publishes_run : publishes (run (G:=G)).
Proof.
  unfold run. apply publishes_bind; [apply keeps_get_self | intros o].
  destruct (truthy (out_dir (config o)));
    [apply publishes_run_persisted | apply publishes_run_in_memory].
Qed.

(** When [run] returns, in either mode and whatever the number of
    iterations, the attributes [topics], [opinions] and
    [document_topic_matrix] exist, [opinions] holds one table per
    perspective, and the configuration and the sizes are unchanged.  The
    tables of [topics] and [opinions] are labelled by the words and
    transposed only when the vocabulary is not empty: with an empty
    vocabulary [to_df] takes the branch of the document-topic matrix. *)
Theorem run_publishes (w : world G) (u : unit) (w' : world G) :
  run w = Ok (u, w') -> published w w'.
Proof. apply publishes_run. Qed.

End Publishing.

Lemma run_publishes_witness :
  published Example.world1 (Example.after run Example.world1).
Proof.
  refine (run_publishes Example.world1 tt (Example.after run Example.world1) _).
  vm_compute. reflexivity.
Defined.

(** ** Writing the results *)

Lemma append_assoc (a b c : string) : (a +:+ b) +:+ c = a +:+ b +:+ c.
Proof.
  induction a as [|x a IH]; [reflexivity|].
  change (String x ((a +:+ b) +:+ c) = String x (a +:+ b +:+ c)). now rewrite IH.
Qed.

Lemma list_ascii_append (a b : string) :
  String.list_ascii_of_string (a +:+ b)
  = String.list_ascii_of_string a ++ String.list_ascii_of_string b.
Proof.
  induction a as [|x a IH]; [reflexivity|].
  change (x :: String.list_ascii_of_string (a +:+ b)
          = x :: (String.list_ascii_of_string a ++ String.list_ascii_of_string b)).
  now rewrite IH.
Qed.

Lemma list_ascii_inj (a b : string) :
  String.list_ascii_of_string a = String.list_ascii_of_string b -> a = b.
Proof.
  intros Heq. rewrite <- (String.string_of_list_ascii_of_string a),
    <- (String.string_of_list_ascii_of_string b). now rewrite Heq.
Qed.

Lemma append_inj_suffix (a b s : string) : a +:+ s = b +:+ s -> a = b.
Proof.
  intros Heq. apply list_ascii_inj.
  apply (f_equal String.list_ascii_of_string) in Heq.
  rewrite !list_ascii_append in Heq. now apply app_inv_tail in Heq.
Qed.

Lemma path_join_relative (a b : string) :
  starts_with_slash b = false -> path_join a b = dir_prefix a +:+ b.
Proof.
  intros Hb. unfold path_join, dir_prefix. rewrite Hb.
  destruct a as [|x a]; [reflexivity|].
  destruct (ends_with_slash (String x a)); [reflexivity|].
  now rewrite append_assoc.
Qed.

Lemma path_join_inj (a b c : string) :
  starts_with_slash b = false -> starts_with_slash c = false ->
  path_join a b = path_join a c -> b = c.
Proof.
  intros Hb Hc. rewrite !path_join_relative by assumption.
  apply String.app_inj.
Qed.

Lemma opinions_file_inj (n m : string) : opinions_file n = opinions_file m -> n = m.
Proof.
  unfold opinions_file. intros Heq. apply String.app_inj in Heq.
  now apply append_inj_suffix in Heq.
Qed.

Lemma opinions_file_relative (n : string) :
  starts_with_slash (opinions_file n) = false.
Proof. reflexivity. Qed.

Lemma opinions_path_inj (a n m : string) :
  path_join a (opinions_file n) = path_join a (opinions_file m) -> n = m.
Proof.
  intros Heq. apply opinions_file_inj.
  apply (path_join_inj a); auto using opinions_file_relative.
Qed.

Lemma opinions_path_not_topics (a n : string) :
  path_join a (opinions_file n) <> path_join a "topics.csv".
Proof.
  intros Heq. apply path_join_inj in Heq; [|reflexivity..]. discriminate.
Qed.

Lemma opinions_path_not_document (a n : string) :
  path_join a (opinions_file n) <> path_join a "document-topic.csv".
Proof.
  intros Heq. apply path_join_inj in Heq; [|reflexivity..]. discriminate.
Qed.

Lemma topics_path_not_document (a : string) :
  path_join a "topics.csv" <> path_join a "document-topic.csv".
Proof.
  intros Heq. apply path_join_inj in Heq; [|reflexivity..]. discriminate.
Qed.

(** What the loop over the perspectives [p0, p0+1, ...] leaves. *)
Lemma write_opinion_files_spec (path : string) (names : list string)
    (ops : list DataFrame) (k p0 : nat) (disk : Disk) :
  (p0 + k <= length names)%nat ->
  (p0 + k <= length ops)%nat ->
  exists disk' : Disk,
    write_opinion_files path names ops (seq p0 k) disk = (disk', None) /\
    (forall (p : nat) (n : string) (df : DataFrame),
       (p0 <= p < p0 + k)%nat ->
       names !! p = Some n -> ops !! p = Some df ->
       (forall q : nat, (p < q < p0 + k)%nat -> names !! q <> Some n) ->
       disk' !! path_join path (opinions_file n) = Some df) /\
    (forall f : string,
       (forall (p : nat) (n : string),
          (p0 <= p < p0 + k)%nat -> names !! p = Some n ->
          f <> path_join path (opinions_file n)) ->
       disk' !! f = disk !! f).
Proof.
  revert p0 disk. induction k as [|k IH]; intros p0 disk Hn Ho.
  - exists disk. split; [reflexivity|]. split; [intros; lia | reflexivity].
  - cbn [seq write_opinion_files].
    destruct (lookup_lt_is_Some_2 names p0) as [n0 Hn0]; [lia|].
    destruct (lookup_lt_is_Some_2 ops p0) as [df0 Hdf0]; [lia|].
    rewrite Hn0, Hdf0.
    destruct (IH (S p0) (<[path_join path (opinions_file n0) := df0]> disk))
      as (disk' & Hrun & Hlast & Hother); [lia..|].
    exists disk'. split; [exact Hrun|]. split.
    + intros p n df Hp Hpn Hpdf Hlater.
      destruct (decide (p = p0)) as [->|Hne].
      * etransitivity; [apply Hother|].
        -- intros q m Hq Hqm Heq. apply opinions_path_inj in Heq. subst m.
           apply (Hlater q); [lia | exact Hqm].
        -- assert (n = n0) by congruence. assert (df = df0) by congruence.
           subst. apply lookup_insert_eq.
      * apply (Hlast p n df); try assumption; [lia|]. intros q Hq. apply Hlater. lia.
    + intros f Hf. etransitivity; [apply Hother|].
      * intros p n Hp. apply Hf. lia.
      * apply lookup_insert_ne. intros Heq.
        apply (Hf p0 n0); [lia | exact Hn0 | now symmetry].
Qed.

Lemma csv_written (names : list string) (o : GibbsSampler)
    (r : Outputs) (disk : Disk) :
  outputs o = Some r ->
  length (opinions r) = nPerspectives (config o) ->
  length names = nPerspectives (config o) ->
  let dir := if truthy (out_dir (config o)) then results_dir o else EmptyString in
  exists disk' : Disk,
    topics_and_opinions_to_csv names o disk = (disk', None) /\
    disk' !! path_join dir "topics.csv" = Some (topics r) /\
    disk' !! path_join dir "document-topic.csv"
    = Some (document_topic_matrix r) /\
    (forall (p : nat) (n : string) (df : DataFrame),
       names !! p = Some n -> opinions r !! p = Some df ->
       (forall q : nat, (p < q)%nat -> names !! q <> Some n) ->
       disk' !! path_join dir (opinions_file n) = Some df) /\
    (forall f : string,
       f <> path_join dir "topics.csv" ->
       f <> path_join dir "document-topic.csv" ->
       (forall n : string, n ∈ names -> f <> path_join dir (opinions_file n)) ->
       disk' !! f = disk !! f).
Proof.
  intros Hout Hops Hnames dir. unfold topics_and_opinions_to_csv.
  rewrite Hout.
  assert (Hdir : match out_dir (config o) with
                 | Some d => if truthy (Some d) then d else EmptyString
                 | None => EmptyString
                 end = dir).
  { unfold dir, results_dir. destruct (out_dir (config o)); reflexivity. }
  rewrite Hdir. cbv zeta.
  set (disk2 := <[path_join dir "document-topic.csv" := document_topic_matrix r]>
                  (<[path_join dir "topics.csv" := topics r]> disk)).
  destruct (write_opinion_files_spec dir names (opinions r)
              (nPerspectives (config o)) 0 disk2)
    as (disk' & Hrun & Hlast & Hother); [lia..|].
  exists disk'. split; [exact Hrun|].
  split; [|split; [|split]].
  - etransitivity; [apply Hother|].
    + intros p n _ _ Heq. symmetry in Heq. now apply opinions_path_not_topics in Heq.
    + unfold disk2.
      rewrite lookup_insert_ne by (apply not_eq_sym, topics_path_not_document).
      apply lookup_insert_eq.
  - etransitivity; [apply Hother|]; [|apply lookup_insert_eq].
    intros p n _ _ Heq. symmetry in Heq. now apply opinions_path_not_document in Heq.
  - intros p n df Hn Hdf Hlater. apply (Hlast p n df); try assumption.
    + apply lookup_lt_Some in Hn. lia.
    + intros q Hq. apply Hlater. lia.
  - intros f Ht Hd Hn. etransitivity; [apply Hother|].
    + intros p n _ Hpn. apply Hn. eapply list_elem_of_lookup_2; eauto.
    + unfold disk2. now rewrite !lookup_insert_ne by congruence.
Qed.

(** Once [run] has published its tables, on a sampler with one name and one
    table of opinions per perspective (names without a slash, so that every
    file lies in the results directory itself), [topics_and_opinions_to_csv]
    raises nothing and writes [topics.csv], [document-topic.csv] and one
    file [opinions_<name>.csv] per name: two perspectives of the same name
    share a file, which ends up with the table of the last of them.  No
    other file is touched. *)
Theorem results_written (names : list string) (o : GibbsSampler)
    (r : Outputs) (disk : Disk) :
  outputs o = Some r ->
  length (opinions r) = nPerspectives (config o) ->
  length names = nPerspectives (config o) ->
  Forall (fun n => no_slash n = true) names ->
  let dir := if truthy (out_dir (config o)) then results_dir o else EmptyString in
  exists disk' : Disk,
    topics_and_opinions_to_csv names o disk = (disk', None) /\
    disk' !! path_join dir "topics.csv" = Some (topics r) /\
    disk' !! path_join dir "document-topic.csv"
    = Some (document_topic_matrix r) /\
    (forall (p : nat) (n : string) (df : DataFrame),
       names !! p = Some n -> opinions r !! p = Some df ->
       (forall q : nat, (p < q)%nat -> names !! q <> Some n) ->
       disk' !! path_join dir (opinions_file n) = Some df) /\
    (forall f : string,
       f <> path_join dir "topics.csv" ->
       f <> path_join dir "document-topic.csv" ->
       (forall n : string, n ∈ names -> f <> path_join dir (opinions_file n)) ->
       disk' !! f = disk !! f).
Proof. intros Hout Hops Hnames _. now apply csv_written. Qed.

Lemma results_written_witness :
  let df (n : Z) := {| frame := [[of_int n]]; by_word := true |} in
  let r := {| topics := df 1%Z; opinions := [df 2%Z; df 3%Z];
              document_topic_matrix := df 4%Z |} in
  let o := set_outputs r
             (__init__ Example.corpus0 2 Example.tenth Example.tenth
                Example.tenth 2 (Some "out"%string)) in
  let names := ["gov"; "gov"]%string in
  exists disk' : Disk,
    topics_and_opinions_to_csv names o ∅ = (disk', None) /\
    disk' !! path_join "out" "topics.csv" = Some (topics r) /\
    disk' !! path_join "out" "document-topic.csv"
    = Some (document_topic_matrix r) /\
    (forall (p : nat) (n : string) (df : DataFrame),
       names !! p = Some n -> opinions r !! p = Some df ->
       (forall q : nat, (p < q)%nat -> names !! q <> Some n) ->
       disk' !! path_join "out" (opinions_file n) = Some df) /\
    (forall f : string,
       f <> path_join "out" "topics.csv" ->
       f <> path_join "out" "document-topic.csv" ->
       (forall n : string, n ∈ names -> f <> path_join "out" (opinions_file n)) ->
       disk' !! f = (∅ : Disk) !! f).
Proof.
  intros df r o names.
  refine (results_written names o r ∅ _ _ _ _).
  - reflexivity.
  - reflexivity.
  - reflexivity.
  - repeat constructor.
Defined.

Section Pipeline.
Context {G : Type} `{Generator G}.

(** Before [run] there is nothing to write: called on the sampler as
    [__init__] leaves it, or after [_initialize], the method
    [topics_and_opinions_to_csv] raises [AttributeError] and writes no
    file. *)
Theorem results_need_run (c : Corpus) (K : Z) (a b bo : f64) (n : Z)
    (dir : option string) (seed : G) (f : Files) (names : list string)
    (disk : Disk) :
  let o := __init__ c K a b bo n dir in
  topics_and_opinions_to_csv names o disk = (disk, Some AttributeError) /\
  (forall (u : unit) (w' : world G),
     _initialize (World o seed f) = Ok (u, w') ->
     topics_and_opinions_to_csv names (self w') disk
     = (disk, Some AttributeError)).
Proof.
  intros o. split; [reflexivity|]. intros u w' Hinit.
  apply _initialize_sizes in Hinit as (_ & _ & _ & Hout). cbn [self] in Hout.
  unfold topics_and_opinions_to_csv. now rewrite Hout.
Qed.

(** After a successful [run], with one name per perspective,
    [topics_and_opinions_to_csv] raises nothing. *)
Theorem results_after_run (w : world G) (u : unit) (w' : world G)
    (names : list string) (disk : Disk) :
  run w = Ok (u, w') ->
  length names = nPerspectives (config (self w)) ->
  Forall (fun n => no_slash n = true) names ->
  snd (topics_and_opinions_to_csv names (self w') disk) = None.
Proof.
  intros Hrun Hnames _.
  apply publishes_run in Hrun as (r & Hout & Hlen & _ & _ & _ & Hcfg & _).
  destruct (csv_written names (self w') r disk Hout) as (disk' & -> & _);
    [congruence.. | reflexivity].
Qed.

End Pipeline.

Lemma results_after_run_witness :
  snd (topics_and_opinions_to_csv ["gov"; "opp"]%string
         (self (Example.after run Example.world1)) ∅) = None.
Proof.
  refine (results_after_run Example.world1 tt (Example.after run Example.world1)
            ["gov"; "opp"]%string ∅ _ _ _).
  - vm_compute. reflexivity.
  - reflexivity.
  - repeat constructor.
Defined.

(** ** The preparation script *)

Section CoalitionLookup.
Import Folia.

Lemma increasing_sorted (dates : list Z) :
  increasing dates -> sorted (map inject_Z dates).
Proof.
  intros Hinc i j x y Hij Hx Hy. rewrite map_fmap in Hx, Hy.
  apply list_lookup_fmap_Some in Hx as (a & -> & Ha).
  apply list_lookup_fmap_Some in Hy as (b & -> & Hb).
  rewrite <- Zle_Qle. destruct (decide (i = j)) as [->|Hne].
  - assert (a = b) by congruence. lia.
  - assert (a < b)%Z by (apply (Hinc i j); [lia | assumption..]). lia.
Qed.

Lemma increasing_tail (x : Z) (dates : list Z) :
  increasing (x :: dates) -> increasing dates.
Proof. intros Hinc i j a b Hij Ha Hb. apply (Hinc (S i) (S j)); [lia | assumption..]. Qed.

Lemma filter_label_none (label : Z) (coalitions : Coalitions) :
  (forall row, row ∈ coalitions -> fst row <> label) ->
  filter (fun row => fst row = label) coalitions = [].
Proof.
  intros Hne. induction coalitions as [|r rest IH]; [reflexivity|].
  rewrite filter_cons. destruct (decide (fst r = label)) as [Heq|_].
  - exfalso. apply (Hne r); [left | exact Heq].
  - apply IH. intros row Hin. apply Hne. now right.
Qed.

Lemma lookup_map_fst {A B} (l : list (A * B)) (j : nat) (r : A * B) :
  l !! j = Some r -> map fst l !! j = Some (fst r).
Proof. intros Hr. now rewrite map_fmap, list_lookup_fmap, Hr. Qed.

Lemma filter_label_unique (coalitions : Coalitions) (k : nat)
    (row : Z * list (option string)) :
  increasing (map fst coalitions) ->
  coalitions !! k = Some row ->
  filter (fun r => fst r = fst row) coalitions = [row].
Proof.
  revert k. induction coalitions as [|r rest IH]; intros k Hinc Hk; [discriminate|].
  rewrite filter_cons. destruct k as [|k]; cbn in Hk.
  - injection Hk as ->. rewrite decide_True by reflexivity. f_equal.
    apply filter_label_none. intros r' Hin Heq.
    apply list_elem_of_lookup_1 in Hin as [j Hj].
    assert (fst row < fst r')%Z; [|lia].
    apply (Hinc 0%nat (S j)); [lia | reflexivity |].
    apply (lookup_map_fst rest j r' Hj).
  - assert (fst r < fst row)%Z.
    { apply (Hinc 0%nat (S k)); [lia | reflexivity |].
      apply (lookup_map_fst rest k row Hk). }
    rewrite decide_False by lia.
    apply (IH k); [|exact Hk]. eapply increasing_tail. exact Hinc.
Qed.

Lemma searchsorted_dates (dates : list Z) (d : Z) :
  increasing dates ->
  let i := searchsorted (map of_int dates) (of_int d) in
  (i <= length dates)%nat /\
  (forall j x, (j < i)%nat -> dates !! j = Some x -> (x < d)%Z) /\
  (forall j x, (i <= j)%nat -> dates !! j = Some x -> (d <= x)%Z).
Proof.
  intros Hinc.
  pose proof (searchsorted_spec (map inject_Z dates) (inject_Z d)
                (increasing_sorted dates Hinc)) as Hspec.
  cbv zeta in Hspec. rewrite map_map, length_map in Hspec.
  change (map (fun x => Fin (inject_Z x)) dates) with (map of_int dates) in Hspec.
  change (Fin (inject_Z d)) with (of_int d) in Hspec.
  destruct Hspec as (Hlen & Hlow & Hhigh).
  split; [exact Hlen|]. split.
  - intros j x Hj Hx. rewrite Zlt_Qlt. apply (Hlow j); [exact Hj|].
    rewrite map_fmap, list_lookup_fmap, Hx. reflexivity.
  - intros j x Hj Hx. rewrite Zle_Qle. apply (Hhigh j); [exact Hj|].
    rewrite map_fmap, list_lookup_fmap, Hx. reflexivity.
Qed.

(** The coalition that the script takes to be in office on day [d], the
    start dates of the table increasing strictly.  It is the last coalition
    that started strictly before [d]: on the very day a coalition starts,
    the one before it is still taken.  For a day on or before the first
    start date, the index [i-1] is [-1] and the last coalition of the table
    is taken. *)
Theorem coalition_on_date (coalitions : Coalitions) (d : Z) :
  increasing (map fst coalitions) ->
  (forall (k : nat) (row : Z * list (option string)),
     coalitions !! k = Some row -> (fst row < d)%Z ->
     (forall next, coalitions !! S k = Some next -> (d <= fst next)%Z) ->
     coalition_on coalitions d = Done (named_parties (snd row))) /\
  (forall row : Z * list (option string),
     last coalitions = Some row ->
     (forall first, coalitions !! 0%nat = Some first -> (d <= fst first)%Z) ->
     coalition_on coalitions d = Done (named_parties (snd row))).
Proof.
  intros Hinc.
  pose proof (searchsorted_dates (map fst coalitions) d Hinc) as Hsearch.
  cbv zeta in Hsearch. rewrite length_map in Hsearch.
  destruct Hsearch as (Hlen & Hlow & Hhigh).
  unfold coalition_on.
  set (i := searchsorted (map of_int (map fst coalitions)) (of_int d)) in *.
  pose proof (lookup_map_fst coalitions) as Hdate.
  split.
  - intros k row Hk Hbefore Hnext.
    assert (Hi : i = S k).
    { destruct (Nat.lt_trichotomy i (S k)) as [Hlt | [Heq | Hgt]]; [|exact Heq|].
      - pose proof (Hhigh k (fst row) ltac:(lia) (Hdate k row Hk)). lia.
      - destruct (lookup_lt_is_Some_2 coalitions (S k)) as [next Hn]; [lia|].
        pose proof (Hlow (S k) (fst next) Hgt (Hdate _ _ Hn)).
        pose proof (Hnext next Hn). lia. }
    rewrite Hi. unfold py_index. rewrite length_map.
    replace (Z.of_nat (S k) - 1)%Z with (Z.of_nat k) by lia.
    assert (Hk0 : (Z.of_nat k <? 0)%Z = false) by (apply Z.ltb_ge; lia).
    rewrite !Hk0, Nat2Z.id, (Hdate k row Hk). cbn [and_then].
    now rewrite (filter_label_unique coalitions k row Hinc Hk).
  - intros row Hlast Hfirst.
    assert (Hne : (0 < length coalitions)%nat).
    { destruct coalitions; [discriminate | cbn; lia]. }
    assert (Hi : i = 0%nat).
    { destruct i as [|i']; [reflexivity|].
      destruct (lookup_lt_is_Some_2 coalitions 0%nat) as [first Hf]; [lia|].
      pose proof (Hlow 0%nat (fst first) ltac:(lia) (Hdate _ _ Hf)).
      pose proof (Hfirst first Hf). lia. }
    rewrite Hi. unfold py_index. rewrite length_map.
    change (Z.of_nat 0 - 1)%Z with (-1)%Z. cbn [Z.ltb Z.compare].
    assert (Hk0 : (Z.of_nat (length coalitions) + -1 <? 0)%Z = false)
      by (apply Z.ltb_ge; lia).
    rewrite Hk0. rewrite last_lookup in Hlast.
    replace (Z.to_nat (Z.of_nat (length coalitions) + -1))
      with (Init.Nat.pred (length coalitions)) by lia.
    rewrite (Hdate _ row Hlast). cbn [and_then].
    now rewrite (filter_label_unique coalitions _ row Hinc Hlast).
Qed.

End CoalitionLookup.

Section ScriptProperties.
Import Folia.

Variable extractOne : string -> list string -> string * Z.
Variable ratio : string -> string -> Z.

Lemma sum_update (h : Perspective -> nat) (m : gmap string Perspective)
    (k : string) (p p' : Perspective) :
  m !! k = Some p ->
  (map_fold (fun _ q n => (h q + n)%nat) 0%nat (<[k := p']> m) + h p
   = map_fold (fun _ q n => (h q + n)%nat) 0%nat m + h p')%nat.
Proof.
  intros Hk. rewrite <- insert_delete_eq.
  rewrite map_fold_insert_L; [|intros; lia | apply lookup_delete_eq].
  rewrite (map_fold_delete_L _ _ k p m); [lia | intros; lia | exact Hk].
Qed.

Lemma sum_insert_new (h : Perspective -> nat) (m : gmap string Perspective)
    (k : string) (p' : Perspective) :
  m !! k = None -> h p' = 0%nat ->
  map_fold (fun _ q n => (h q + n)%nat) 0%nat (<[k := p']> m)
  = map_fold (fun _ q n => (h q + n)%nat) 0%nat m.
Proof.
  intros Hk Hp. rewrite map_fold_insert_L; [lia | intros; lia | exact Hk].
Qed.

Lemma resolve_party_sums (h : Perspective -> nat) (party : string)
    (d : gmap string Perspective) :
  (forall n, h (__init__ n) = 0%nat) ->
  let '(party', d') := resolve_party extractOne ratio party d in
  is_Some (d' !! party') /\
  map_fold (fun _ q n => (h q + n)%nat) 0%nat d'
  = map_fold (fun _ q n => (h q + n)%nat) 0%nat d.
Proof.
  intros Hh. unfold resolve_party.
  destruct (d !! party) as [p|] eqn:Hparty; [split; [eauto | reflexivity]|].
  destruct (extractOne party known_parties) as [p score1].
  destruct ((90 <=? score1)%Z && (90 <=? ratio party p)%Z).
  - destruct (d !! p) as [q|] eqn:Hp; [split; [eauto | reflexivity]|].
    split; [rewrite lookup_insert_eq; eauto|]. now apply sum_insert_new.
  - split; [rewrite lookup_insert_eq; eauto|]. now apply sum_insert_new.
Qed.

Lemma append_word_topic (party : string) (g : bool) (l : option string)
    (st st' : State) :
  balanced st ->
  append_word party g (add_topic_word l) st = Done st' ->
  balanced st' /\ num_speech st' = num_speech st /\
  num_speech_without_party st' = num_speech_without_party st /\
  coalition_parties st' = coalition_parties st.
Proof.
  intros [Ht Ho]. unfold append_word.
  destruct (data st !! party) as [p|] eqn:Hp; [|discriminate].
  intros [= <-]. split; [|auto]. unfold balanced, party_topic_words,
    party_opinion_words in *. cbn [data government opposition on_go set_data].
  pose proof (sum_update (fun q => length (topic_words q)) (data st) party p
                (add_topic_word l p) Hp) as Hsum_t.
  pose proof (sum_update (fun q => length (opinion_words q)) (data st) party p
                (add_topic_word l p) Hp) as Hsum_o.
  cbn [add_topic_word topic_words opinion_words] in Hsum_t, Hsum_o.
  rewrite length_app in Hsum_t. cbn [length] in Hsum_t.
  destruct g; cbn [add_topic_word topic_words opinion_words];
    rewrite ?length_app; cbn [length]; lia.
Qed.

Lemma append_word_opinion (party : string) (g : bool) (l : option string)
    (st st' : State) :
  balanced st ->
  append_word party g (add_opinion_word l) st = Done st' ->
  balanced st' /\ num_speech st' = num_speech st /\
  num_speech_without_party st' = num_speech_without_party st /\
  coalition_parties st' = coalition_parties st.
Proof.
  intros [Ht Ho]. unfold append_word.
  destruct (data st !! party) as [p|] eqn:Hp; [|discriminate].
  intros [= <-]. split; [|auto]. unfold balanced, party_topic_words,
    party_opinion_words in *. cbn [data government opposition on_go set_data].
  pose proof (sum_update (fun q => length (topic_words q)) (data st) party p
                (add_opinion_word l p) Hp) as Hsum_t.
  pose proof (sum_update (fun q => length (opinion_words q)) (data st) party p
                (add_opinion_word l p) Hp) as Hsum_o.
  cbn [add_opinion_word topic_words opinion_words] in Hsum_t, Hsum_o.
  rewrite length_app in Hsum_o. cbn [length] in Hsum_o.
  destruct g; cbn [add_opinion_word topic_words opinion_words];
    rewrite ?length_app; cbn [length]; lia.
Qed.

Lemma add_word_balanced (party : string) (g : bool) (w : Word) (st st' : State) :
  balanced st ->
  add_word party g w st = Done st' ->
  balanced st' /\ num_speech st' = num_speech st /\
  num_speech_without_party st' = num_speech_without_party st /\
  coalition_parties st' = coalition_parties st.
Proof.
  intros Hb. unfold add_word.
  destruct (pos w) as [pos_|]; [|discriminate].
  destruct (lemma w) as [l|]; [|discriminate].
  destruct (is_in pos_ pos_topic_words).
  - destruct (append_word party g (add_topic_word l) st) as [st1|] eqn:H1;
      [|discriminate].
    apply append_word_topic in H1 as (Hb1 & Hn1 & Hw1 & Hc1); [|exact Hb].
    cbn [and_then]. destruct (is_in pos_ pos_opinion_words).
    + intros H2. apply append_word_opinion in H2 as (Hb2 & Hn2 & Hw2 & Hc2);
        [|exact Hb1]. repeat split; try apply Hb2; congruence.
    + intros [= <-]. auto.
  - cbn [and_then]. destruct (is_in pos_ pos_opinion_words).
    + intros H2. now apply append_word_opinion in H2.
    + intros [= <-]. auto.
Qed.

Lemma add_words_balanced (party : string) (g : bool) (ws : list Word)
    (st st' : State) :
  balanced st ->
  add_words party g ws st = Done st' ->
  balanced st' /\ num_speech st' = num_speech st /\
  num_speech_without_party st' = num_speech_without_party st /\
  coalition_parties st' = coalition_parties st.
Proof.
  revert st. induction ws as [|w ws IH]; intros st Hb; cbn [add_words].
  - intros [= <-]. auto.
  - destruct (add_word party g w st) as [st1|] eqn:H1; [|discriminate].
    apply add_word_balanced in H1 as (Hb1 & Hn1 & Hw1 & Hc1); [|exact Hb].
    cbn [and_then]. intros H2. apply IH in H2 as (Hb2 & Hn2 & Hw2 & Hc2);
      [|exact Hb1]. repeat split; try apply Hb2; congruence.
Qed.

Lemma step_balanced (coalitions : Coalitions) (ev : Event) (st st' : State) :
  balanced st ->
  step extractOne ratio coalitions ev st = Done st' ->
  balanced st' /\
  num_speech st' = ((if is_speech ev then 1 else 0) + num_speech st)%nat /\
  num_speech_without_party st'
  = ((if without_party ev then 1 else 0) + num_speech_without_party st)%nat.
Proof.
  intros Hb. destruct ev as [[d|]|party ws]; cbn [step is_speech without_party].
  - destruct (coalition_on coalitions d) as [cp|]; [|discriminate].
    intros [= <-]. auto.
  - discriminate.
  - destruct party as [[|c party]|]; try (intros [= <-]; auto).
    pose proof (resolve_party_sums (fun q => length (topic_words q))
                  (replace_slash (String c party)) (data (count_speech st))
                  (fun _ => eq_refl)) as Hrt.
    pose proof (resolve_party_sums (fun q => length (opinion_words q))
                  (replace_slash (String c party)) (data (count_speech st))
                  (fun _ => eq_refl)) as Hro.
    destruct (resolve_party extractOne ratio (replace_slash (String c party))
                (data (count_speech st))) as [party' d'].
    destruct Hrt as [_ Hrt]. destruct Hro as [_ Hro].
    cbn [coalition_parties set_data count_speech].
    destruct (coalition_parties st) as [cp|]; [|discriminate].
    intros Hadd. apply add_words_balanced in Hadd as (Hb' & Hn & Hw & _).
    + split; [exact Hb'|]. rewrite Hn, Hw. cbn. auto.
    + destruct Hb as [Ht Ho]. split.
      * unfold party_topic_words in *. cbn in *. congruence.
      * unfold party_opinion_words in *. cbn in *. congruence.
Qed.

Lemma start_balanced (cp : option (list string)) : balanced (start cp).
Proof. split; vm_compute; reflexivity. Qed.

Lemma process_balanced (coalitions : Coalitions) (evs : list Event)
    (st st' : State) :
  balanced st ->
  process extractOne ratio coalitions evs st = Done st' ->
  balanced st' /\
  num_speech st' = (count_events is_speech evs + num_speech st)%nat /\
  num_speech_without_party st'
  = (count_events without_party evs + num_speech_without_party st)%nat.
Proof.
  revert st. induction evs as [|ev evs IH]; intros st Hb; cbn [process].
  - intros [= <-]. auto.
  - destruct (step extractOne ratio coalitions ev st) as [st1|] eqn:H1;
      [|discriminate].
    apply step_balanced in H1 as (Hb1 & Hn1 & Hw1); [|exact Hb].
    cbn [and_then]. intros H2. apply IH in H2 as (Hb2 & Hn2 & Hw2); [|exact Hb1].
    split; [exact Hb2|]. unfold count_events in *. cbn [List.filter].
    destruct (is_speech ev), (without_party ev); cbn [length]; lia.
Qed.

Lemma append_word_words (sel : Perspective -> list (option string))
    (f : Perspective -> Perspective)
    (added : list (option string)) (party : string) (g : bool)
    (st st' : State) :
  (forall p, sel (f p) = sel p ++ added) ->
  append_word party g f st = Done st' ->
  go_words sel st' ≡ₚ go_words sel st ++ added /\
  party_words sel st' ≡ₚ party_words sel st ++ added.
Proof.
  intros Hf. unfold append_word.
  destruct (data st !! party) as [p|] eqn:Hp; [|discriminate].
  intros [= <-]. split.
  - unfold go_words. cbn [government opposition on_go set_data].
    destruct g; rewrite Hf, <- ?app_assoc; [|reflexivity].
    apply Permutation_app_head, Permutation_app_comm.
  - unfold party_words. cbn [data on_go set_data].
    rewrite <- (insert_delete_eq (data st)).
    rewrite (Permutation_flat_map _
               (map_to_list_insert (delete party (data st)) party (f p)
                  (lookup_delete_eq _ _))).
    rewrite <- (Permutation_flat_map _
                  (map_to_list_delete (data st) party p Hp)).
    cbn [flat_map snd]. rewrite Hf, <- !app_assoc.
    apply Permutation_app_head, Permutation_app_comm.
Qed.

Lemma add_word_words (topic : bool) (party : string) (g : bool)
    (w : Word) (st st' : State) :
  add_word party g w st = Done st' ->
  let added := if kept (side_tags topic) w then [lemma_class w] else [] in
  go_words (side_words topic) st' ≡ₚ go_words (side_words topic) st ++ added /\
  party_words (side_words topic) st' ≡ₚ party_words (side_words topic) st ++ added.
Proof.
  unfold add_word, kept, lemma_class.
  destruct (pos w) as [pos_|]; [|discriminate].
  destruct (lemma w) as [l|]; [|discriminate].
  assert (Htopic : forall st1 st2,
            append_word party g (add_topic_word l) st1 = Done st2 ->
            let added := if topic then [l] else [] in
            go_words (side_words topic) st2 ≡ₚ go_words (side_words topic) st1 ++ added /\
            party_words (side_words topic) st2
            ≡ₚ party_words (side_words topic) st1 ++ added).
  { intros st1 st2 Happ added.
    apply (append_word_words (side_words topic) _ added) in Happ; [exact Happ|].
    intros p. unfold added. destruct topic; cbn; now rewrite ?app_nil_r. }
  assert (Hopinion : forall st1 st2,
            append_word party g (add_opinion_word l) st1 = Done st2 ->
            let added := if topic then [] else [l] in
            go_words (side_words topic) st2 ≡ₚ go_words (side_words topic) st1 ++ added /\
            party_words (side_words topic) st2
            ≡ₚ party_words (side_words topic) st1 ++ added).
  { intros st1 st2 Happ added.
    apply (append_word_words (side_words topic) _ added) in Happ; [exact Happ|].
    intros p. unfold added. destruct topic; cbn; now rewrite ?app_nil_r. }
  destruct (is_in pos_ pos_topic_words) eqn:Ht;
    destruct (is_in pos_ pos_opinion_words) eqn:Ho; cbn [and_then].
  - destruct (append_word party g (add_topic_word l) st) as [st1|] eqn:H1;
      [|discriminate].
    cbn [and_then]. intros H2.
    apply Htopic in H1 as [Hg1 Hp1]. apply Hopinion in H2 as [Hg2 Hp2].
    rewrite Hg2, Hp2, Hg1, Hp1.
    destruct topic; cbn [side_tags]; rewrite ?Ht, ?Ho, ?app_nil_r; auto.
  - destruct (append_word party g (add_topic_word l) st) as [st1|] eqn:H1;
      [|discriminate].
    cbn [and_then]. intros [= <-].
    apply Htopic in H1 as [Hg1 Hp1]. rewrite Hg1, Hp1.
    destruct topic; cbn [side_tags]; rewrite ?Ht, ?Ho, ?app_nil_r; auto.
  - intros H2. apply Hopinion in H2 as [Hg2 Hp2]. rewrite Hg2, Hp2.
    destruct topic; cbn [side_tags]; rewrite ?Ht, ?Ho, ?app_nil_r; auto.
  - intros [= <-].
    destruct topic; cbn [side_tags]; rewrite ?Ht, ?Ho, ?app_nil_r; auto.
Qed.

Lemma add_words_words (topic : bool) (party : string) (g : bool)
    (ws : list Word) (st st' : State) :
  add_words party g ws st = Done st' ->
  let added := map lemma_class (List.filter (kept (side_tags topic)) ws) in
  go_words (side_words topic) st' ≡ₚ go_words (side_words topic) st ++ added /\
  party_words (side_words topic) st' ≡ₚ party_words (side_words topic) st ++ added.
Proof.
  revert st. induction ws as [|w ws IH]; intros st; cbn [add_words List.filter].
  - intros [= <-]. cbn. now rewrite !app_nil_r.
  - destruct (add_word party g w st) as [st1|] eqn:H1; [|discriminate].
    apply (add_word_words topic) in H1 as [Hg1 Hp1]. cbn [and_then].
    intros H2. apply IH in H2 as [Hg2 Hp2]. cbn zeta.
    rewrite Hg2, Hp2, Hg1, Hp1.
    destruct (kept (side_tags topic) w); cbn [map];
      rewrite <- ?app_assoc; cbn [app]; auto.
Qed.

Lemma resolve_party_words (sel : Perspective -> list (option string))
    (party : string) (d : gmap string Perspective) :
  (forall n, sel (__init__ n) = []) ->
  flat_map (fun kp => sel (snd kp))
    (map_to_list (snd (resolve_party extractOne ratio party d)))
  ≡ₚ flat_map (fun kp => sel (snd kp)) (map_to_list d).
Proof.
  intros Hsel. unfold resolve_party.
  destruct (d !! party) as [p|] eqn:Hparty; [reflexivity|].
  destruct (extractOne party known_parties) as [p score1].
  destruct ((90 <=? score1)%Z && (90 <=? ratio party p)%Z).
  - destruct (d !! p) as [q|] eqn:Hp; [reflexivity|]. cbn [snd].
    rewrite (Permutation_flat_map _ (map_to_list_insert d p (__init__ p) Hp)).
    cbn [flat_map snd]. now rewrite Hsel.
  - cbn [snd].
    rewrite (Permutation_flat_map _
               (map_to_list_insert d party (__init__ party) Hparty)).
    cbn [flat_map snd]. now rewrite Hsel.
Qed.

Lemma step_words (topic : bool) (coalitions : Coalitions) (ev : Event)
    (st st' : State) :
  step extractOne ratio coalitions ev st = Done st' ->
  go_words (side_words topic) st'
  ≡ₚ go_words (side_words topic) st ++ kept_lemmas (side_tags topic) ev /\
  party_words (side_words topic) st'
  ≡ₚ party_words (side_words topic) st ++ kept_lemmas (side_tags topic) ev.
Proof.
  destruct ev as [[d|]|party ws]; cbn [step kept_lemmas].
  - destruct (coalition_on coalitions d) as [cp|]; [|discriminate].
    intros [= <-]. rewrite !app_nil_r. auto.
  - discriminate.
  - destruct party as [[|c party]|];
      try (intros [= <-]; rewrite !app_nil_r; auto).
    pose proof (resolve_party_words (side_words topic)
                  (replace_slash (String c party)) (data (count_speech st)))
      as Hres.
    destruct (resolve_party extractOne ratio (replace_slash (String c party))
                (data (count_speech st))) as [party' d'].
    cbn [snd] in Hres.
    cbn [coalition_parties set_data count_speech].
    destruct (coalition_parties st) as [cp|]; [|discriminate].
    intros Hadd. apply (add_words_words topic) in Hadd as [Hg Hp].
    split; [exact Hg|]. rewrite Hp. unfold party_words at 1.
    cbn [data set_data count_speech]. rewrite Hres; [reflexivity|].
    intros n. destruct topic; reflexivity.
Qed.

Lemma process_words (topic : bool) (coalitions : Coalitions)
    (evs : list Event) (st st' : State) :
  process extractOne ratio coalitions evs st = Done st' ->
  go_words (side_words topic) st'
  ≡ₚ go_words (side_words topic) st ++ lemmas_in (side_tags topic) evs /\
  party_words (side_words topic) st'
  ≡ₚ party_words (side_words topic) st ++ lemmas_in (side_tags topic) evs.
Proof.
  revert st. induction evs as [|ev evs IH]; intros st; cbn [process].
  - intros [= <-]. cbn. now rewrite !app_nil_r.
  - destruct (step extractOne ratio coalitions ev st) as [st1|] eqn:H1;
      [|discriminate].
    apply (step_words topic) in H1 as [Hg1 Hp1]. cbn [and_then].
    intros H2. apply IH in H2 as [Hg2 Hp2].
    rewrite Hg2, Hp2, Hg1, Hp1. unfold lemmas_in. cbn [flat_map].
    rewrite <- !app_assoc. auto.
Qed.

Lemma start_words (sel : Perspective -> list (option string))
    (cp : option (list string)) :
  (forall n, sel (__init__ n) = []) ->
  go_words sel (start cp) = [] /\ party_words sel (start cp) = [].
Proof.
  intros Hsel. split; [unfold go_words; cbn; now rewrite !Hsel|].
  unfold party_words. cbn [data start].
  assert (Hall : Forall (fun kp : string * Perspective => sel (snd kp) = [])
                   (map_to_list (list_to_map (M := gmap string Perspective)
                      (map (fun party => (party, __init__ party))
                           known_parties)))).
  { apply Forall_forall. intros [k p] Hkp.
    apply elem_of_map_to_list in Hkp.
    apply elem_of_list_to_map_2 in Hkp.
    apply list_elem_of_In, in_map_iff in Hkp as (n & [= <- <-] & _).
    apply Hsel. }
  induction Hall as [|kp l Hkp _ IH]; [reflexivity|].
  cbn [flat_map]. now rewrite Hkp, IH.
Qed.

(** The bookkeeping of one file.  When the loop over the events of a file
    ends, the lemmas filed as topic words under government and opposition
    together are, up to their order, the lemmas of the nouns of the
    speeches with a party, each as often as it occurs; so are the lemmas
    filed as topic words under the parties; and the same holds of the
    opinion words, with the verbs, adjectives and adverbs.  So every kept
    word is filed exactly twice, once under a party and once under
    government or opposition, with its own lemma.  [num_speech] and
    [num_speech_without_party] count the speeches, and those with no party
    or an empty one.  This holds for any fuzzy matcher. *)
Theorem process_files_every_word (coalitions : Coalitions)
    (evs : list Event) (cp : option (list string)) (st' : State) :
  process extractOne ratio coalitions evs (start cp) = Done st' ->
  go_words topic_words st' ≡ₚ lemmas_in pos_topic_words evs /\
  party_words topic_words st' ≡ₚ lemmas_in pos_topic_words evs /\
  go_words opinion_words st' ≡ₚ lemmas_in pos_opinion_words evs /\
  party_words opinion_words st' ≡ₚ lemmas_in pos_opinion_words evs /\
  num_speech st' = count_events is_speech evs /\
  num_speech_without_party st' = count_events without_party evs.
Proof.
  intros Hrun.
  pose proof (process_words true coalitions evs (start cp) st' Hrun)
    as [Hgt Hpt].
  pose proof (process_words false coalitions evs (start cp) st' Hrun)
    as [Hgo Hpo].
  cbn [side_words side_tags] in Hgt, Hpt, Hgo, Hpo.
  destruct (start_words topic_words cp (fun _ => eq_refl)) as [Hg0 Hp0].
  destruct (start_words opinion_words cp (fun _ => eq_refl)) as [Hg1 Hp1].
  rewrite Hg0, Hp0 in *. rewrite Hg1 in Hgo. rewrite Hp1 in Hpo.
  cbn [app] in *.
  pose proof (process_balanced coalitions evs (start cp) st'
                (start_balanced cp) Hrun) as (_ & Hn & Hw).
  cbn in Hn, Hw. repeat split; try assumption; lia.
Qed.

End ScriptProperties.

Lemma process_files_every_word_witness :
  let st' := FoliaExample.finish FoliaExample.events None in
  go_words Folia.topic_words st' ≡ₚ [Some "huis"; Some "wet"]%string /\
  party_words Folia.topic_words st' ≡ₚ [Some "huis"; Some "wet"]%string /\
  go_words Folia.opinion_words st' ≡ₚ [Some "lopen"]%string /\
  party_words Folia.opinion_words st' ≡ₚ [Some "lopen"]%string /\
  Folia.num_speech st' = 3%nat /\
  Folia.num_speech_without_party st' = 1%nat.
Proof.
  refine (process_files_every_word FoliaExample.extractOne FoliaExample.ratio
            FoliaExample.coalitions FoliaExample.events None
            (FoliaExample.finish FoliaExample.events None) _).
  vm_compute. reflexivity.
Defined.

Lemma increasing_pair (a b : Z) : (a < b)%Z -> increasing [a; b].
Proof.
  intros Hab i j x y Hij Hx Hy.
  destruct i as [|[|i]], j as [|[|j]]; cbn in Hx, Hy; try discriminate; try lia.
  injection Hx as <-. injection Hy as <-. exact Hab.
Qed.

Lemma coalition_on_date_witness :
  (forall (k : nat) (row : Z * list (option string)),
     FoliaExample.coalitions !! k = Some row -> (fst row < 20)%Z ->
     (forall next, FoliaExample.coalitions !! S k = Some next ->
                   (20 <= fst next)%Z) ->
     Folia.coalition_on FoliaExample.coalitions 20
     = Folia.Done (Folia.named_parties (snd row))) /\
  (forall row : Z * list (option string),
     last FoliaExample.coalitions = Some row ->
     (forall first, FoliaExample.coalitions !! 0%nat = Some first ->
                    (20 <= fst first)%Z) ->
     Folia.coalition_on FoliaExample.coalitions 20
     = Folia.Done (Folia.named_parties (snd row))).
Proof.
  exact (coalition_on_date FoliaExample.coalitions 20
           (increasing_pair 10 20 eq_refl)).
Defined.

Section NamedParties.
Import Folia.

Variable extractOne : string -> list string -> string * Z.
Variable ratio : string -> string -> Z.

(** [extractOne] answers with one of the choices. *)
Hypothesis extractOne_choice :
  forall query : string,
    fst (extractOne query known_parties) ∈ known_parties.

Lemma is_slash_dash : is_slash "-"%char = false.
Proof. reflexivity. Qed.

Lemma no_slash_replace (s : string) : no_slash (replace_slash s) = true.
Proof.
  induction s as [|c s IH]; [reflexivity|]. cbn [replace_slash no_slash].
  rewrite IH, andb_true_r. destruct (is_slash c) eqn:Hc; [reflexivity|].
  now rewrite Hc.
Qed.

Lemma known_no_slash (k : string) : k ∈ known_parties -> no_slash k = true.
Proof.
  revert k. apply Forall_forall. unfold known_parties.
  repeat constructor.
Qed.

Lemma named_insert (d : gmap string Perspective) (k : string) (p : Perspective) :
  named d -> name p = k -> no_slash k = true -> named (<[k := p]> d).
Proof.
  intros [Hn Hk] Hp Hs. split.
  - intros j q Hj. apply lookup_insert_Some in Hj as [[<- <-]|[_ Hj]]; auto.
  - intros j Hj. apply lookup_insert_is_Some'. right. auto.
Qed.

Lemma start_named (cp : option (list string)) : named (data (start cp)).
Proof.
  cbn [data start]. split.
  - intros k p Hk. apply elem_of_list_to_map_2 in Hk.
    apply list_elem_of_fmap in Hk as (party & [= -> ->] & Hin).
    split; [reflexivity | now apply known_no_slash].
  - intros k Hk. apply not_eq_None_Some. intros Hnone.
    apply not_elem_of_list_to_map_2 in Hnone. apply Hnone.
    rewrite <- list_fmap_compose. unfold compose. cbn [fst].
    now rewrite list_fmap_id.
Qed.

Lemma resolve_party_named (party : string) (d : gmap string Perspective) :
  named d -> no_slash party = true ->
  named (snd (resolve_party extractOne ratio party d)).
Proof.
  intros Hd Hparty. unfold resolve_party.
  destruct (d !! party) as [p|]; [exact Hd|].
  pose proof (extractOne_choice party) as Hchoice.
  destruct (extractOne party known_parties) as [p score1]. cbn [fst] in Hchoice.
  destruct ((90 <=? score1)%Z && (90 <=? ratio party p)%Z).
  - destruct (d !! p) as [q|]; [exact Hd|]. cbn [snd].
    apply named_insert; [exact Hd | reflexivity | now apply known_no_slash].
  - cbn [snd]. apply named_insert; [exact Hd | reflexivity | exact Hparty].
Qed.

Lemma append_word_named (party : string) (g : bool)
    (f : Perspective -> Perspective) (st st' : State) :
  (forall p, name (f p) = name p) ->
  named (data st) -> append_word party g f st = Done st' -> named (data st').
Proof.
  intros Hf Hd. unfold append_word.
  destruct (data st !! party) as [p|] eqn:Hp; [|discriminate].
  intros [= <-]. cbn [data on_go set_data].
  destruct (proj1 Hd party p Hp) as [Hname Hs].
  apply named_insert; [exact Hd | now rewrite Hf | exact Hs].
Qed.

Lemma add_word_named (party : string) (g : bool) (w : Word) (st st' : State) :
  named (data st) -> add_word party g w st = Done st' -> named (data st').
Proof.
  intros Hd. unfold add_word.
  destruct (pos w) as [pos_|]; [|discriminate].
  destruct (lemma w) as [l|]; [|discriminate].
  destruct (is_in pos_ pos_topic_words).
  - destruct (append_word party g (add_topic_word l) st) as [st1|] eqn:H1;
      [|discriminate].
    apply append_word_named in H1; [|reflexivity | exact Hd].
    cbn [and_then]. destruct (is_in pos_ pos_opinion_words).
    + intros H2. now apply append_word_named in H2.
    + now intros [= <-].
  - cbn [and_then]. destruct (is_in pos_ pos_opinion_words).
    + intros H2. now apply append_word_named in H2.
    + now intros [= <-].
Qed.

Lemma add_words_named (party : string) (g : bool) (ws : list Word)
    (st st' : State) :
  named (data st) -> add_words party g ws st = Done st' -> named (data st').
Proof.
  revert st. induction ws as [|w ws IH]; intros st Hd; cbn [add_words].
  - now intros [= <-].
  - destruct (add_word party g w st) as [st1|] eqn:H1; [|discriminate].
    apply add_word_named in H1; [|exact Hd]. cbn [and_then]. now apply IH.
Qed.

Lemma step_named (coalitions : Coalitions) (ev : Event) (st st' : State) :
  named (data st) ->
  step extractOne ratio coalitions ev st = Done st' -> named (data st').
Proof.
  intros Hd. destruct ev as [[d|]|party ws]; cbn [step].
  - destruct (coalition_on coalitions d) as [cp|]; [|discriminate].
    now intros [= <-].
  - discriminate.
  - destruct party as [[|c party]|]; try (now intros [= <-]).
    pose proof (resolve_party_named (replace_slash (String c party))
                  (data (count_speech st)) Hd (no_slash_replace _)) as Hr.
    destruct (resolve_party extractOne ratio (replace_slash (String c party))
                (data (count_speech st))) as [party' d'].
    cbn [snd] in Hr. cbn [coalition_parties set_data count_speech].
    destruct (coalition_parties st) as [cp|]; [|discriminate].
    apply add_words_named. exact Hr.
Qed.

Lemma process_named (coalitions : Coalitions) (evs : list Event)
    (st st' : State) :
  named (data st) ->
  process extractOne ratio coalitions evs st = Done st' -> named (data st').
Proof.
  revert st. induction evs as [|ev evs IH]; intros st Hd; cbn [process].
  - now intros [= <-].
  - destruct (step extractOne ratio coalitions ev st) as [st1|] eqn:H1;
      [|discriminate].
    apply step_named in H1; [|exact Hd]. cbn [and_then]. now apply IH.
Qed.

(** The purpose of [party.replace('/', '-')]: when the loop over the events
    of a file ends, every perspective of [data] is filed under its own
    name, no name holds a slash (so that [write2file] makes no directory
    below the one of the party), and every known party still has its
    perspective.  The matcher is taken to answer with one of its choices. *)
Theorem parties_well_named (coalitions : Coalitions) (evs : list Event)
    (cp : option (list string)) (st' : State) :
  process extractOne ratio coalitions evs (start cp) = Done st' ->
  well_named st'.
Proof. apply process_named. apply start_named. Qed.

End NamedParties.

Lemma parties_well_named_witness :
  well_named (FoliaExample.finish FoliaExample.events None).
Proof.
  refine (parties_well_named FoliaExample.extractOne FoliaExample.ratio _
            FoliaExample.coalitions FoliaExample.events None
            (FoliaExample.finish FoliaExample.events None) _).
  - intros query. left.
  - vm_compute. reflexivity.
Defined.

Section BeforeTheDate.
Import Folia.

Variable extractOne : string -> list string -> string * Z.
Variable ratio : string -> string -> Z.

Lemma process_without_party (coalitions : Coalitions) (pre rest : list Event)
    (st : State) :
  Forall (fun ev => without_party ev = true) pre ->
  exists st1 : State,
    coalition_parties st1 = coalition_parties st /\
    process extractOne ratio coalitions (pre ++ rest) st
    = process extractOne ratio coalitions rest st1.
Proof.
  intros Hpre. revert st. induction Hpre as [|ev pre Hev _ IH]; intros st.
  - exists st. auto.
  - destruct ev as [[d|]|[[|c s]|] ws]; try discriminate.
    + destruct (IH (count_without_party (count_speech st))) as (st1 & Hcp & Hrun).
      exists st1. split; [exact Hcp | exact Hrun].
    + destruct (IH (count_without_party (count_speech st))) as (st1 & Hcp & Hrun).
      exists st1. split; [exact Hcp | exact Hrun].
Qed.

(** A speech with a party that comes before every date element of the
    first file ends the script with [NameError]: [coalition_parties] is
    not bound yet.  Speeches without a party before it do no harm. *)
Theorem speech_before_first_date (coalitions : Coalitions)
    (pre rest : list Event) (c : ascii) (party : string) (ws : list Word) :
  Forall (fun ev => without_party ev = true) pre ->
  process extractOne ratio coalitions
    (pre ++ SpeechEnd (Some (String c party)) ws :: rest) (start None)
  = Fails NameError.
Proof.
  intros Hpre.
  destruct (process_without_party coalitions pre
              (SpeechEnd (Some (String c party)) ws :: rest) (start None) Hpre)
    as (st1 & Hcp & ->).
  cbn [process step].
  destruct (resolve_party extractOne ratio (replace_slash (String c party))
              (data (count_speech st1))) as [party' d'].
  cbn [coalition_parties set_data count_speech]. rewrite Hcp. reflexivity.
Qed.

End BeforeTheDate.

Lemma speech_before_first_date_witness :
  Folia.process FoliaExample.extractOne FoliaExample.ratio
    FoliaExample.coalitions
    ([Folia.SpeechEnd None []]
       ++ Folia.SpeechEnd (Some "CDA") [] :: [Folia.DateEnd (Some 20%Z)])
    (Folia.start None)
  = Folia.Fails NameError.
Proof.
  refine (speech_before_first_date FoliaExample.extractOne FoliaExample.ratio
            FoliaExample.coalitions [Folia.SpeechEnd None []]
            [Folia.DateEnd (Some 20%Z)] "C"%char "DA" [] _).
  repeat constructor.
Defined.

Section WriteToFile.
Import Folia.

Lemma join_words_Some (ws : list string) :
  join_words (map Some ws) = Done (String.concat " " ws).
Proof.
  induction ws as [|w ws IH]; [reflexivity|].
  destruct ws as [|w' ws]; [reflexivity|].
  change (join_words (map Some (w :: w' :: ws)))
    with (and_then (join_words (map Some (w' :: ws)))
                   (fun s => Done (w +:+ " " +:+ s))).
  rewrite IH. reflexivity.
Qed.

Lemma join_words_None (ws : list (option string)) :
  None ∈ ws -> join_words ws = Fails TypeError.
Proof.
  induction ws as [|[w|] ws IH]; intros Hin.
  - apply elem_of_nil in Hin. contradiction.
  - apply elem_of_cons in Hin as [Heq|Hin]; [discriminate|].
    destruct ws as [|w' ws]; [apply elem_of_nil in Hin; contradiction|].
    change (join_words (Some w :: w' :: ws))
      with (and_then (join_words (w' :: ws)) (fun s => Done (w +:+ " " +:+ s))).
    now rewrite IH.
  - reflexivity.
Qed.

(** [write2file] puts the perspective in the file [file_name] of the
    directory [out_dir]/[name], which it makes, and touches no other file.
    With the lemma of every word present, the file gets two lines: the
    topic words, then the opinion words, separated by spaces.  A word
    without lemma ends the call with [TypeError] and leaves the file cut
    short: empty when a topic word has none, with the line of the topic
    words alone when only an opinion word has none. *)
Theorem write2file_cases (p : Perspective) (out_dir_ file_name : string)
    (fs : FileSystem) :
  let directory := path_join out_dir_ (name p) in
  let out_file := path_join directory file_name in
  let fs' := fst (write2file p out_dir_ file_name fs) in
  let raised := snd (write2file p out_dir_ file_name fs) in
  directory ∈ dirs fs' /\
  (forall f : string, f <> out_file -> texts fs' !! f = texts fs !! f) /\
  (forall tw ow : list string,
     topic_words p = map Some tw -> opinion_words p = map Some ow ->
     raised = None /\
     texts fs' !! out_file
     = Some (String.concat " " tw +:+ newline
             +:+ String.concat " " ow +:+ newline)) /\
  (None ∈ topic_words p ->
   raised = Some TypeError /\ texts fs' !! out_file = Some EmptyString) /\
  (forall tw : list string,
     topic_words p = map Some tw -> None ∈ opinion_words p ->
     raised = Some TypeError /\
     texts fs' !! out_file = Some (String.concat " " tw +:+ newline)).
Proof.
  intros directory out_file fs' raised. unfold fs', raised, write2file.
  fold directory. fold out_file.
  split; [|split; [|split; [|split]]].
  - destruct (join_words (topic_words p)) as [l1|];
      [destruct (join_words (opinion_words p)) as [l2|]|];
      cbn [fst dirs]; apply elem_of_union_l, elem_of_singleton; reflexivity.
  - intros f Hf.
    destruct (join_words (topic_words p)) as [l1|];
      [destruct (join_words (opinion_words p)) as [l2|]|];
      cbn [fst texts]; now rewrite lookup_insert_ne by congruence.
  - intros tw ow -> ->. rewrite !join_words_Some. cbn [fst snd texts].
    split; [reflexivity | apply lookup_insert_eq].
  - intros Hnone. rewrite (join_words_None _ Hnone). cbn [fst snd texts].
    split; [reflexivity | apply lookup_insert_eq].
  - intros tw -> Hnone. rewrite join_words_Some, (join_words_None _ Hnone).
    cbn [fst snd texts]. split; [reflexivity | apply lookup_insert_eq].
Qed.

End WriteToFile.

(** ** Bounds of the sampled labels *)

Section SamplingBounds.
Context {G : Type} `{Generator G}.
#[local] Open Scope Q_scope.

(** When the entries of [p], none negative, add up to less than the draw,
    [sample_from] returns [len(p)], which is the index of no entry: the
    search finds no running total that reaches the draw. *)
Theorem sample_from_beyond (w : world G) (qs : list Q) :
  Forall (fun q => 0 <= q) qs ->
  qsum qs < fst (next_unit (rng w)) ->
  sample_from (map Fin qs) w
  = Ok (length qs, World (self w) (snd (next_unit (rng w))) (files w)).
Proof.
  intros Hnn Hsum. unfold sample_from, bind, rand, ret. rewrite cumsum_Fin.
  destruct (next_unit (rng w)) as [u g]. cbn [fst snd] in *.
  pose proof (searchsorted_spec (qcumsum qs) u (qcumsum_sorted qs Hnn))
    as (Hr & Hbelow & Habove).
  set (k := searchsorted (map Fin (qcumsum qs)) (Fin u)) in *.
  rewrite length_qcumsum in Hr.
  assert (Hk : k = length qs).
  { destruct (Nat.lt_ge_cases k (length qs)) as [Hlt|Hge]; [|lia].
    assert (Hne : qs <> []) by (intros ->; cbn in Hlt; lia).
    destruct (qcumsum_last qs Hne) as (x & Hx & Hxs).
    pose proof (Habove (length qs - 1)%nat x ltac:(lia) Hx). lra. }
  now rewrite Hk.
Qed.

Lemma binsearch_range (a : vec) (key : f64) (fuel lo hi : nat) :
  (lo <= hi)%nat ->
  (lo <= binsearch fuel a key lo hi <= hi)%nat.
Proof.
  revert lo hi. induction fuel as [|fuel IH]; intros lo hi Hle; cbn [binsearch];
    [lia|].
  destruct (Nat.ltb_spec lo hi) as [Hlt|_]; [|lia].
  assert (Hmid : (lo <= lo + (hi - lo) / 2 < hi)%nat).
  { pose proof (Nat.Div0.mul_div_le (hi - lo) 2). lia. }
  destruct (a !! (lo + (hi - lo) / 2)%nat) as [v|]; [|lia].
  destruct (sort_lt v key).
  - specialize (IH (lo + (hi - lo) / 2 + 1)%nat hi). lia.
  - specialize (IH lo (lo + (hi - lo) / 2)%nat). lia.
Qed.

Lemma length_cumsum_from (acc : f64) (l : vec) :
  length (cumsum_from acc l) = length l.
Proof. revert acc. induction l; intros; cbn; auto. Qed.

Lemma length_cumsum (l : vec) : length (cumsum l) = length l.
Proof. destruct l; cbn; auto using length_cumsum_from. Qed.

(** [sample_from] answers for every vector, also one with [nan] or infinite
    entries or one that does not sum to 1: it raises nothing, draws one
    number from the generator, leaves the sampler and the files as they
    were, and returns an index from 0 to [len(p)], both included.  Nothing
    in it keeps the index below [len(p)], the number of labels. *)
Theorem sample_from_range (p : vec) (w : world G) :
  exists k,
    sample_from p w
    = Ok (k, World (self w) (snd (next_unit (rng w))) (files w)) /\
    (k <= length p)%nat.
Proof.
  exists (searchsorted (cumsum p) (Fin (fst (next_unit (rng w))))). split.
  - unfold sample_from, bind, rand, ret.
    destruct (next_unit (rng w)) as [u g]. reflexivity.
  - unfold searchsorted.
    pose proof (binsearch_range (cumsum p) (Fin (fst (next_unit (rng w))))
                  (length (cumsum p)) 0 (length (cumsum p)) ltac:(lia)) as Hr.
    rewrite length_cumsum in Hr. rewrite length_cumsum. lia.
Qed.

End SamplingBounds.

Lemma sample_from_beyond_witness :
  sample_from (map Fin [1 # 4; 1 # 4]) (Example.replay [700%Z])
  = Ok (2%nat, World (self (Example.replay [700%Z])) [] ∅).
Proof.
  refine (sample_from_beyond (Example.replay [700%Z]) [1 # 4; 1 # 4] _ _).
  - repeat constructor; vm_compute; discriminate.
  - vm_compute. reflexivity.
Defined.

Section InitLabels.
Context {G : Type} `{Generator G}.

Lemma Forall2_alter_set {A} (P : A -> Prop) (a : A) i j (m : list (list A)) :
  P a -> Forall (Forall P) m -> Forall (Forall P) (alter (alter (fun _ => a) j) i m).
Proof.
  intros Ha Hm. apply Forall_alter; [exact Hm|]. intros row _ Hrow.
  apply Forall_alter; [exact Hrow|]. intros _ _ _. exact Ha.
Qed.

Lemma init_topic_word_labels (cfg : Config) d wi (w : world G) u w' :
  config (self w) = cfg ->
  labels_below (Z.to_nat (nTopics cfg)) (counts (self w)) ->
  init_topic_word d wi w = Ok (u, w') ->
  config (self w') = cfg /\
  labels_below (Z.to_nat (nTopics cfg)) (counts (self w')).
Proof.
  intros Hcfg [Hz Hx] Hrun. destruct wi as [w_id i].
  unfold init_topic_word in Hrun. run_inv Hrun.
  apply randint_Ok in Hstep as (_ & Hrange & -> & Hself & _).
  subst w'. cbn in *. rewrite Hself in *. rewrite Hcfg in *.
  apply upd2_Ok in Hmod as [-> _].
  split; [reflexivity|]. split; cbn; [|exact Hx].
  apply Forall2_alter_set; [lia | exact Hz].
Qed.

Lemma init_opinion_word_labels (cfg : Config) persp d_p wi (w : world G) u w' :
  config (self w) = cfg ->
  labels_below (Z.to_nat (nTopics cfg)) (counts (self w)) ->
  init_opinion_word persp d_p wi w = Ok (u, w') ->
  config (self w') = cfg /\
  labels_below (Z.to_nat (nTopics cfg)) (counts (self w')).
Proof.
  intros Hcfg [Hz Hx] Hrun. destruct wi as [w_id i].
  unfold init_opinion_word in Hrun. run_inv Hrun.
  apply randint_Ok in Hstep as (_ & Hrange & -> & Hself & _).
  subst w'. cbn in *. rewrite Hself in *. rewrite Hcfg in *.
  apply upd3_Ok in Hmod as [-> _].
  split; [reflexivity|]. split; cbn; [exact Hz|].
  apply Forall_alter; [exact Hx|]. intros m _ Hm.
  apply Forall2_alter_set; [lia | exact Hm].
Qed.

(** After a successful initialization every entry of the assignment arrays
    [z] and [x] is a topic, a number below [nTopics]: the cells of the
    tokens hold the labels drawn for them, and the other cells the 0 they
    were created with. *)
Theorem initialize_labels (w : world G) (u : unit) (w' : world G) :
  _initialize w = Ok (u, w') ->
  (0 < nTopics (config (self w)))%Z ->
  labels_below (Z.to_nat (nTopics (config (self w)))) (counts (self w')).
Proof.
  intros Hrun HK. unfold _initialize in Hrun. run_inv Hrun.
  injection Hstep as _ <-.
  set (cfg := config (self w)) in *.
  set (P := fun w1 : world G =>
              config (self w1) = cfg /\
              labels_below (Z.to_nat (nTopics cfg)) (counts (self w1))).
  assert (HP : P w').
  { eapply (for_each_invariant P); [| |exact Hrun].
    - intros [[[d persp] d_p] doc] w1 u1 w2 _ HP1 Hdoc.
      unfold init_document in Hdoc. run_inv Hdoc.
      eapply (for_each_invariant P); [| |exact Hdoc].
      + intros wi w3 u3 w4 _ [Hc Hl] Hword.
        eapply init_opinion_word_labels; eauto.
      + eapply (for_each_invariant P); [|exact HP1|exact Hstep].
        intros wi w3 u3 w4 _ [Hc Hl] Hword.
        eapply init_topic_word_labels; eauto.
    - split; [reflexivity|]. split; cbn.
      + apply Forall_replicate, Forall_replicate. lia.
      + apply stacked_zeros_Ok in Hlift3 as [-> _].
        apply Forall_forall. intros m Hm.
        apply list_elem_of_lookup_1 in Hm as [j Hj].
        apply lookup_zip_with_Some in Hj as (n & k & -> & _ & _).
        apply Forall_replicate, Forall_replicate. lia. }
  exact (proj2 HP).
Qed.

End InitLabels.

Lemma initialize_labels_witness :
  labels_below 2 (counts (self Example.world1)).
Proof.
  refine (initialize_labels (Example.fresh 2 None) tt Example.world1 _ _).
  - vm_compute. reflexivity.
  - reflexivity.
Defined.

(** ** What [run] keeps and what it leaves alone *)

Section Preserves.
Context {G : Type} `{Generator G}.

Variable R : world G -> world G -> Prop.
Hypothesis R_refl : forall w, R w w.
Hypothesis R_trans : forall w1 w2 w3, R w1 w2 -> R w2 w3 -> R w1 w3.

Lemma preserves_frame {A} (m : M G A) :
  (forall w a w', m w = Ok (a, w') -> w' = w) -> preserves R m.
Proof. intros Hm w a w' Hrun. apply Hm in Hrun as ->. apply R_refl. Qed.

Lemma preserves_ret {A} (a : A) : preserves R (ret a : M G A).
Proof. apply preserves_frame. intros w b w' Hb. now apply ret_Ok in Hb. Qed.

Lemma preserves_lift {A} (r : result A) : preserves R (lift r : M G A).
Proof. apply preserves_frame. intros w b w' Hb. now apply lift_Ok in Hb. Qed.

Lemma preserves_get_self : preserves R (get_self : M G _).
Proof. apply preserves_frame. intros w b w' Hb. now apply get_self_Ok in Hb. Qed.

Lemma preserves_bind {A B} (m : M G A) (k : A -> M G B) :
  preserves R m -> (forall a, preserves R (k a)) -> preserves R (bind m k).
Proof.
  intros Hm Hk w b w' Hrun. apply bind_Ok in Hrun as (a & w1 & H1 & H2).
  eapply R_trans; [eapply Hm | eapply Hk]; eauto.
Qed.

Lemma preserves_for_each {A} (l : list A) (body : A -> M G unit) :
  (forall a, preserves R (body a)) -> preserves R (for_each l body).
Proof.
  intros Hbody. induction l as [|a l IH]; cbn [for_each].
  - apply preserves_ret.
  - apply preserves_bind; [apply Hbody | intros _; exact IH].
Qed.

Lemma preserves_for_acc {A B} (l : list A) (acc : B) (body : A -> B -> M G B) :
  (forall a b, preserves R (body a b)) -> preserves R (for_acc l acc body).
Proof.
  intros Hbody. revert acc. induction l as [|a l IH]; intros acc; cbn [for_acc].
  - apply preserves_ret.
  - apply preserves_bind; [apply Hbody | intros acc'; apply IH].
Qed.

Lemma preserves_collect {A B} (f : A -> M G B) (l : list A) :
  (forall a, preserves R (f a)) -> preserves R (collect f l).
Proof.
  intros Hf. induction l as [|a l IH]; cbn [collect]; [apply preserves_ret|].
  apply preserves_bind; [apply Hf | intros b].
  apply preserves_bind; [exact IH | intros r; apply preserves_ret].
Qed.

Lemma preserves_theta_topic : preserves R (theta_topic (G:=G)).
Proof. apply preserves_frame. apply theta_topic_frame. Qed.

Lemma preserves_phi_topic : preserves R (phi_topic (G:=G)).
Proof. apply preserves_frame. apply phi_topic_frame. Qed.

Lemma preserves_phi_opinion (p : nat) : preserves R (phi_opinion (G:=G) p).
Proof. apply preserves_frame. apply phi_opinion_frame. Qed.

Lemma preserves_read_csv (name : string) (t : nat) :
  preserves R (read_csv (G:=G) name t).
Proof.
  apply preserves_frame. intros w a w'. unfold read_csv.
  destruct (files w !! (name, t)); [|discriminate]. now intros [= _ <-].
Qed.

Lemma preserves_load_parameters (name : string) :
  preserves R (load_parameters (G:=G) name).
Proof.
  unfold load_parameters.
  apply preserves_bind; [apply preserves_get_self | intros o].
  apply preserves_bind.
  - apply preserves_for_acc. intros i data.
    apply preserves_bind; [apply preserves_read_csv | intros ar].
    destruct data; apply preserves_ret.
  - intros [a|]; [apply preserves_ret | apply preserves_lift].
Qed.

Hypothesis R_sweep : preserves R (gibbs_inner (G:=G)).
Hypothesis R_publish :
  forall (w : world G) (r : Outputs),
    R w (World (set_outputs r (self w)) (rng w) (files w)).

Lemma preserves_publish (a b : mat) (c : list mat) :
  preserves R (publish (G:=G) a b c).
Proof.
  intros w u w' Hrun. unfold publish in Hrun. run_inv Hrun.
  injection Hrun as _ <-. apply R_publish.
Qed.

Lemma preserves_keep_samples (P t : nat)
    (acc : list mat * list mat * list (list mat)) :
  preserves R (keep_samples (G:=G) P t acc).
Proof.
  destruct acc as [[th pt] po]. unfold keep_samples.
  apply preserves_bind; [apply R_sweep | intros _].
  apply preserves_bind; [apply preserves_theta_topic | intros v].
  apply preserves_bind; [apply preserves_lift | intros th'].
  apply preserves_bind; [apply preserves_phi_topic | intros v'].
  apply preserves_bind; [apply preserves_lift | intros pt'].
  apply preserves_bind; [|intros po'; apply preserves_ret].
  unfold keep_opinions. apply preserves_for_acc. intros p po1.
  apply preserves_bind; [apply preserves_phi_opinion | intros v1; apply preserves_lift].
Qed.

Lemma preserves_run_in_memory : preserves R (run_in_memory (G:=G)).
Proof.
  unfold run_in_memory.
  apply preserves_bind; [apply preserves_get_self | intros o].
  apply preserves_bind; [apply preserves_lift | intros theta0].
  apply preserves_bind; [apply preserves_lift | intros phiT0].
  apply preserves_bind; [apply preserves_lift | intros phiO0].
  apply preserves_bind.
  { apply preserves_for_acc. intros t acc. apply preserves_keep_samples. }
  intros [[th pt] po].
  apply preserves_bind; [apply preserves_lift | intros phiO].
  apply preserves_publish.
Qed.

Hypothesis R_csv :
  forall (w : world G) (name : string) (t : nat) (v : mat),
    written name ->
    R w (World (self w) (rng w) (<[(name, t) := v]> (files w))).

Lemma preserves_to_csv (name : string) (t : nat) (v : mat) :
  written name -> preserves R (to_csv (G:=G) name t v).
Proof. intros Hname w a w' [= _ <-]. now apply R_csv. Qed.

Lemma preserves_write_samples (P t : nat) :
  preserves R (write_samples (G:=G) P t).
Proof.
  unfold write_samples.
  apply preserves_bind; [apply R_sweep | intros _].
  apply preserves_bind; [apply preserves_theta_topic | intros v].
  apply preserves_bind; [apply preserves_to_csv; now left | intros _].
  apply preserves_bind; [apply preserves_phi_topic | intros v'].
  apply preserves_bind; [apply preserves_to_csv; right; now left | intros _].
  unfold write_opinions. apply preserves_for_each. intros p.
  apply preserves_bind; [apply preserves_phi_opinion | intros v1].
  apply preserves_to_csv. right. right. now exists p.
Qed.

Lemma preserves_run_persisted : preserves R (run_persisted (G:=G)).
Proof.
  unfold run_persisted.
  apply preserves_bind; [apply preserves_get_self | intros o].
  apply preserves_bind.
  { apply preserves_for_each. intros t. apply preserves_write_samples. }
  intros _.
  apply preserves_bind; [apply preserves_load_parameters | intros theta].
  apply preserves_bind; [apply preserves_load_parameters | intros phiT].
  apply preserves_bind.
  { apply preserves_collect. intros p. apply preserves_load_parameters. }
  intros phiO. apply preserves_publish.
Qed.

Lemma preserves_run : preserves R (run (G:=G)).
Proof.
  unfold run. apply preserves_bind; [apply preserves_get_self | intros o].
  destruct (truthy (out_dir (config o)));
    [apply preserves_run_persisted | apply preserves_run_in_memory].
Qed.

End Preserves.

Section RunKeeps.
Context {G : Type} `{Generator G}.

(** [run] keeps the count tables consistent, in either mode and for any
    number of iterations: when the row sums of [ndk], [nkw] and [nrs[p]]
    agree with [ntd], [nk] and [ns[p]] before the call, they do after it. *)
Theorem run_keeps_consistent (w : world G) (u : unit) (w' : world G) :
  run w = Ok (u, w') ->
  consistent (counts (self w)) ->
  consistent (counts (self w')).
Proof.
  revert w u w'. apply (preserves_run stays_consistent).
  - intros w Hw. exact Hw.
  - intros w1 w2 w3 H12 H23 H1. auto.
  - intros w u w' Hrun Hc. eapply gibbs_inner_consistent; eauto.
  - intros w r Hc. exact Hc.
  - intros w name t v _ Hc. exact Hc.
Qed.

(** The files that [run] leaves alone.  With [out_dir] unset it touches no
    file.  With [out_dir] set it writes the samples of the parameters
    [theta], [phi_topic] and [phi_opinion_<p>] and no file of another
    name. *)
Theorem run_leaves_files (w : world G) (u : unit) (w' : world G) :
  run w = Ok (u, w') ->
  (truthy (out_dir (config (self w))) = false -> files w' = files w) /\
  other_files w w'.
Proof.
  intros Hrun. split.
  - intros Hdir. unfold run in Hrun. run_inv Hrun. rewrite Hdir in Hrun.
    revert Hrun. apply (preserves_run_in_memory same_files).
    + intros w1. reflexivity.
    + intros w1 w2 w3 H12 H23. unfold same_files in *. congruence.
    + intros w1 u1 w2 Hsweep. unfold same_files.
      eapply ignores_files_keeps; [apply ignores_gibbs_inner | exact Hsweep].
    + intros w1 r. reflexivity.
  - revert w u w' Hrun. apply (preserves_run other_files).
    + intros w name t _. reflexivity.
    + intros w1 w2 w3 H12 H23 name t Hname.
      rewrite (H23 name t Hname). now apply H12.
    + intros w1 u1 w2 Hsweep name t _.
      now rewrite (ignores_files_keeps _ ignores_gibbs_inner _ _ _ Hsweep).
    + intros w1 r name t _. reflexivity.
    + intros w1 name1 t1 v Hw name t Hname. cbn [files].
      apply lookup_insert_ne. intros [= -> _]. contradiction.
Qed.

End RunKeeps.

Lemma run_keeps_consistent_witness :
  consistent (counts (self (Example.after run Example.world1))).
Proof.
  refine (run_keeps_consistent Example.world1 tt
            (Example.after run Example.world1) _ _).
  - vm_compute. reflexivity.
  - refine (_initialize_consistent (Example.fresh 2 None) tt Example.world1 _).
    vm_compute. reflexivity.
Defined.

Lemma run_leaves_files_witness :
  let w := Example.after _initialize (Example.fresh 2 (Some "out"%string)) in
  let w' := Example.after run w in
  (truthy (out_dir (config (self w))) = false -> files w' = files w) /\
  other_files w w'.
Proof.
  refine (run_leaves_files
            (Example.after _initialize (Example.fresh 2 (Some "out"%string))) tt
            (Example.after run
               (Example.after _initialize (Example.fresh 2 (Some "out"%string))))
            _).
  vm_compute. reflexivity.
Defined.

(** ** The count tables are the aggregates of the assignments *)

Section Counting.
Context {A : Type}.
Implicit Types (f g : A -> bool) (l : list A).

Lemma count_of_cons f a l :
  count_of f (a :: l) = (Z.b2z (f a) + count_of f l)%Z.
Proof. unfold count_of. cbn [List.filter]. destruct (f a); cbn [length Z.b2z]; lia. Qed.

Lemma count_of_app f l1 l2 :
  count_of f (l1 ++ l2) = (count_of f l1 + count_of f l2)%Z.
Proof.
  induction l1 as [|a l1 IH]; [reflexivity|].
  cbn [app]. rewrite !count_of_cons, IH. lia.
Qed.

Lemma count_of_ext f g l :
  (forall a, In a l -> f a = g a) -> count_of f l = count_of g l.
Proof.
  induction l as [|a l IH]; intros Hfg; [reflexivity|].
  rewrite !count_of_cons, Hfg by (left; reflexivity).
  rewrite IH; [reflexivity|]. intros b Hb. apply Hfg. now right.
Qed.

(** Changing what [f] says of one member, the one whose key is [key t]. *)
Lemma count_of_change {K} (key : A -> K) f g (t : A) l :
  NoDup (map key l) -> In t l ->
  (forall a, In a l -> key a <> key t -> g a = f a) ->
  count_of g l = (count_of f l - Z.b2z (f t) + Z.b2z (g t))%Z.
Proof.
  induction l as [|a l IH]; intros Hnd Hin Hother; [destruct Hin|].
  cbn [map] in Hnd. apply NoDup_cons in Hnd as [Hhead Hnd].
  rewrite !count_of_cons. destruct Hin as [-> | Hin].
  - rewrite (count_of_ext g f l); [lia|].
    intros b Hb. apply Hother; [now right|].
    intros Heq. apply Hhead. rewrite <- Heq.
    apply list_elem_of_In, in_map, Hb.
  - rewrite IH; [|exact Hnd|exact Hin|].
    + rewrite Hother; [lia | now left|].
      intros Heq. apply Hhead. rewrite Heq.
      apply list_elem_of_In, in_map, Hin.
    + intros b Hb. apply Hother. now right.
Qed.

End Counting.

Lemma nth_alter {A} (f : A -> A) (d : A) (i j : nat) (l : list A) :
  (i < length l)%nat ->
  nth j (alter f i l) d = if decide (j = i) then f (nth i l d) else nth j l d.
Proof.
  intros Hi. destruct (lookup_lt_is_Some_2 l i Hi) as [a Ha].
  rewrite !nth_lookup, list_lookup_alter.
  destruct (decide (j = i)) as [->|Hne].
  - rewrite decide_True by reflexivity. rewrite Ha. reflexivity.
  - rewrite decide_False by congruence. reflexivity.
Qed.

Lemma nth2_alter {A} (f : A -> A) (d : A) (i j i' j' : nat) (m : list (list A)) :
  (exists row, m !! i = Some row /\ (j < length row)%nat) ->
  nth j' (nth i' (alter (alter f j) i m) []) d
  = if decide (i' = i /\ j' = j) then f (nth j (nth i m []) d)
    else nth j' (nth i' m []) d.
Proof.
  intros (row & Hrow & Hj).
  rewrite nth_alter by (eapply lookup_lt_Some; eauto).
  destruct (decide (i' = i)) as [->|Hne].
  - rewrite (nth_lookup m i), Hrow. cbn [default].
    rewrite nth_alter by exact Hj.
    destruct (decide (j' = j)) as [->|Hnej].
    + rewrite decide_True by auto. reflexivity.
    + rewrite decide_False by tauto. reflexivity.
  - rewrite decide_False by tauto. reflexivity.
Qed.

Lemma nth3_alter {A} (f : A -> A) (d : A) (p i j p' i' j' : nat)
    (t : list (list (list A))) :
  (exists m row, t !! p = Some m /\ m !! i = Some row /\ (j < length row)%nat) ->
  nth j' (nth i' (nth p' (alter (alter (alter f j) i) p t) []) []) d
  = if decide (p' = p /\ i' = i /\ j' = j)
    then f (nth j (nth i (nth p t []) []) d)
    else nth j' (nth i' (nth p' t []) []) d.
Proof.
  intros (m & row & Hm & Hrow & Hj).
  rewrite nth_alter by (eapply lookup_lt_Some; eauto).
  destruct (decide (p' = p)) as [->|Hne].
  - rewrite (nth_lookup t p), Hm. cbn [default].
    rewrite nth2_alter by eauto.
    destruct (decide (i' = i /\ j' = j)) as [[-> ->]|Hnej].
    + rewrite decide_True by auto. reflexivity.
    + rewrite decide_False by tauto. reflexivity.
  - rewrite decide_False by tauto. reflexivity.
Qed.

(** Settles a goal on cells after an update: by cases on the indices. *)
Ltac cell_cases :=
  repeat match goal with
  | |- context [decide ?P] => destruct (decide P)
  | |- context [(?a =? ?b)%nat] => destruct (Nat.eqb_spec a b)
  end;
  cbn [andb Z.b2z];
  repeat match goal with H : _ /\ _ |- _ => destruct H end;
  subst; try lia; try (exfalso; tauto); try (exfalso; lia).

Section Aggregates.
Context {G : Type} `{Generator G}.

Lemma feq_count_succ (a : f64) (n : Z) :
  feq a (of_int n) -> feq (fadd a (Fin 1)) (of_int (1 + n)).
Proof.
  destruct a as [q| |]; cbn; try tauto. intros Hq. rewrite Hq.
  rewrite inject_Z_plus. ring.
Qed.

Lemma init_topic_word_aggregates d wi T O (w : world G) u w' :
  aggregates_of T O (counts (self w)) ->
  ~ In (d, snd wi) (map topic_cell T) ->
  init_topic_word d wi w = Ok (u, w') ->
  aggregates_of (T ++ [{| tdoc := d; tword := fst wi; tpos := snd wi |}]) O
                (counts (self w')).
Proof.
  intros (Hndk & Hnkw & Hnk & Hntd & Hnrs & Hns) Hfresh Hrun.
  destruct wi as [w_id i]. cbn [fst snd] in *.
  unfold init_topic_word in Hrun. run_inv Hrun.
  apply randint_Ok in Hstep as (_ & _ & _ & Hself & _).
  subst w'. proj_simpl. rewrite Hself in *. proj_simpl.
  apply upd2_Ok in Hmod as [-> Hz].
  apply upd2_Ok in Hmod0 as [-> Hd].
  apply upd2_Ok in Hmod1 as [-> Hk].
  apply upd_Ok in Hmod2 as [-> Hn].
  apply upd_Ok in Hmod3 as [-> Ht].
  set (zs := z (counts (self w))) in *.
  set (zs' := alter (alter (fun _ => a) i) d zs).
  assert (Hother : forall t, In t T -> topic_label zs' t = topic_label zs t).
  { intros t Hin. unfold topic_label, zs'. rewrite nth2_alter by exact Hz.
    rewrite decide_False; [reflexivity|]. intros [Hd' Hi']. apply Hfresh.
    apply in_map_iff. exists t. split; [|exact Hin].
    unfold topic_cell. congruence. }
  assert (Hnew : topic_label zs' {| tdoc := d; tword := w_id; tpos := i |} = a).
  { unfold topic_label, zs'. cbn [tdoc tpos]. rewrite nth2_alter by exact Hz.
    now rewrite decide_True by auto. }
  fold zs'. clearbody zs' zs.
  repeat split; proj_simpl.
  - intros d' k'. unfold entry2. rewrite nth2_alter by exact Hd.
    rewrite count_of_app, count_of_cons.
    rewrite (count_of_ext _ (fun t => (tdoc t =? d')%nat
                                      && (topic_label zs t =? k')%nat) T)
      by (intros t Hin; now rewrite Hother).
    rewrite <- Hndk, Hnew. unfold entry2, count_of. cbn [tdoc List.filter length].
    cell_cases.
  - intros k' v. unfold entry2. rewrite nth2_alter by exact Hk.
    rewrite count_of_app, count_of_cons.
    rewrite (count_of_ext _ (fun t => (topic_label zs t =? k')%nat
                                      && (tword t =? v)%nat) T)
      by (intros t Hin; now rewrite Hother).
    rewrite <- Hnkw, Hnew. unfold entry2, count_of. cbn [tword List.filter length].
    cell_cases.
  - intros k'. unfold entry1. rewrite nth_alter by exact Hn.
    rewrite count_of_app, count_of_cons.
    rewrite (count_of_ext _ (fun t => (topic_label zs t =? k')%nat) T)
      by (intros t Hin; now rewrite Hother).
    rewrite <- Hnk, Hnew. unfold entry1, count_of. cbn [List.filter length].
    cell_cases.
  - intros d'. rewrite nth_alter by exact Ht.
    rewrite count_of_app, count_of_cons. specialize (Hntd d').
    unfold count_of at 2. cbn [tdoc List.filter length].
    destruct (decide (d' = d)) as [->|Hne].
    + rewrite Nat.eqb_refl. cbn [Z.b2z].
      replace (count_of (fun t => (tdoc t =? d)%nat) T + (1 + Z.of_nat 0))%Z
        with (1 + count_of (fun t => (tdoc t =? d)%nat) T)%Z by lia.
      now apply feq_count_succ.
    + destruct (Nat.eqb_spec d d'); [congruence|]. cbn [Z.b2z].
      now rewrite Z.add_0_r.
  - exact Hnrs.
  - exact Hns.
Qed.

Lemma init_opinion_word_aggregates persp d_p wi T O (w : world G) u w' :
  aggregates_of T O (counts (self w)) ->
  ~ In (persp, d_p, snd wi) (map opinion_cell O) ->
  init_opinion_word persp d_p wi w = Ok (u, w') ->
  aggregates_of T
    (O ++ [{| opersp := persp; odoc := d_p; oword := fst wi;
              opos := snd wi |}])
    (counts (self w')).
Proof.
  intros (Hndk & Hnkw & Hnk & Hntd & Hnrs & Hns) Hfresh Hrun.
  destruct wi as [w_id i]. cbn [fst snd] in *.
  unfold init_opinion_word in Hrun. run_inv Hrun.
  apply randint_Ok in Hstep as (_ & _ & _ & Hself & _).
  subst w'. proj_simpl. rewrite Hself in *. proj_simpl.
  apply upd3_Ok in Hmod as [-> Hx].
  apply upd3_Ok in Hmod0 as [-> Hr].
  apply upd2_Ok in Hmod1 as [-> Hs].
  set (xs := x (counts (self w))) in *.
  set (xs' := alter (alter (alter (fun _ => a) i) d_p) persp xs).
  assert (Hother : forall t, In t O -> opinion_label xs' t = opinion_label xs t).
  { intros t Hin. unfold opinion_label, xs'. rewrite nth3_alter by exact Hx.
    rewrite decide_False; [reflexivity|]. intros (Hp' & Hd' & Hi'). apply Hfresh.
    apply in_map_iff. exists t. split; [|exact Hin].
    unfold opinion_cell. congruence. }
  assert (Hnew : opinion_label xs' {| opersp := persp; odoc := d_p;
                                      oword := w_id; opos := i |} = a).
  { unfold opinion_label, xs'. cbn [opersp odoc opos].
    rewrite nth3_alter by exact Hx. now rewrite decide_True by auto. }
  fold xs'. clearbody xs' xs.
  repeat split; proj_simpl; try assumption.
  - intros p' k' v. unfold entry3. rewrite nth3_alter by exact Hr.
    rewrite count_of_app, count_of_cons.
    rewrite (count_of_ext _ (fun t => (opersp t =? p')%nat
                                      && (opinion_label xs t =? k')%nat
                                      && (oword t =? v)%nat) O)
      by (intros t Hin; now rewrite Hother).
    rewrite <- Hnrs, Hnew. unfold entry3, count_of.
    cbn [opersp oword List.filter length]. cell_cases.
  - intros p' k'. unfold entry2. rewrite nth2_alter by exact Hs.
    rewrite count_of_app, count_of_cons.
    rewrite (count_of_ext _ (fun t => (opersp t =? p')%nat
                                      && (opinion_label xs t =? k')%nat) O)
      by (intros t Hin; now rewrite Hother).
    rewrite <- Hns, Hnew. unfold entry2, count_of.
    cbn [opersp List.filter length]. cell_cases.
Qed.

Lemma NoDup_app_fresh {A K} (key : A -> K) (l : list A) (a : A) (rest : list A) :
  NoDup (map key (l ++ a :: rest)) -> ~ In (key a) (map key l).
Proof.
  rewrite map_app. cbn [map]. intros Hnd Hin.
  apply NoDup_app in Hnd as (_ & Hdisj & _).
  apply (Hdisj (key a)); [now apply list_elem_of_In | left].
Qed.

Lemma NoDup_app_prefix {A K} (key : A -> K) (l1 l2 l3 : list A) :
  NoDup (map key (l1 ++ l2 ++ l3)) -> NoDup (map key (l1 ++ l2)).
Proof.
  rewrite app_assoc, (map_app _ (l1 ++ l2)). intros Hnd.
  now apply NoDup_app in Hnd as (Hnd & _ & _).
Qed.

Lemma init_topic_words_aggregates d ws :
  forall T O (w : world G) u w',
    aggregates_of T O (counts (self w)) ->
    NoDup (map topic_cell (T ++ topic_tokens_at d ws)) ->
    for_each ws (init_topic_word d) w = Ok (u, w') ->
    aggregates_of (T ++ topic_tokens_at d ws) O (counts (self w')).
Proof.
  unfold topic_tokens_at.
  induction ws as [|wi ws IH]; intros T O w u w' Hagg Hnd Hrun.
  - apply ret_Ok in Hrun as [_ ->]. cbn [map]. now rewrite app_nil_r.
  - cbn [for_each] in Hrun. apply bind_Ok in Hrun as (u1 & w1 & Hword & Hrun).
    cbn [map] in *.
    eapply init_topic_word_aggregates in Hword; [|exact Hagg|].
    + rewrite (app_assoc T [_] _ : T ++ _ :: _ = _).
      eapply IH; [exact Hword| |exact Hrun].
      now rewrite <- app_assoc.
    + apply (NoDup_app_fresh topic_cell) in Hnd. exact Hnd.
Qed.

Lemma init_opinion_words_aggregates persp d_p ws :
  forall T O (w : world G) u w',
    aggregates_of T O (counts (self w)) ->
    NoDup (map opinion_cell (O ++ opinion_tokens_at persp d_p ws)) ->
    for_each ws (init_opinion_word persp d_p) w = Ok (u, w') ->
    aggregates_of T (O ++ opinion_tokens_at persp d_p ws) (counts (self w')).
Proof.
  unfold opinion_tokens_at.
  induction ws as [|wi ws IH]; intros T O w u w' Hagg Hnd Hrun.
  - apply ret_Ok in Hrun as [_ ->]. cbn [map]. now rewrite app_nil_r.
  - cbn [for_each] in Hrun. apply bind_Ok in Hrun as (u1 & w1 & Hword & Hrun).
    cbn [map] in *.
    eapply init_opinion_word_aggregates in Hword; [|exact Hagg|].
    + rewrite (app_assoc O [_] _ : O ++ _ :: _ = _).
      eapply IH; [exact Hword| |exact Hrun].
      now rewrite <- app_assoc.
    + apply (NoDup_app_fresh opinion_cell) in Hnd. exact Hnd.
Qed.

Lemma init_documents_aggregates docs :
  forall T O (w : world G) u w',
    aggregates_of T O (counts (self w)) ->
    NoDup (map topic_cell (T ++ flat_map topic_tokens_of docs)) ->
    NoDup (map opinion_cell (O ++ flat_map opinion_tokens_of docs)) ->
    for_each docs init_document w = Ok (u, w') ->
    aggregates_of (T ++ flat_map topic_tokens_of docs)
                  (O ++ flat_map opinion_tokens_of docs) (counts (self w')).
Proof.
  induction docs as [|[[[d persp] d_p] doc] docs IH];
    intros T O w u w' Hagg HT HO Hrun.
  - apply ret_Ok in Hrun as [_ ->]. cbn [flat_map]. now rewrite !app_nil_r.
  - cbn [for_each] in Hrun. apply bind_Ok in Hrun as (u1 & w1 & Hdoc & Hrun).
    unfold init_document in Hdoc.
    apply bind_Ok in Hdoc as (u2 & w2 & Htopic & Hopinion).
    cbn [flat_map topic_tokens_of opinion_tokens_of] in *.
    eapply init_topic_words_aggregates in Htopic;
      [|exact Hagg|exact (NoDup_app_prefix _ _ _ _ HT)].
    eapply init_opinion_words_aggregates in Hopinion;
      [|exact Htopic|exact (NoDup_app_prefix _ _ _ _ HO)].
    rewrite !app_assoc. eapply IH; [exact Hopinion| | |exact Hrun];
      now rewrite <- app_assoc.
Qed.

Lemma nth_replicate_same {A} (a : A) (n i : nat) : nth i (replicate n a) a = a.
Proof.
  rewrite nth_lookup. destruct (replicate n a !! i) as [b|] eqn:Hb;
    [|reflexivity].
  apply lookup_replicate in Hb as [-> _]. reflexivity.
Qed.

Lemma nth_replicate_rows {A} (row : list A) (a : A) (n i j : nat) :
  nth j row a = a -> nth j (nth i (replicate n row) []) a = a.
Proof.
  intros Hrow. rewrite (nth_lookup (replicate n row)).
  destruct (replicate n row !! i) as [r|] eqn:Hr; cbn [default].
  - apply lookup_replicate in Hr as [-> _]. exact Hrow.
  - now destruct j.
Qed.

Lemma _initialize_aggregates (w : world G) u w' :
  _initialize w = Ok (u, w') ->
  distinct_positions (corpus (config (self w))) ->
  aggregates (corpus (config (self w))) (counts (self w')).
Proof.
  unfold _initialize. intros Hrun [HT HO]. run_inv Hrun.
  injection Hstep as _ <-.
  apply zeros2_Ok in Hlift0 as (-> & _ & _).
  apply zeros2_Ok in Hlift1 as (-> & _ & _).
  apply zeros_Ok in Hlift2 as (-> & _).
  apply zeros3_Ok in Hlift4 as (-> & _ & _ & _).
  apply zeros2_Ok in Hlift5 as (-> & _ & _).
  unfold aggregates.
  eapply (init_documents_aggregates _ [] []) in Hrun; [exact Hrun| | |].
  - repeat split; proj_simpl; intros; unfold entry1, entry2, entry3, count_of;
      cbn [List.filter length].
    + apply nth_replicate_rows, nth_replicate_same.
    + apply nth_replicate_rows, nth_replicate_same.
    + apply nth_replicate_same.
    + rewrite nth_replicate_same. reflexivity.
    + rewrite (nth_lookup (replicate _ _)).
      destruct (replicate _ _ !! p) as [m|] eqn:Hm; cbn [default].
      * apply lookup_replicate in Hm as [-> _].
        apply nth_replicate_rows, nth_replicate_same.
      * destruct k; now destruct v.
    + apply nth_replicate_rows, nth_replicate_same.
  - exact HT.
  - exact HO.
Qed.

Lemma sweep_topic_word_aggregates d wi T O (w : world G) u w' :
  aggregates_of T O (counts (self w)) ->
  NoDup (map topic_cell T) ->
  In {| tdoc := d; tword := fst wi; tpos := snd wi |} T ->
  sweep_topic_word d wi w = Ok (u, w') ->
  aggregates_of T O (counts (self w')).
Proof.
  intros (Hndk & Hnkw & Hnk & Hntd & Hnrs & Hns) Hnd Hin Hrun.
  destruct wi as [w_id i]. cbn [fst snd] in *.
  unfold sweep_topic_word in Hrun. run_inv Hrun. proj_simpl.
  apply p_z_frame in Hstep as ->.
  apply sample_from_frame in Hstep0 as [Hself _].
  subst w'. proj_simpl. rewrite Hself in *. proj_simpl.
  apply upd2_Ok in Hmod as [-> Hd1].
  apply upd2_Ok in Hmod0 as [-> Hk1].
  apply upd_Ok in Hmod1 as [-> Hn1].
  apply upd2_Ok in Hmod2 as [-> Hz].
  apply upd2_Ok in Hmod3 as [-> Hd2].
  apply upd2_Ok in Hmod4 as [-> Hk2].
  apply upd_Ok in Hmod5 as [-> Hn2].
  apply get_Ok in Hlift, Hlift0.
  set (t := {| tdoc := d; tword := w_id; tpos := i |}) in *.
  set (zs := z (counts (self w))) in *.
  set (zs' := alter (alter (fun _ => a2) i) d zs).
  assert (Hold : topic_label zs t = a0).
  { unfold topic_label, t. cbn [tdoc tpos].
    rewrite (nth_lookup zs), Hlift. cbn.
    now rewrite nth_lookup, Hlift0. }
  assert (Hother : forall t', In t' T -> topic_cell t' <> topic_cell t ->
                              topic_label zs' t' = topic_label zs t').
  { intros t' _ Hne. unfold topic_label, zs'. rewrite nth2_alter by exact Hz.
    rewrite decide_False; [reflexivity|]. intros [Hd' Hi']. apply Hne.
    unfold topic_cell, t. cbn [tdoc tpos]. congruence. }
  assert (Hnew : topic_label zs' t = a2).
  { unfold topic_label, zs', t. cbn [tdoc tpos]. rewrite nth2_alter by exact Hz.
    now rewrite decide_True by auto. }
  fold zs'. clearbody zs' zs.
  repeat split; proj_simpl; try assumption.
  - intros d' k'. unfold entry2.
    rewrite nth2_alter by exact Hd2. rewrite !nth2_alter by exact Hd1.
    rewrite (count_of_change topic_cell
               (fun t => (tdoc t =? d')%nat && (topic_label zs t =? k')%nat)
               _ t T Hnd Hin)
      by (intros t' Hin' Hne; now rewrite Hother).
    rewrite <- Hndk, Hnew, Hold. clear Hnew Hold Hother. unfold entry2, t. cbn [tdoc]. cell_cases.
  - intros k' v. unfold entry2.
    rewrite nth2_alter by exact Hk2. rewrite !nth2_alter by exact Hk1.
    rewrite (count_of_change topic_cell
               (fun t => (topic_label zs t =? k')%nat && (tword t =? v)%nat)
               _ t T Hnd Hin)
      by (intros t' Hin' Hne; now rewrite Hother).
    rewrite <- Hnkw, Hnew, Hold. clear Hnew Hold Hother. unfold entry2, t. cbn [tword]. cell_cases.
  - intros k'. unfold entry1.
    rewrite nth_alter by exact Hn2. rewrite !nth_alter by exact Hn1.
    rewrite (count_of_change topic_cell
               (fun t => (topic_label zs t =? k')%nat) _ t T Hnd Hin)
      by (intros t' Hin' Hne; now rewrite Hother).
    rewrite <- Hnk, Hnew, Hold. clear Hnew Hold Hother. unfold entry1. cell_cases.
Qed.

Lemma sweep_opinion_word_aggregates persp d d_p wi T O (w : world G) u w' :
  aggregates_of T O (counts (self w)) ->
  NoDup (map opinion_cell O) ->
  In {| opersp := persp; odoc := d_p; oword := fst wi; opos := snd wi |} O ->
  sweep_opinion_word persp d d_p wi w = Ok (u, w') ->
  aggregates_of T O (counts (self w')).
Proof.
  intros (Hndk & Hnkw & Hnk & Hntd & Hnrs & Hns) Hnd Hin Hrun.
  destruct wi as [w_id i]. cbn [fst snd] in *.
  unfold sweep_opinion_word in Hrun. run_inv Hrun. proj_simpl.
  apply p_x_frame in Hstep as ->.
  apply sample_from_frame in Hstep0 as [Hself _].
  subst w'. proj_simpl. rewrite Hself in *. proj_simpl.
  apply upd3_Ok in Hmod as [-> Hr1].
  apply upd2_Ok in Hmod0 as [-> Hs1].
  apply upd3_Ok in Hmod1 as [-> Hx].
  apply upd3_Ok in Hmod2 as [-> Hr2].
  apply upd2_Ok in Hmod3 as [-> Hs2].
  apply get_Ok in Hlift, Hlift0, Hlift1.
  set (t := {| opersp := persp; odoc := d_p; oword := w_id; opos := i |}) in *.
  set (xs := x (counts (self w))) in *.
  set (xs' := alter (alter (alter (fun _ => a3) i) d_p) persp xs).
  assert (Hold : opinion_label xs t = a1).
  { unfold opinion_label, t. cbn [opersp odoc opos].
    rewrite (nth_lookup xs), Hlift. cbn.
    rewrite (nth_lookup a), Hlift0. cbn.
    now rewrite nth_lookup, Hlift1. }
  assert (Hother : forall t', In t' O -> opinion_cell t' <> opinion_cell t ->
                              opinion_label xs' t' = opinion_label xs t').
  { intros t' _ Hne. unfold opinion_label, xs'. rewrite nth3_alter by exact Hx.
    rewrite decide_False; [reflexivity|]. intros (Hp' & Hd' & Hi'). apply Hne.
    unfold opinion_cell, t. cbn [opersp odoc opos]. congruence. }
  assert (Hnew : opinion_label xs' t = a3).
  { unfold opinion_label, xs', t. cbn [opersp odoc opos].
    rewrite nth3_alter by exact Hx. now rewrite decide_True by auto. }
  fold xs'. clearbody xs' xs.
  repeat split; proj_simpl; try assumption.
  - intros p' k' v. unfold entry3.
    rewrite nth3_alter by exact Hr2. rewrite !nth3_alter by exact Hr1.
    rewrite (count_of_change opinion_cell
               (fun t => (opersp t =? p')%nat
                         && (opinion_label xs t =? k')%nat
                         && (oword t =? v)%nat)
               _ t O Hnd Hin)
      by (intros t' Hin' Hne; now rewrite Hother).
    rewrite <- Hnrs, Hnew, Hold. clear Hnew Hold Hother. unfold entry3, t. cbn [opersp oword].
    cell_cases.
  - intros p' k'. unfold entry2.
    rewrite nth2_alter by exact Hs2. rewrite !nth2_alter by exact Hs1.
    rewrite (count_of_change opinion_cell
               (fun t => (opersp t =? p')%nat
                         && (opinion_label xs t =? k')%nat)
               _ t O Hnd Hin)
      by (intros t' Hin' Hne; now rewrite Hother).
    rewrite <- Hns, Hnew, Hold. clear Hnew Hold Hother. unfold entry2, t. cbn [opersp]. cell_cases.
Qed.

Lemma gibbs_inner_aggregates (w : world G) u w' :
  let c := corpus (config (self w)) in
  distinct_positions c ->
  aggregates c (counts (self w)) ->
  gibbs_inner w = Ok (u, w') ->
  aggregates c (counts (self w')).
Proof.
  intros c [HT HO] Hagg Hrun. unfold gibbs_inner in Hrun. run_inv Hrun.
  fold c in Hstep, Hrun. unfold aggregates in *.
  set (P := fun w1 : world G =>
              aggregates_of (topic_token_list c) (opinion_token_list c)
                            (counts (self w1))).
  eapply (for_each_invariant P); [| |exact Hrun].
  - intros p w1 u1 w2 _ HP Hp.
    eapply (for_each_invariant P); [|exact HP|exact Hp].
    intros [[[d persp] d_p] doc] w3 u3 w4 Hdoc HP3 Hrun3.
    unfold sweep_opinions in Hrun3.
    destruct (Nat.eqb_spec persp p) as [->|_].
    + eapply (for_each_invariant P); [|exact HP3|exact Hrun3].
      intros wi w5 u5 w6 Hwi HP5 Hword.
      eapply sweep_opinion_word_aggregates; [exact HP5|exact HO| |exact Hword].
      apply in_flat_map. exists (d, p, d_p, doc). split; [exact Hdoc|].
      cbn [opinion_tokens_of]. unfold opinion_tokens_at.
      apply in_map_iff. exists wi. auto.
    + apply ret_Ok in Hrun3 as [_ ->]. exact HP3.
  - eapply (for_each_invariant P); [|exact Hagg|exact Hstep].
    intros [[[d persp] d_p] doc] w3 u3 w4 Hdoc HP3 Hrun3.
    unfold sweep_topics in Hrun3.
    eapply (for_each_invariant P); [|exact HP3|exact Hrun3].
    intros wi w5 u5 w6 Hwi HP5 Hword.
    eapply sweep_topic_word_aggregates; [exact HP5|exact HT| |exact Hword].
    apply in_flat_map. exists (d, persp, d_p, doc). split; [exact Hdoc|].
    cbn [topic_tokens_of]. unfold topic_tokens_at.
    apply in_map_iff. exists wi. auto.
Qed.

Lemma reachable_config (w0 w : world G) :
  reachable w0 w -> config (self w) = config (self w0).
Proof.
  induction 1 as [u w Hinit | w u w' _ IH Hsweep].
  - now apply _initialize_config in Hinit as [Hcfg _].
  - apply keeps_gibbs_inner in Hsweep as [Hcfg _]. congruence.
Qed.

Lemma reachable_aggregates (w0 w : world G) :
  reachable w0 w ->
  distinct_positions (corpus (config (self w0))) ->
  aggregates (corpus (config (self w0))) (counts (self w)).
Proof.
  intros Hreach Hpos.
  induction Hreach as [u w Hinit | w u w' Hreach IH Hsweep].
  - now apply _initialize_aggregates in Hinit.
  - pose proof (reachable_config w0 w Hreach) as Hcfg.
    pose proof (gibbs_inner_aggregates w u w') as Hstep.
    cbv zeta in Hstep. rewrite Hcfg in Hstep. now apply Hstep.
Qed.

(** C1: in every state that initialization followed by any number of
    sampling sweeps reaches, the count tables are consistent: for every
    document [d] the sum over [k] of [ndk[d][k]] is [ntd[d]], for every topic
    [k] the sum over [w] of [nkw[k][w]] is [nk[k]], and for every perspective
    [p] and topic [k] the sum over [w] of [nrs[p][k][w]] is [ns[p][k]].  And
    when iterating the corpus yields every position of every document once,
    the tables are the aggregates of the assignment arrays: every cell of
    [ndk], [nkw], [nk], [ntd], [nrs] and [ns] holds the number of the tokens
    it stands for, by the labels that [z] and [x] hold for them. *)
Theorem reachable_consistent (w0 w : world G) :
  reachable w0 w ->
  consistent (counts (self w)) /\
  (distinct_positions (corpus (config (self w0))) ->
   aggregates (corpus (config (self w0))) (counts (self w))).
Proof.
  intros Hreach. split.
  - induction Hreach as [u w Hinit | w u w' _ IH Hsweep].
    + eapply _initialize_consistent; eauto.
    + eapply gibbs_inner_consistent; eauto.
  - now apply reachable_aggregates.
Qed.

End Aggregates.

Lemma reachable_consistent_witness :
  reachable (Example.fresh 2 None) Example.world2 /\
  consistent (counts (self Example.world2)) /\
  aggregates Example.corpus0 (counts (self Example.world2)).
Proof.
  assert (Hr : reachable (Example.fresh 2 None) Example.world2).
  { eapply (reach_sweep _ Example.world1 tt).
    - eapply (reach_init _ tt). vm_compute. reflexivity.
    - vm_compute. reflexivity. }
  destruct (reachable_consistent _ _ Hr) as [Hc Ha].
  split; [exact Hr|]. split; [exact Hc|]. apply Ha.
  split; refine (bool_decide_unpack _ _); vm_compute; exact I.
Defined.
